(** * Constrained query execution: a shallow embedding of [utils/dbHelpers.js]

    The development follows the three functions of the query-execution
    module: [executeDbQuery] (the validation gate), [executeViaSupabaseRPC]
    (the dispatcher between the RPC path and the fallback) and
    [parseAndExecuteQuery] (the pattern translator), and the gate that
    [controllers/naturalQueryController.js] puts in front of them.

    Modelling conventions.
    - A JavaScript string is a list of code units; the model covers code
      units below 256 ([ascii]), with the whitespace set and the case
      mapping of that range.
    - A regular-expression literal of the source is a [regex] term, run by
      a backtracking matcher with the greedy, leftmost semantics of
      [String.prototype.match].
    - A number is an IEEE 754 double ([spec_float] at precision 53):
      [parseInt] rounds the integer its digits denote to the nearest
      double, and [String] prints the shortest digits that read back as
      the same double, as [Number::toString] does.
    - The Supabase client is a pair of oracles: [rpc] for [client.rpc] and
      [await] for an awaited query builder.  An awaited request always
      resolves to a response, a failure being reported in its [error]
      field, as supabase-js does; a builder answers with [null] or an
      array of row objects, as PostgREST does.
    - A thrown value is represented by its [message].
    - The effects of a call are the backend requests it issues and the
      lines it prints with [console.warn], in order; [console.log] and
      [console.error] diagnostics are not modelled.
    - An object is the ordered list of its own properties; the properties
      a plain object inherits from [Object.prototype] are modelled where
      the source indexes an object by a data-dependent key. *)

From Stdlib Require Import Ascii String List ZArith NArith Bool Arith Lia.
From Stdlib Require Import DecimalString.
From Stdlib Require Import Floats.SpecFloat.
Import ListNotations.

Set Implicit Arguments.
Set Warnings "-register-all".

(** ** Strings *)

Module JsString.

Definition str := list ascii.

Definition lit (s : string) : str := list_ascii_of_string s.

Definition code (c : ascii) : N := N_of_ascii c.

Definition char_eqb (a b : ascii) : bool := Ascii.eqb a b.

Fixpoint str_eqb (a b : str) : bool :=
  match a, b with
  | [], [] => true
  | x :: a', y :: b' => char_eqb x y && str_eqb a' b'
  | _, _ => false
  end.

(** WhiteSpace and LineTerminator code units below 256: TAB, LF, VT, FF,
    CR, SPACE and NO-BREAK SPACE.  This is both the class [\s] and the
    set removed by [trim]. *)
Definition is_space (c : ascii) : bool :=
  let n := code c in
  ((9 <=? n) && (n <=? 13) || (n =? 32) || (n =? 160))%N.

Definition is_digit (c : ascii) : bool :=
  let n := code c in ((48 <=? n) && (n <=? 57))%N.

(** The class [\w]: [A-Za-z0-9_]. *)
Definition is_word (c : ascii) : bool :=
  let n := code c in
  ((65 <=? n) && (n <=? 90) || (97 <=? n) && (n <=? 122)
   || (48 <=? n) && (n <=? 57) || (n =? 95))%N.

(** The class [.]: anything but a line terminator. *)
Definition is_dot (c : ascii) : bool :=
  let n := code c in negb ((n =? 10) || (n =? 13))%N.

Definition lower_char (c : ascii) : ascii :=
  let n := code c in
  if ((65 <=? n) && (n <=? 90))%N then ascii_of_N (n + 32)
  else if ((192 <=? n) && (n <=? 222) && negb (n =? 215))%N
       then ascii_of_N (n + 32)
  else c.

Definition toLowerCase (s : str) : str := map lower_char s.

Fixpoint trimStart (s : str) : str :=
  match s with
  | c :: s' => if is_space c then trimStart s' else s
  | [] => []
  end.

Definition trimEnd (s : str) : str := rev (trimStart (rev s)).

Definition trim (s : str) : str := trimEnd (trimStart s).

Fixpoint startsWith (s p : str) {struct p} : bool :=
  match p, s with
  | [], _ => true
  | x :: p', y :: s' => char_eqb x y && startsWith s' p'
  | _ :: _, [] => false
  end.

Fixpoint includes (s p : str) : bool :=
  startsWith s p ||
  match s with
  | [] => false
  | _ :: s' => includes s' p
  end.

(** [s.split(c)] for a one-character separator. *)
Fixpoint split (c : ascii) (s : str) : list str :=
  match s with
  | [] => [[]]
  | x :: s' =>
      if char_eqb x c then [] :: split c s'
      else match split c s' with
           | seg :: segs => (x :: seg) :: segs
           | [] => [[x]]
           end
  end.

(** The integer that a string of decimal digits denotes. *)
Definition digit_val (c : ascii) : Z := Z.of_N (code c) - 48.

Definition mathInt (s : str) : Z :=
  fold_left (fun acc c => 10 * acc + digit_val c)%Z s 0%Z.

(** The decimal digits of an integer, after a minus sign when it is
    negative: the text of an array index or of a length, which are
    below [2^32], and the digits inside the text of a number. *)
Definition of_Z (z : Z) : str := lit (NilZero.string_of_int (Z.to_int z)).

End JsString.

Import JsString.

(** ** Numbers *)

Module JsNumber.

Local Open Scope Z_scope.

(** A Number value: an IEEE 754 binary64 value.  A finite one is
    [S754_finite s m e], the number [m * 2^e] or its opposite, with [m]
    below [2^53] and [e] from [-1074] to [971], and [m] at least [2^52]
    unless [e] is [-1074]. *)
Definition number : Type := spec_float.

Definition prec : Z := 53.
Definition emax : Z := 1024.

(** The Number value for an integer: the nearest double, the one with
    the even mantissa of two that are as near, and [Infinity] from
    [2^1024 - 2^970] on. *)
Definition ofZ (z : Z) : number := binary_normalize prec emax z 0 false.

(** [x + y] *)
Definition add (x y : number) : number := SFadd prec emax x y.

(** [ToBoolean]: every number but the zeros and [NaN]. *)
Definition toBoolean (x : number) : bool :=
  match x with
  | S754_zero _ | S754_nan => false
  | S754_infinity _ | S754_finite _ _ _ => true
  end.

(** [parseInt] on a string of decimal digits. *)
Definition parseInt (s : str) : number := ofZ (mathInt s).

Section Digits.

(** The positive double [m * 2^e] is the fraction [xn / d]; the reals
    that round to it lie between [ln / d] and [hn / d]. *)
Variables (m : positive) (e : Z).

Let up : Z := 2 ^ Z.max e 0.
Let d : Z := 4 * 2 ^ Z.max (- e) 0.
Let xn : Z := 4 * Zpos m * up.
Let hn : Z := (4 * Zpos m + 2) * up.
Let ln : Z :=
  (if (Zpos m =? 2 ^ 52) && negb (e =? -1074) then 4 * Zpos m - 1
   else 4 * Zpos m - 2) * up.

(** [c * 10^p] against [n / d]. *)
Definition against (c p n : Z) : comparison :=
  if 0 <=? p then (c * 10 ^ p * d ?= n) else (c * d ?= n * 10 ^ (- p)).

(** Whether [c * 10^p] rounds to the double: the ends of the interval
    do when the mantissa is even. *)
Definition roundsHere (c p : Z) : bool :=
  match against c p ln, against c p hn with
  | Gt, Lt => true
  | Eq, Lt | Gt, Eq | Eq, Eq => Z.even (Zpos m)
  | _, _ => false
  end.

Fixpoint downTo (fuel : nat) (j : Z) : Z :=
  match fuel with
  | O => j
  | S fuel' =>
      match against 1 j xn with
      | Gt => downTo fuel' (j - 1)
      | _ => j
      end
  end.

Fixpoint upTo (fuel : nat) (j : Z) : Z :=
  match fuel with
  | O => j
  | S fuel' =>
      match against 1 (j + 1) xn with
      | Gt => j
      | _ => upTo fuel' (j + 1)
      end
  end.

(** The [n] with [10^(n-1) <= x < 10^n], found from an estimate that is
    off by less than eight. *)
Definition magnitude : Z :=
  let estimate := (Z.log2 xn - Z.log2 d) * 30103 / 100000 in
  upTo 8 (downTo 8 estimate) + 1.

(** The digits [s] and the exponent [n] of the number of [k] digits
    that rounds to the double, if there is one: the nearest, and the
    even one of two that are as near. *)
Definition withDigits (n k : Z) : option (Z * Z) :=
  let p := n - k in
  let lo := if 0 <=? p then xn / (d * 10 ^ p) else xn * 10 ^ (- p) / d in
  let hi := lo + 1 in
  let chosen :=
    match roundsHere lo p, roundsHere hi p with
    | true, true =>
        match against (lo + hi) p (2 * xn) with
        | Gt => Some lo
        | Lt => Some hi
        | Eq => Some (if Z.even lo then lo else hi)
        end
    | true, false => Some lo
    | false, true => Some hi
    | false, false => None
    end in
  match chosen with
  | Some s => if s =? 10 ^ k then Some (10 ^ (k - 1), n + 1) else Some (s, n)
  | None => None
  end.

(** The least number of digits is tried first; seventeen are enough for
    a double. *)
Fixpoint shortestFrom (fuel : nat) (n k : Z) : Z * Z :=
  match fuel with
  | O => (xn * 10 ^ Z.max (k - n) 0 / (d * 10 ^ Z.max (n - k) 0), n)
  | S fuel' =>
      match withDigits n k with
      | Some sn => sn
      | None => shortestFrom fuel' n (k + 1)
      end
  end.

Definition shortest : Z * Z := shortestFrom 17 magnitude 1.

End Digits.

Definition zeros (n : Z) : str := repeat "0"%char (Z.to_nat n).

(** [Number::toString(x)] in radix 10. *)
Definition toString (x : number) : str :=
  match x with
  | S754_nan => lit "NaN"
  | S754_zero _ => lit "0"
  | S754_infinity s => if s then lit "-Infinity" else lit "Infinity"
  | S754_finite s m e =>
      let (digits, n) := shortest m e in
      let ds := of_Z digits in
      let k := Z.of_nat (length ds) in
      (if s then lit "-" else [])
      ++ (if (k <=? n) && (n <=? 21) then ds ++ zeros (n - k)
          else if (0 <? n) && (n <=? 21)
          then firstn (Z.to_nat n) ds ++ lit "." ++ skipn (Z.to_nat n) ds
          else if (-6 <? n) && (n <=? 0)
          then lit "0." ++ zeros (- n) ++ ds
          else
            let exponent :=
              lit "e" ++ (if n - 1 <? 0 then lit "-" else lit "+")
              ++ of_Z (Z.abs (n - 1)) in
            match ds with
            | [] => exponent
            | [a] => [a] ++ exponent
            | a :: more => [a] ++ lit "." ++ more ++ exponent
            end)
  end.

(** Whether a number is neither [NaN] nor an infinity. *)
Definition isFinite (x : number) : bool :=
  match x with
  | S754_zero _ | S754_finite _ _ _ => true
  | S754_nan | S754_infinity _ => false
  end.

End JsNumber.

Import JsNumber.

(** An integer written where a number is expected stands for the double
    nearest to it. *)
Coercion ofZ : Z >-> number.

(** ** Regular expressions *)

Module Regex.

Inductive regex : Type :=
| Eps
| Cls (p : ascii -> bool)
| Seq (a b : regex)
| Alt (a b : regex)
| Star (a : regex)
| Grp (i : nat) (a : regex)
| Bol
| Eol.

Definition chr (c : ascii) : regex := Cls (char_eqb c).
Definition none_of (cs : string) : regex :=
  Cls (fun c => negb (existsb (char_eqb c) (lit cs))).
Definition ws : regex := Cls is_space.
Definition word : regex := Cls is_word.
Definition digit : regex := Cls is_digit.
Definition dot : regex := Cls is_dot.
Definition plus (a : regex) : regex := Seq a (Star a).
Definition opt (a : regex) : regex := Alt a Eps.
Definition cat (rs : list regex) : regex := fold_right Seq Eps rs.
Definition text (s : string) : regex := cat (map chr (lit s)).

(** *** The backtracking matcher *)

Record mstate : Type := MState {
  pos : nat;                     (* index of the next code unit *)
  rest : str;                    (* the input from [pos] on *)
  caps : list (nat * str)        (* capture groups set so far, newest first *)
}.

Definition cont := mstate -> option mstate.

(** Greedy iteration: one more round of [step] first, the continuation
    second.  A round that consumes nothing is refused, as in ECMAScript. *)
Fixpoint star_loop (step : mstate -> cont -> option mstate)
         (fuel : nat) (st : mstate) (k : cont) : option mstate :=
  match fuel with
  | O => k st
  | S fuel' =>
      match step st (fun st' =>
                       if length (rest st') <? length (rest st)
                       then star_loop step fuel' st' k
                       else None) with
      | Some r => Some r
      | None => k st
      end
  end.

Fixpoint run (r : regex) (st : mstate) (k : cont) {struct r} : option mstate :=
  match r with
  | Eps => k st
  | Cls p =>
      match rest st with
      | c :: s' =>
          if p c then k (MState (S (pos st)) s' (caps st)) else None
      | [] => None
      end
  | Seq a b => run a st (fun st' => run b st' k)
  | Alt a b =>
      match run a st k with
      | Some r => Some r
      | None => run b st k
      end
  | Star a => star_loop (run a) (S (length (rest st))) st k
  | Grp i a =>
      run a st (fun st' =>
        k (MState (pos st') (rest st')
                  ((i, firstn (pos st' - pos st) (rest st)) :: caps st')))
  | Bol => if pos st =? 0 then k st else None
  | Eol => match rest st with [] => k st | _ :: _ => None end
  end.

Definition exec_at (r : regex) (idx : nat) (s : str) : option mstate :=
  run r (MState idx s []) Some.

(** The leftmost start index at which the expression matches. *)
Fixpoint search (r : regex) (idx : nat) (s : str) : option (nat * mstate) :=
  match exec_at r idx s with
  | Some st => Some (idx, st)
  | None =>
      match s with
      | [] => None
      | _ :: s' => search r (S idx) s'
      end
  end.

(** The array returned by [s.match(r)]: the index, the matched text and
    the capture groups; a group that took no part is absent
    ([undefined]). *)
Record match_result : Type := MatchResult {
  index : nat;
  matched : str;
  groups : list (nat * str)
}.

Definition js_match (r : regex) (s : str) : option match_result :=
  match search r 0 s with
  | Some (idx, st) =>
      Some (MatchResult idx (firstn (pos st - idx) (skipn idx s)) (caps st))
  | None => None
  end.

Fixpoint assoc (i : nat) (l : list (nat * str)) : option str :=
  match l with
  | [] => None
  | (j, v) :: l' => if j =? i then Some v else assoc i l'
  end.

(** [m[i]], possibly [undefined]. *)
Definition group (m : match_result) (i : nat) : option str :=
  assoc i (groups m).

(** [m[i]] for a group that every match sets. *)
Definition group1 (m : match_result) (i : nat) : str :=
  match group m i with Some v => v | None => [] end.

(** [s.replace(r, '')] for an expression without the [g] flag. *)
Definition remove_first (r : regex) (s : str) : str :=
  match js_match r s with
  | Some m => firstn (index m) s ++ skipn (index m + length (matched m)) s
  | None => s
  end.

End Regex.

Import Regex.

(** ** The expression literals of the source *)

Module Patterns.

(** [/;+$/] *)
Definition trailingSemicolons : regex :=
  cat [plus (chr ";"); Eol].

Definition optLimit (i : nat) : regex :=
  opt (cat [plus ws; text "limit"; plus ws; Grp i (plus digit)]).

Definition optSemicolon : regex :=
  opt (cat [Star ws; chr ";"]).

(** [/^select\s+\*\s+from\s+(\w+)(?:\s+limit\s+(\d+))?(?:\s*;)?$/] *)
Definition simpleSelect : regex :=
  cat [Bol; text "select"; plus ws; chr "*"; plus ws; text "from"; plus ws;
       Grp 1 (plus word); optLimit 2; optSemicolon; Eol].

(** [/^select\s+count\(\*\)\s*(?:as\s+(\w+)\s+)?from\s+(\w+)(?:\s*;)?$/] *)
Definition countAll : regex :=
  cat [Bol; text "select"; plus ws; text "count(*)"; Star ws;
       opt (cat [text "as"; plus ws; Grp 1 (plus word); plus ws]);
       text "from"; plus ws; Grp 2 (plus word); optSemicolon; Eol].

(** [/^select\s+\*\s+from\s+(\w+)\s+where\s+(\w+)\s*=\s*'([^']+)'(?:\s+limit\s+(\d+))?(?:\s*;)?$/] *)
Definition whereString : regex :=
  cat [Bol; text "select"; plus ws; chr "*"; plus ws; text "from"; plus ws;
       Grp 1 (plus word); plus ws; text "where"; plus ws; Grp 2 (plus word);
       Star ws; chr "="; Star ws;
       chr "'"; Grp 3 (plus (none_of "'")); chr "'";
       optLimit 4; optSemicolon; Eol].

(** [/^select\s+\*\s+from\s+(\w+)\s+where\s+(\w+)\s*=\s*(\d+)(?:\s+limit\s+(\d+))?(?:\s*;)?$/] *)
Definition whereNum : regex :=
  cat [Bol; text "select"; plus ws; chr "*"; plus ws; text "from"; plus ws;
       Grp 1 (plus word); plus ws; text "where"; plus ws; Grp 2 (plus word);
       Star ws; chr "="; Star ws; Grp 3 (plus digit);
       optLimit 4; optSemicolon; Eol].

(** [/^select\s+([^*][^from]+)\s+from\s+(\w+)(?:\s+limit\s+(\d+))?(?:\s*;)?$/] *)
Definition selectColumns : regex :=
  cat [Bol; text "select"; plus ws;
       Grp 1 (cat [none_of "*"; plus (none_of "from")]);
       plus ws; text "from"; plus ws; Grp 2 (plus word);
       optLimit 3; optSemicolon; Eol].

(** [/^select\s+(\w+),\s*count\(\*\)\s*(?:as\s+(\w+))?\s+from\s+(\w+)\s+group\s+by\s+(\w+)$/] *)
Definition groupBy : regex :=
  cat [Bol; text "select"; plus ws; Grp 1 (plus word); chr ","; Star ws;
       text "count(*)"; Star ws;
       opt (cat [text "as"; plus ws; Grp 2 (plus word)]);
       plus ws; text "from"; plus ws; Grp 3 (plus word);
       plus ws; text "group"; plus ws; text "by"; plus ws;
       Grp 4 (plus word); Eol].

(** [/select.*\*.*from\s+(\w+)/] *)
Definition basicSelect : regex :=
  cat [text "select"; Star dot; chr "*"; Star dot; text "from"; plus ws;
       Grp 1 (plus word)].

End Patterns.

(** ** Values, objects and the backend *)

Module Js.

Inductive json : Type :=
| JNull
| JBool (b : bool)
| JNum (x : number)
| JStr (s : str)
| JArr (items : list json)
| JObj (fields : list (str * json)).

Arguments JNum x%_Z.

(** An object is the list of its own properties in the order
    [Object.entries] lists them. *)
Definition obj := list (str * json).

Definition truthy (v : json) : bool :=
  match v with
  | JNull => false
  | JBool b => b
  | JNum x => toBoolean x
  | JStr s => match s with [] => false | _ :: _ => true end
  | JArr _ | JObj _ => true
  end.

(** [String(v)]. *)
Fixpoint to_string (v : json) : str :=
  match v with
  | JNull => lit "null"
  | JBool true => lit "true"
  | JBool false => lit "false"
  | JNum x => toString x
  | JStr s => s
  | JArr items =>
      (fix join (l : list json) : str :=
         match l with
         | [] => []
         | x :: l' =>
             let e := match x with JNull => [] | _ => to_string x end in
             match l' with
             | [] => e
             | _ :: _ => e ++ lit "," ++ join l'
             end
         end) items
  | JObj _ => lit "[object Object]"
  end.

Fixpoint own (o : obj) (k : str) : option json :=
  match o with
  | [] => None
  | (k', v) :: o' => if str_eqb k' k then Some v else own o' k
  end.

(** An array index is a canonical numeric string below [2^32 - 1]. *)
Definition array_index (k : str) : option Z :=
  match k with
  | [] => None
  | c :: k' =>
      if forallb is_digit k
         && (negb (char_eqb c "0") || match k' with [] => true | _ => false end)
         && (mathInt k <? 4294967295)%Z
      then Some (mathInt k) else None
  end.

(** Where a new index key goes: before the first key that is no index or
    a larger one. *)
Fixpoint insert_index (n : Z) (k : str) (v : json) (o : obj) : obj :=
  match o with
  | [] => [(k, v)]
  | (k', v') :: o' =>
      match array_index k' with
      | Some n' =>
          if (n <? n')%Z then (k, v) :: o
          else (k', v') :: insert_index n k v o'
      | None => (k, v) :: o
      end
  end.

Fixpoint replace_own (k : str) (v : json) (o : obj) : obj :=
  match o with
  | [] => []
  | (k', v') :: o' =>
      if str_eqb k' k then (k', v) :: o' else (k', v') :: replace_own k v o'
  end.

(** Defining or overwriting an own property. *)
Definition define (o : obj) (k : str) (v : json) : obj :=
  match own o k with
  | Some _ => replace_own k v o
  | None =>
      match array_index k with
      | Some n => insert_index n k v o
      | None => o ++ [(k, v)]
      end
  end.

(** The function-valued properties every plain object inherits from
    [Object.prototype], with the text V8 prints for each. *)
Definition inherited_functions : list string :=
  ["constructor"; "__defineGetter__"; "__defineSetter__"; "hasOwnProperty";
   "__lookupGetter__"; "__lookupSetter__"; "isPrototypeOf";
   "propertyIsEnumerable"; "toString"; "valueOf"; "toLocaleString"]%string.

Definition is_inherited_function (k : str) : bool :=
  existsb (fun n => str_eqb (lit n) k) inherited_functions.

Definition function_text (k : str) : str :=
  lit "function "
  ++ (if str_eqb k (lit "constructor") then lit "Object" else k)
  ++ lit "() { [native code] }".

Definition proto_key : str := lit "__proto__".

(** [String(o[k])] for a property [k] that a plain object [o] does not
    own: the text of an inherited property, or [undefined]. *)
Definition inherited_text (k : str) : str :=
  if str_eqb k proto_key then lit "[object Object]"
  else if is_inherited_function k then function_text k
  else lit "undefined".

(** The property key that [row[column]] is converted to when it is used
    as an index. *)
Definition rowKey (row : obj) (column : str) : str :=
  match own row column with
  | Some v => to_string v
  | None => inherited_text column
  end.

(** [(v || 0) + 1]. *)
Definition or_zero_plus_one (v : json) : json :=
  if truthy v then
    match v with
    | JNum x => JNum (add x (ofZ 1))
    | JBool _ => JNum 2
    | _ => JStr (to_string v ++ lit "1")
    end
  else JNum 1.

(** [{ [k1]: v1, [k2]: v2 }] *)
Definition object2 (k1 : str) (v1 : json) (k2 : str) (v2 : json) : json :=
  JObj (define (define [] k1 v1) k2 v2).

(** *** The query builder and the client *)

Record builder : Type := Builder {
  table : str;                      (* [client.from(table)] *)
  columns : str;                    (* [.select(columns)] *)
  head_count : bool;                (* [{ count: 'exact', head: true }] *)
  eq_filter : option (str * json);  (* [.eq(column, value)] *)
  row_limit : option number         (* [.limit(n)] *)
}.

Definition from_select (t cols : str) : builder :=
  Builder t cols false None None.
Definition from_select_count (t cols : str) : builder :=
  Builder t cols true None None.
Definition eq (b : builder) (column : str) (value : json) : builder :=
  Builder (table b) (columns b) (head_count b) (Some (column, value))
          (row_limit b).
Definition limit (b : builder) (n : number) : builder :=
  Builder (table b) (columns b) (head_count b) (eq_filter b) (Some n).

Record rpc_response : Type := RpcResponse {
  rpc_data : json;
  rpc_error : option str            (* [error.message] *)
}.

Record query_response : Type := QueryResponse {
  data : option (list obj);         (* [null] or an array of rows *)
  error : option str;               (* [error.message] *)
  count : option Z
}.

Record client : Type := Client {
  rpc : str -> str -> rpc_response;
  await : builder -> query_response
}.

(** *** Effects *)

Inductive event : Type :=
| RpcCall (fn : str) (sql_query : str)
| QueryCall (b : builder)
| Warn (line : str).

Inductive outcome (A : Type) : Type :=
| Return (a : A)
| Throw (message : str).

Arguments Return {A} a.
Arguments Throw {A} message.

Definition M (A : Type) : Type := (list event * outcome A)%type.

Definition ret {A} (a : A) : M A := ([], Return a).
Definition throw {A} (message : str) : M A := ([], Throw message).

Definition bind {A B} (m : M A) (f : A -> M B) : M B :=
  match m with
  | (t, Return a) => let (t', r) := f a in (t ++ t', r)
  | (t, Throw e) => (t, Throw e)
  end.

(** [try { m } catch (e) { h e }] *)
Definition try_catch {A} (m : M A) (h : str -> M A) : M A :=
  match m with
  | (t, Return a) => (t, Return a)
  | (t, Throw e) => let (t', r) := h e in (t ++ t', r)
  end.

Definition call_rpc (c : client) (fn sql_query : str) : M rpc_response :=
  ([RpcCall fn sql_query], Return (rpc c fn sql_query)).

Definition run_query (c : client) (b : builder) : M query_response :=
  ([QueryCall b], Return (await c b)).

Definition backend_calls (t : list event) : list event :=
  filter (fun e => match e with Warn _ => false | _ => true end) t.

End Js.

Import Js.

Notation "x <- m ;; f" := (bind m (fun x => f))
  (at level 61, m at next level, right associativity).

(** ** The query-execution module *)

Module DbHelpers.

Definition dq : str := ["034"%char].

(** *** Messages of the thrown errors *)

Definition msgNotSelect : str :=
  lit "SQL handler only supports SELECT statements for read.".
Definition msgForbidden : str :=
  lit "SQL contains forbidden keywords for security.".
Definition msgMultiple : str :=
  lit "Multiple SQL statements are not allowed for security.".
Definition msgNoClient : str :=
  lit "Supabase client not available. Please check your Supabase configuration and call initializeDatabase first.".
Definition msgUnsupported (query : str) : str :=
  lit "Query pattern not supported via Supabase client. Query: " ++ dq
  ++ query ++ dq
  ++ lit ". Install RPC function for complex queries or check query syntax.".
Definition msgForEachOfNull : str :=
  lit "Cannot read properties of null (reading 'forEach')".

Definition RPC_NOT_AVAILABLE : str := lit "RPC_NOT_AVAILABLE".
Definition RPC_SYNTAX_ERROR : str := lit "RPC_SYNTAX_ERROR".

(** The lines of the [console.warn] calls of the no-match branch. *)
Definition supportedPatterns : list string :=
  ["  - SELECT * FROM table";
   "  - SELECT columns FROM table";
   "  - SELECT COUNT(*) FROM table";
   "  - SELECT * FROM table WHERE column = value";
   "  - SELECT column, COUNT(*) FROM table GROUP BY column"]%string.

Definition unsupportedWarnings : list event :=
  map (fun l => Warn (lit l))
    (["[DB Helper] Query pattern not recognized, cannot execute via Supabase client";
      "[DB Helper] Supported patterns:"]%string
     ++ supportedPatterns
     ++ ["[DB Helper] All patterns support optional LIMIT and semicolon";
         "[DB Helper] For complex queries, install the RPC function from backend/database/rpc-setup.sql"]%string).

(** *** [parseAndExecuteQuery] *)

(** [m[i] ? parseInt(m[i]) : undefined] *)
Definition limitOf (m : match_result) (i : nat) : option number :=
  match group m i with
  | Some (c :: s) => Some (parseInt (c :: s))
  | _ => None
  end.

(** [if (limit) queryBuilder = queryBuilder.limit(limit)] *)
Definition withLimit (queryBuilder : builder) (lim : option number)
  : builder :=
  match lim with
  | Some n => if toBoolean n then limit queryBuilder n else queryBuilder
  | None => queryBuilder
  end.

(** [const { data, error } = await queryBuilder; if (error) throw error;
    return data || []] *)
Definition rowsOf (c : client) (queryBuilder : builder) : M json :=
  resp <- run_query c queryBuilder ;;
  match error resp with
  | Some e => throw e
  | None =>
      ret (match data resp with
           | Some rows => JArr (map JObj rows)
           | None => JArr []
           end)
  end.

(** One round of [data.forEach(row => ...)] of the group-count branch. *)
Definition countRow (groupColumn : str) (grouped : obj) (row : obj) : obj :=
  let key := rowKey row groupColumn in
  match own grouped key with
  | Some v => define grouped key (or_zero_plus_one v)
  | None =>
      if str_eqb key proto_key then grouped
      else if is_inherited_function key
           then define grouped key (JStr (function_text key ++ lit "1"))
      else define grouped key (JNum 1)
  end.

Definition groupRows (groupColumn : str) (rows : list obj) : obj :=
  fold_left (countRow groupColumn) rows [].

(** [Object.entries(grouped).map(([key, count]) => ({...}))] *)
Definition groupedToRows (groupColumn countAlias : str) (grouped : obj)
  : list json :=
  map (fun '(key, cnt) => object2 groupColumn (JStr key) countAlias cnt)
      grouped.

(** [m[i] || 'count'] *)
Definition orCount (g : option str) : str :=
  match g with
  | Some (x :: a) => x :: a
  | _ => lit "count"
  end.

Definition simpleSelectBranch (c : client) (m : match_result) : M json :=
  let tableName := group1 m 1 in
  let lim := limitOf m 2 in
  rowsOf c (withLimit (from_select tableName (lit "*")) lim).

Definition countBranch (c : client) (m : match_result) : M json :=
  let countAlias := orCount (group m 1) in
  let tableName := group1 m 2 in
  resp <- run_query c (from_select_count tableName (lit "*")) ;;
  match error resp with
  | Some e => throw e
  | None =>
      ret (JArr [JObj (define [] countAlias
                         (match count resp with
                          | Some n => JNum n
                          | None => JNull
                          end))])
  end.

Definition whereStringBranch (c : client) (m : match_result) : M json :=
  let tableName := group1 m 1 in
  let column := group1 m 2 in
  let value := group1 m 3 in
  let lim := limitOf m 4 in
  rowsOf c (withLimit (eq (from_select tableName (lit "*")) column (JStr value))
                      lim).

Definition whereNumBranch (c : client) (m : match_result) : M json :=
  let tableName := group1 m 1 in
  let column := group1 m 2 in
  let value := parseInt (group1 m 3) in
  let lim := limitOf m 4 in
  rowsOf c (withLimit (eq (from_select tableName (lit "*")) column (JNum value))
                      lim).

Definition selectColumnsBranch (c : client) (m : match_result) : M json :=
  let cols := trim (group1 m 1) in
  let tableName := group1 m 2 in
  let lim := limitOf m 3 in
  rowsOf c (withLimit (from_select tableName cols) lim).

Definition groupByBranch (c : client) (m : match_result) : M json :=
  let groupColumn := group1 m 1 in
  let countAlias := orCount (group m 2) in
  let tableName := group1 m 3 in
  resp <- run_query c (from_select tableName groupColumn) ;;
  match error resp with
  | Some e => throw e
  | None =>
      match data resp with
      | Some rows =>
          ret (JArr (groupedToRows groupColumn countAlias
                                   (groupRows groupColumn rows)))
      | None => throw msgForEachOfNull
      end
  end.

Definition basicSelectBranch (c : client) (m : match_result) : M json :=
  let tableName := group1 m 1 in
  rowsOf c (from_select tableName (lit "*")).

Definition unsupportedBranch (query : str) : M json :=
  (unsupportedWarnings, Throw (msgUnsupported query)).

(** The tail of the function, from the group-count test on. *)
Definition fromGroupBy (query lowerQuery : str) (c : client) : M json :=
  let lastResort :=
    match js_match Patterns.basicSelect lowerQuery with
    | Some m => basicSelectBranch c m
    | None => unsupportedBranch query
    end in
  match js_match Patterns.groupBy lowerQuery with
  | Some m =>
      if str_eqb (group1 m 1) (group1 m 4) then groupByBranch c m
      else lastResort
  | None => lastResort
  end.

Definition parseAndExecuteQuery (query : str) (c : client) : M json :=
  let lowerQuery := trim (toLowerCase query) in
  match js_match Patterns.simpleSelect lowerQuery with
  | Some m => simpleSelectBranch c m
  | None =>
  match js_match Patterns.countAll lowerQuery with
  | Some m => countBranch c m
  | None =>
  match js_match Patterns.whereString lowerQuery with
  | Some m => whereStringBranch c m
  | None =>
  match js_match Patterns.whereNum lowerQuery with
  | Some m => whereNumBranch c m
  | None =>
  match js_match Patterns.selectColumns lowerQuery with
  | Some m => selectColumnsBranch c m
  | None => fromGroupBy query lowerQuery c
  end end end end end.

(** *** [executeViaSupabaseRPC] *)

Definition msgExecutionFailed (message : str) : str :=
  lit "Query execution failed: " ++ message.

(** [Array.isArray(data) ? data : (data ? [data] : [])] *)
Definition asArray (d : json) : json :=
  match d with
  | JArr _ => d
  | _ => if truthy d then JArr [d] else JArr []
  end.

Definition executeViaSupabaseRPC (query : str) (c : client) : M json :=
  try_catch
    (let cleanedQuery :=
       remove_first Patterns.trailingSemicolons (trim query) in
     try_catch
       (resp <- call_rpc c (lit "execute_sql") cleanedQuery ;;
        match rpc_error resp with
        | Some message =>
            if includes message (lit "function")
               && includes message (lit "does not exist")
            then throw RPC_NOT_AVAILABLE
            else if includes message (lit "syntax error")
            then throw RPC_SYNTAX_ERROR
            else throw message
        | None => ret (asArray (rpc_data resp))
        end)
       (fun rpcError =>
          if str_eqb rpcError RPC_NOT_AVAILABLE
             || str_eqb rpcError RPC_SYNTAX_ERROR
             || includes rpcError (lit "function")
             || includes rpcError (lit "does not exist")
             || includes rpcError (lit "syntax error")
          then parseAndExecuteQuery query c
          else throw rpcError))
    (fun message => throw (msgExecutionFailed message)).

(** *** [executeDbQuery] *)

Definition forbidden : list string :=
  ["delete"; "update"; "insert"; "drop"; "alter"; "create"; "truncate"]%string.

Definition executeDbQuery (generatedQuery : str)
           (supabaseClient : option client) : M json :=
  let trimmedQuery := trim generatedQuery in
  let trimmedQuery :=
    trim (remove_first Patterns.trailingSemicolons trimmedQuery) in
  let lowerCaseQuery := toLowerCase trimmedQuery in
  if negb (startsWith lowerCaseQuery (lit "select"))
  then throw msgNotSelect
  else if existsb (fun w => includes lowerCaseQuery (lit w)) forbidden
  then throw msgForbidden
  else if includes trimmedQuery (lit ";")
          && (1 <? length (filter (fun s => truthy (JStr (trim s)))
                                  (split ";" trimmedQuery)))
  then throw msgMultiple
  else
    match supabaseClient with
    | None => throw msgNoClient
    | Some c => executeViaSupabaseRPC trimmedQuery c
    end.

End DbHelpers.

(** The gate of [handleNaturalLanguageQuery]
    ([controllers/naturalQueryController.js]) on the generated text, and
    its call of [executeDbQuery]. *)
Module Controller.

Definition msgDangerous : str :=
  lit "SQL query is invalid or dangerous (non-SELECT or contains DML/DDL).".

Definition blockedWords : list string :=
  ["drop"; "alter"; "delete"; "insert"; "update"; "truncate"]%string.

Definition executeGenerated (cleanedQuery : str)
           (supabaseClient : option client) : M json :=
  let q := toLowerCase cleanedQuery in
  if negb (startsWith q (lit "select"))
     || existsb (fun w => includes q (lit w)) blockedWords
  then throw msgDangerous
  else DbHelpers.executeDbQuery cleanedQuery supabaseClient.

End Controller.

Import DbHelpers.

(** ** Definitions used by the statements *)

Module Lang.

(** The texts an expression matches and the groups it captures,
    independently of the search order: [matches r pos s post cin cout]
    says that [r] matches [s] at index [pos] when [post] follows, and
    turns the captures [cin] into [cout]. *)
Definition captures := list (nat * str).

Inductive star_of (P : nat -> str -> str -> captures -> captures -> Prop)
  : nat -> str -> str -> captures -> captures -> Prop :=
| star_done : forall pos post cs, star_of P pos [] post cs cs
| star_more : forall pos s1 s2 post c0 c1 c2,
    P pos s1 (s2 ++ post) c0 c1 ->
    star_of P (pos + length s1) s2 post c1 c2 ->
    star_of P pos (s1 ++ s2) post c0 c2.

Fixpoint matches (r : regex) (pos : nat) (s post : str)
         (cin cout : captures) : Prop :=
  match r with
  | Eps => s = [] /\ cout = cin
  | Cls p => (exists x, s = [x] /\ p x = true) /\ cout = cin
  | Seq a b =>
      exists s1 s2 cm, s = s1 ++ s2
        /\ matches a pos s1 (s2 ++ post) cin cm
        /\ matches b (pos + length s1) s2 post cm cout
  | Alt a b => matches a pos s post cin cout \/ matches b pos s post cin cout
  | Star a => star_of (matches a) pos s post cin cout
  | Grp i a => exists cm, matches a pos s post cin cm /\ cout = (i, s) :: cm
  | Bol => s = [] /\ pos = 0 /\ cout = cin
  | Eol => s = [] /\ post = [] /\ cout = cin
  end.

(** A matcher step is sound for a set of texts when each of its
    successes consumes one of them and resumes after it. *)
Definition sound_step
           (P : nat -> str -> str -> captures -> captures -> Prop)
           (step : mstate -> cont -> option mstate) : Prop :=
  forall st k res, step st k = Some res ->
    exists s post cs,
      rest st = s ++ post /\ P (pos st) s post (caps st) cs
      /\ k (MState (pos st + length s) post cs) = Some res.

(** A continuation that succeeds at a given point of the input, whatever
    has been captured. *)
Definition total_on (k : cont) (p : nat) (post : str) : Prop :=
  forall cs, k (MState p post cs) <> None.

(** What follows the leading keyword and the whitespace after it. *)
Definition afterKeyword (s : str) : str := trimStart (skipn 6 s).

Fixpoint dropWord (l : str) : str :=
  match l with
  | c :: l' => if is_word c then dropWord l' else l
  | [] => []
  end.

(** The code unit in front of the whitespace that precedes the last
    word of a text. *)
Definition beforeLastWord (s : str) : option ascii :=
  hd_error (trimStart (dropWord (rev s))).

End Lang.

(** The statements of the specification, in its words. *)
Module Spec.

(** The text the validator works on: trimmed, trailing terminators
    stripped, trimmed again. *)
Definition cleaned (rawText : str) : str :=
  trim (remove_first Patterns.trailingSemicolons (trim rawText)).

(** A keyword occurs as a whole word: no word character on either side. *)
Fixpoint wholeWordFrom (prevIsWord : bool) (s w : str) : bool :=
  (negb prevIsWord && startsWith s w
   && match skipn (length w) s with
      | c :: _ => negb (is_word c)
      | [] => true
      end)
  || match s with
     | c :: s' => wholeWordFrom (is_word c) s' w
     | [] => false
     end.

Definition wholeWord (s w : str) : bool := wholeWordFrom false s w.

(** The seven query shapes, in the priority order of the specification. *)
Inductive shape : Type :=
| SelectAll        (* 1: select-all with optional limit *)
| CountAll         (* 2: count-all with optional alias *)
| WhereString      (* 3: select-all with a string-equality predicate *)
| WhereNum         (* 4: select-all with a numeric-equality predicate *)
| ColumnList       (* 5: explicit column list *)
| GroupCount       (* 6: same-column group-count *)
| LooseSelect.     (* 7: loose select-all *)

Definition priority : list shape :=
  [SelectAll; CountAll; WhereString; WhereNum; ColumnList; GroupCount;
   LooseSelect].

(** The test that the source makes for a shape on the cleaned,
    lower-cased text: its regular expression and, for the group-count
    shape, the comparison of the two columns. *)
Definition recognize (sh : shape) (text : str) : option match_result :=
  match sh with
  | SelectAll => js_match Patterns.simpleSelect text
  | CountAll => js_match Patterns.countAll text
  | WhereString => js_match Patterns.whereString text
  | WhereNum => js_match Patterns.whereNum text
  | ColumnList => js_match Patterns.selectColumns text
  | GroupCount =>
      match js_match Patterns.groupBy text with
      | Some m => if str_eqb (group1 m 1) (group1 m 4) then Some m else None
      | None => None
      end
  | LooseSelect => js_match Patterns.basicSelect text
  end.

(** The branch of the source that a shape takes with its captures. *)
Definition issue (sh : shape) (c : client) (m : match_result) : M json :=
  match sh with
  | SelectAll => simpleSelectBranch c m
  | CountAll => countBranch c m
  | WhereString => whereStringBranch c m
  | WhereNum => whereNumBranch c m
  | ColumnList => selectColumnsBranch c m
  | GroupCount => groupByBranch c m
  | LooseSelect => basicSelectBranch c m
  end.

(** First match wins: a later shape is looked at only when every earlier
    one has failed. *)
Fixpoint firstMatch (shapes : list shape) (text : str)
  : option (shape * match_result) :=
  match shapes with
  | [] => None
  | sh :: later =>
      match recognize sh text with
      | Some m => Some (sh, m)
      | None => firstMatch later text
      end
  end.

Definition translateByPriority (shapes : list shape) (query : str)
           (c : client) : M json :=
  match firstMatch shapes (trim (toLowerCase query)) with
  | Some (sh, m) => issue sh c m
  | None => unsupportedBranch query
  end.

(** Whitespace, possibly none; whitespace, at least some; a word. *)
Definition blank (w : str) : Prop := forallb is_space w = true.
Definition gap (w : str) : Prop := w <> [] /\ blank w.
Definition wordText (t : str) : Prop := t <> [] /\ forallb is_word t = true.

(** An optional terminator at the end of a text. *)
Definition closing (semi : str) : Prop :=
  semi = [] \/ exists w, blank w /\ semi = w ++ lit ";".

(** The count-all shape: select, count of all rows, an optional alias
    introduced by [as], [from] and the table. *)
Definition countAllText (s : str) (alias : option str) (table : str) : Prop :=
  exists w1 w2 mid w3 semi,
    s = lit "select" ++ w1 ++ lit "count(*)" ++ w2 ++ mid
        ++ lit "from" ++ w3 ++ table ++ semi
    /\ gap w1 /\ blank w2 /\ gap w3 /\ wordText table /\ closing semi
    /\ match alias with
       | None => mid = []
       | Some a =>
           exists w4 w5, mid = lit "as" ++ w4 ++ a ++ w5
                         /\ gap w4 /\ gap w5 /\ wordText a
       end.

(** The group-count shape: select, a column, a comma, count of all
    rows, an optional alias introduced by [as], [from] and the table,
    [group by] and a column. *)
Definition groupCountText (s : str) (col : str) (alias : option str)
           (table col' : str) : Prop :=
  exists w1 w2 w3 mid w4 w5 w6 w7 w8,
    s = lit "select" ++ w1 ++ col ++ lit "," ++ w2 ++ lit "count(*)" ++ w3
        ++ mid ++ w4 ++ lit "from" ++ w5 ++ table ++ w6 ++ lit "group"
        ++ w7 ++ lit "by" ++ w8 ++ col'
    /\ gap w1 /\ blank w2 /\ blank w3 /\ gap w4 /\ gap w5 /\ gap w6
    /\ gap w7 /\ gap w8
    /\ wordText col /\ wordText table /\ wordText col'
    /\ match alias with
       | None => mid = []
       | Some a => exists w9, mid = lit "as" ++ w9 ++ a /\ gap w9 /\ wordText a
       end.

(** The loose shape: somewhere [select], later on the same line [*],
    later on the same line [from] and a word. *)
Definition looseSelectText (s : str) (table : str) : Prop :=
  exists pre d1 d2 w post,
    s = pre ++ lit "select" ++ d1 ++ lit "*" ++ d2 ++ lit "from" ++ w
        ++ table ++ post
    /\ forallb is_dot d1 = true /\ forallb is_dot d2 = true
    /\ gap w /\ wordText table.

(** A message enumerates the supported shapes when each of them occurs
    in it. *)
Definition shapeTexts : list string :=
  ["SELECT * FROM table"; "SELECT columns FROM table";
   "SELECT COUNT(*) FROM table";
   "SELECT * FROM table WHERE column = value";
   "SELECT column, COUNT(*) FROM table GROUP BY column"]%string.

Definition enumeratesShapes (message : str) : bool :=
  forallb (fun p => includes message (lit p)) shapeTexts.

Definition mentionsAShape (message : str) : bool :=
  existsb (fun p => includes message (lit p)) shapeTexts.

(** The generic path failed for want of the capability, or on syntax. *)
Definition capabilityAbsent (message : str) : bool :=
  includes message (lit "function") && includes message (lit "does not exist").

Definition syntaxError (message : str) : bool :=
  includes message (lit "syntax error").

(** A text has content after an internal terminator: something that is
    neither whitespace nor a terminator follows a [;]. *)
Definition isContent (c : ascii) : bool :=
  negb (is_space c) && negb (char_eqb c ";").

Definition secondStatement (text : str) : Prop :=
  exists pre post, text = pre ++ lit ";" ++ post /\ existsb isContent post = true.

(** A segment that [filter(s => s.trim())] keeps. *)
Definition nonBlank (seg : str) : bool := truthy (JStr (trim seg)).

(** The text handed to the RPC function:
    [query.trim().replace(/;+$/, '')]. *)
Definition sentToRpc (query : str) : str :=
  remove_first Patterns.trailingSemicolons (trim query).

Definition genericCall (query : str) : event :=
  RpcCall (lit "execute_sql") (sentToRpc query).

(** What the outer handler of the dispatcher makes of an outcome. *)
Definition surfaced (r : outcome json) : outcome json :=
  match r with
  | Return v => Return v
  | Throw message => Throw (msgExecutionFailed message)
  end.

Definition rpcCalls (t : list event) : list event :=
  filter (fun e => match e with RpcCall _ _ => true | _ => false end) t.

Definition queryCalls (t : list event) : list event :=
  filter (fun e => match e with QueryCall _ => true | _ => false end) t.

(** The answer of an awaited builder, as the branches that return rows
    read it: [if (error) throw error; return data || []]. *)
Definition answerOf (resp : query_response) : outcome json :=
  match error resp with
  | Some e => Throw e
  | None =>
      Return (match data resp with
              | Some rows => JArr (map JObj rows)
              | None => JArr []
              end)
  end.

End Spec.

(** Backends used by the examples. *)
Module Samples.

Definition products : list obj :=
  [[(lit "category", JStr (lit "tools")); (lit "price", JNum 100)];
   [(lit "category", JStr (lit "toys")); (lit "price", JNum 250)];
   [(lit "category", JStr (lit "tools")); (lit "price", JNum 100)]].

Definition project (column : str) (row : obj) : obj :=
  match own row column with
  | Some v => [(column, v)]
  | None => []
  end.

(** The rows a limit lets through: as many as its integer part says. *)
Definition limited (b : builder) (rows : list obj) : list obj :=
  match row_limit b with
  | Some (S754_finite false m e) =>
      let n := Z.shiftl (Zpos m) e in
      if (Z.of_nat (length rows) <=? n)%Z then rows
      else firstn (Z.to_nat n) rows
  | Some (S754_infinity false) | None => rows
  | Some _ => []
  end.

(** A store with one table of three rows; it honours a limit. *)
Definition store (b : builder) : query_response :=
  if head_count b then QueryResponse None None (Some 3%Z)
  else if str_eqb (columns b) (lit "*")
       then QueryResponse (Some (limited b products)) None None
  else QueryResponse (Some (limited b (map (project (columns b)) products)))
                     None None.

(** The RPC function is not installed. *)
Definition withoutRpc : client :=
  Client (fun _ _ =>
            RpcResponse JNull
              (Some (lit "function public.execute_sql(sql_query => text) does not exist")))
         store.

(** The RPC function is installed and answers with the table. *)
Definition withRpc : client :=
  Client (fun _ _ => RpcResponse (JArr (map JObj products)) None) store.

(** The double nearest to the fraction [a / b]. *)
Definition decimal (a b : Z) : number := SFdiv prec emax (ofZ a) (ofZ b).

(** A backend without the RPC function, whose table of users has a row
    without a city and a row whose city is spelt [null], and whose
    products have decimal prices. *)
Definition grouping : client :=
  Client (fun _ _ =>
            RpcResponse JNull
              (Some (lit "function public.execute_sql(sql_query => text) does not exist")))
         (fun b =>
            if str_eqb (table b) (lit "users")
            then QueryResponse
                   (Some [[(lit "city", JNull)];
                          [(lit "city", JStr (lit "chicago"))];
                          [(lit "city", JStr (lit "null"))];
                          [(lit "city", JStr (lit "chicago"))]])
                   None None
            else QueryResponse
                   (Some [[(lit "price", JNum (decimal 1999 100))];
                          [(lit "price", JNum 250)];
                          [(lit "price", JNum (decimal 1999 100))]])
                   None None).

(** The RPC function is installed and reports a missing relation. *)
Definition missingRelation : client :=
  Client (fun _ _ =>
            RpcResponse JNull (Some (lit "relation public.orders does not exist")))
         (fun _ => QueryResponse None
                     (Some (lit "Could not find the table public.orders"))
                     None).

(** The RPC function is installed and refuses the request. *)
Definition denying : client :=
  Client (fun _ _ =>
            RpcResponse JNull (Some (lit "permission denied for table products")))
         store.

End Samples.

Import Lang Spec.

(** ** Definitions used by the further properties *)

Module Props.

(** The test of the inner handler of [executeViaSupabaseRPC], as a
    function of the message the RPC call failed with. *)
Definition fallsBack (message : str) : bool :=
  capabilityAbsent message || syntaxError message
  || str_eqb message RPC_NOT_AVAILABLE || str_eqb message RPC_SYNTAX_ERROR
  || includes message (lit "function")
  || includes message (lit "does not exist").

Definition isArray (v : json) : bool :=
  match v with JArr _ => true | _ => false end.

(** An optional limit clause: whitespace, [limit], whitespace, digits. *)
Definition limitClause (digits : option str) (t : str) : Prop :=
  match digits with
  | None => t = []
  | Some d =>
      exists w1 w2, t = w1 ++ lit "limit" ++ w2 ++ d
                    /\ gap w1 /\ gap w2
                    /\ d <> [] /\ forallb is_digit d = true
  end.

(** The limit a request gets for the digits of a limit clause: none for
    a clause that says zero. *)
Definition requestedLimit (digits : option str) : option number :=
  match digits with
  | Some d => if toBoolean (parseInt d) then Some (parseInt d) else None
  | None => None
  end.

(** The select-all shape. *)
Definition selectAllText (s table : str) (digits : option str) : Prop :=
  exists w1 w2 w3 lim semi,
    s = lit "select" ++ w1 ++ lit "*" ++ w2 ++ lit "from" ++ w3 ++ table
        ++ lim ++ semi
    /\ gap w1 /\ gap w2 /\ gap w3 /\ wordText table
    /\ limitClause digits lim /\ closing semi.

(** The select-all shape with an equality test; [literal] is what
    stands right of the equals sign. *)
Definition whereText (s table column literal : str) (digits : option str)
  : Prop :=
  exists w1 w2 w3 w4 w5 w6 w7 lim semi,
    s = lit "select" ++ w1 ++ lit "*" ++ w2 ++ lit "from" ++ w3 ++ table
        ++ w4 ++ lit "where" ++ w5 ++ column ++ w6 ++ lit "=" ++ w7
        ++ literal ++ lim ++ semi
    /\ gap w1 /\ gap w2 /\ gap w3 /\ gap w4 /\ gap w5 /\ blank w6 /\ blank w7
    /\ wordText table /\ wordText column
    /\ limitClause digits lim /\ closing semi.

Definition quoted (value : str) : str := lit "'" ++ value ++ lit "'".

Definition noQuote (value : str) : Prop :=
  value <> [] /\ ~ In "'"%char value.

Definition digitsText (d : str) : Prop :=
  d <> [] /\ forallb is_digit d = true.

(** One of the letters of the class [[^from]]. *)
Definition fromLetter (x : ascii) : bool := existsb (char_eqb x) (lit "from").

(** The column-list shape: the column text starts with anything but a
    star and goes on with at least one more character, none of them one
    of the letters f, r, o, m. *)
Definition columnListText (s cols table : str) (digits : option str) : Prop :=
  exists w1 x more w2 w3 lim semi,
    s = lit "select" ++ w1 ++ cols ++ w2 ++ lit "from" ++ w3 ++ table
        ++ lim ++ semi
    /\ cols = x :: more /\ x <> "*"%char /\ more <> []
    /\ forallb (fun y => negb (fromLetter y)) more = true
    /\ gap w1 /\ gap w2 /\ gap w3 /\ wordText table
    /\ limitClause digits lim /\ closing semi.


(** A text that lower-casing leaves as it is. *)
Definition lowered (s : str) : Prop := toLowerCase s = s.

(** A text at whose start a run of the class [p] cannot go on. *)
Definition stops (p : ascii -> bool) (r : str) : Prop :=
  match r with
  | [] => True
  | x :: _ => p x = false
  end.

(** The name of the count field: the alias, or [count]. *)
Definition countName (alias : option str) : str :=
  match alias with
  | Some a => a
  | None => lit "count"
  end.

(** A text that occurs inside another. *)
Definition part (v s : str) : Prop := exists a b, s = a ++ v ++ b.

End Props.

Import Props.

(** ** Result formatting: [utils/dataFormatter.js] *)

Module Json.

Definition nl : str := ["010"%char].

Definition hex_digit (n : N) : ascii :=
  if (n <? 10)%N then ascii_of_N (48 + n) else ascii_of_N (87 + n).

(** The escape of one code unit inside a JSON string. *)
Definition quote_char (x : ascii) : str :=
  let n := code x in
  if (n =? 8)%N then lit "\b"
  else if (n =? 9)%N then lit "\t"
  else if (n =? 10)%N then lit "\n"
  else if (n =? 12)%N then lit "\f"
  else if (n =? 13)%N then lit "\r"
  else if (n =? 34)%N then lit "\" ++ dq
  else if (n =? 92)%N then lit "\\"
  else if (n <? 32)%N
       then lit "\u00" ++ [hex_digit (n / 16); hex_digit (n mod 16)]
  else [x].

Definition quote (s : str) : str := dq ++ flat_map quote_char s ++ dq.

(** [JSON.stringify(v)] *)
Fixpoint stringify (v : json) : str :=
  match v with
  | JNull => lit "null"
  | JBool true => lit "true"
  | JBool false => lit "false"
  | JNum x => if isFinite x then toString x else lit "null"
  | JStr s => quote s
  | JArr items =>
      lit "["
      ++ (fix elements (l : list json) : str :=
            match l with
            | [] => []
            | x :: l' =>
                stringify x
                ++ match l' with [] => [] | _ :: _ => lit "," ++ elements l' end
            end) items
      ++ lit "]"
  | JObj fields =>
      lit "{"
      ++ (fix members (l : list (str * json)) : str :=
            match l with
            | [] => []
            | (k, x) :: l' =>
                quote k ++ lit ":" ++ stringify x
                ++ match l' with [] => [] | _ :: _ => lit "," ++ members l' end
            end) fields
      ++ lit "}"
  end.

(** [l.join(sep)] for an array of strings. *)
Fixpoint join (sep : str) (l : list str) : str :=
  match l with
  | [] => []
  | [x] => x
  | x :: l' => x ++ sep ++ join sep l'
  end.

(** The own enumerable properties of an array or of a string: its
    indices, in order. *)
Fixpoint indexedFrom (i : Z) (items : list json) : obj :=
  match items with
  | [] => []
  | x :: items' => (of_Z i, x) :: indexedFrom (i + 1) items'
  end.

(** [{ ...v }] and [Object.entries(v)]: the own enumerable properties of
    a value, in order. *)
Definition spread (v : json) : obj :=
  match v with
  | JObj o => o
  | JArr items => indexedFrom 0 items
  | JStr s => indexedFrom 0 (map (fun x => JStr [x]) s)
  | JNull | JBool _ | JNum _ => []
  end.

End Json.

Import Json.

Module DataFormatter.

Definition maskValue : json := JStr (lit "***").

Definition msgNotAFunction : str :=
  lit "masked.hasOwnProperty is not a function".

(** One round of [fieldsToMask.forEach(field => ...)] on [masked]. *)
Definition maskField (masked : obj) (field : str) : outcome obj :=
  match own masked (lit "hasOwnProperty") with
  | Some _ => Throw msgNotAFunction
  | None =>
      match own masked field with
      | Some _ => Return (replace_own field maskValue masked)
      | None => Return masked
      end
  end.

Fixpoint maskFields (fieldsToMask : list str) (masked : obj) : outcome obj :=
  match fieldsToMask with
  | [] => Return masked
  | field :: fields' =>
      match maskField masked field with
      | Return masked' => maskFields fields' masked'
      | Throw e => Throw e
      end
  end.

Definition maskObject (fieldsToMask : list str) (row : json) : outcome obj :=
  maskFields fieldsToMask (spread row).

(** [data.map(maskObject)] *)
Fixpoint maskRows (fieldsToMask : list str) (rows : list json)
  : outcome (list json) :=
  match rows with
  | [] => Return []
  | row :: rows' =>
      match maskObject fieldsToMask row with
      | Throw e => Throw e
      | Return masked =>
          match maskRows fieldsToMask rows' with
          | Throw e => Throw e
          | Return done => Return (JObj masked :: done)
          end
      end
  end.

Definition maskSensitiveFields (data : json) (fieldsToMask : list str)
  : outcome json :=
  match data with
  | JArr rows =>
      match maskRows fieldsToMask rows with
      | Return masked => Return (JArr masked)
      | Throw e => Throw e
      end
  | JObj _ =>
      match maskObject fieldsToMask data with
      | Return masked => Return (JObj masked)
      | Throw e => Throw e
      end
  | JNull | JBool _ | JNum _ | JStr _ => Return data
  end.

Definition msgNoData : str := lit "No data found for your query.".

(** [r?._doc || r] *)
Definition docOf (r : json) : json :=
  match r with
  | JObj o =>
      match own o (lit "_doc") with
      | Some d => if truthy d then d else r
      | None => r
      end
  | _ => r
  end.

(** The line of one property of a record. *)
Definition renderValue (key : str) (value : json) : str :=
  match value with
  | JArr items =>
      lit "  " ++ key ++ lit ": [Array with "
      ++ of_Z (Z.of_nat (length items)) ++ lit " items]" ++ nl
  | JObj _ => lit "  " ++ key ++ lit ": {Object}" ++ nl
  | JNull | JBool _ | JNum _ | JStr _ =>
      lit "  " ++ key ++ lit ": " ++ to_string value ++ nl
  end.

Definition renderProperties (row : obj) : str :=
  flat_map (fun '(key, value) =>
              if negb (str_eqb key (lit "_id")) && negb (str_eqb key (lit "__v"))
              then renderValue key value
              else [])
           row.

(** The text [maskedRecords.forEach((row, i) => ...)] adds for the
    records from index [i] on. *)
Fixpoint renderRecords (i : Z) (records : list json) : str :=
  match records with
  | [] => []
  | row :: records' =>
      lit "Record " ++ of_Z (i + 1) ++ lit ":" ++ nl
      ++ renderProperties (spread row) ++ nl
      ++ renderRecords (i + 1) records'
  end.

Definition MAX_LENGTH : nat := 2000.

Definition truncated (summary : str) : str :=
  if MAX_LENGTH <? length summary
  then firstn MAX_LENGTH summary ++ nl ++ lit "... (truncated)"
  else summary.

(** The summary of an array of records. *)
Definition summarize (records : list json) (fieldsToMask : list str)
  : outcome str :=
  let maskedData := map (fun r => JObj (spread (docOf r))) records in
  match maskRows fieldsToMask maskedData with
  | Throw e => Throw e
  | Return maskedRecords =>
      match maskedRecords with
      | [] => Return msgNoData
      | _ :: _ =>
          Return (truncated
                    (lit "Found " ++ of_Z (Z.of_nat (length maskedRecords))
                     ++ lit " record(s):" ++ nl ++ nl
                     ++ renderRecords 0 maskedRecords))
      end
  end.

(** One line of the details of a write result. *)
Definition detailLine (entry : str * json) : str :=
  let (key, val) := entry in
  lit "    " ++ key ++ lit ": "
  ++ match val with
     | JNull | JArr _ | JObj _ => stringify val
     | JBool _ | JNum _ | JStr _ => to_string val
     end.

Definition property (o : obj) (k : string) : json :=
  match own o (lit k) with Some v => v | None => JNull end.

(** [formatResultsSummary(results, { maskFields })] for a result that
    is a JSON value. *)
Definition formatResultsSummary (results : json) (fieldsToMask : list str)
  : outcome str :=
  match results with
  | JNull => Return msgNoData
  | JNum n => Return (lit "Query returned a count: " ++ toString n)
  | JObj o =>
      if truthy (property o "message") && truthy (property o "details")
      then
        let detailString :=
          join nl (map detailLine (spread (property o "details"))) in
        Return (to_string (property o "message") ++ nl ++ lit "Details:" ++ nl
                ++ detailString)
      else summarize [results] fieldsToMask
  | JArr records => summarize records fieldsToMask
  | JBool _ | JStr _ => summarize [results] fieldsToMask
  end.

End DataFormatter.

Import DataFormatter.

Module FormatProps.

(** A key that the list of fields to mask names. *)
Definition masks (fields : list str) (key : str) : bool :=
  existsb (str_eqb key) fields.

(** A row with the value of every named field replaced. *)
Definition maskedRow (fields : list str) (row : obj) : obj :=
  map (fun '(key, value) =>
         (key, if masks fields key then maskValue else value)) row.

(** One round of the masking loop on a row that has no column named
    [hasOwnProperty]. *)
Definition maskStep (masked : obj) (field : str) : obj :=
  match own masked field with
  | Some _ => replace_own field maskValue masked
  | None => masked
  end.

(** A row whose keys are distinct and which has no column named
    [hasOwnProperty]. *)
Definition plainRow (row : obj) : Prop :=
  NoDup (map fst row) /\ own row (lit "hasOwnProperty") = None.

Definition ownsHasOwnProperty (row : json) : Prop :=
  own (spread row) (lit "hasOwnProperty") <> None.

(** Two rows with the same keys that differ at most in the values of
    the named fields. *)
Definition sameOutside (fields : list str) (r1 r2 : obj) : Prop :=
  Forall2 (fun e1 e2 =>
             fst e1 = fst e2
             /\ (masks fields (fst e1) = false -> snd e1 = snd e2)) r1 r2.

(** A row whose keys are distinct and which has no [_doc] property. *)
Definition plainRecord (row : obj) : Prop :=
  NoDup (map fst row) /\ own row (lit "_doc") = None.

End FormatProps.

Import FormatProps.

(** ** Cleaning the reply of the model: [cleanMarkdownResponse] *)

Module AiHelpers.

(** Lazy iteration, [a*?]: the continuation first, one more round of
    [step] second.  A round that consumes nothing is refused. *)
Fixpoint lazy_loop (step : mstate -> cont -> option mstate)
         (fuel : nat) (st : mstate) (k : cont) : option mstate :=
  match k st with
  | Some r => Some r
  | None =>
      match fuel with
      | O => None
      | S fuel' =>
          step st (fun st' =>
                     if length (rest st') <? length (rest st)
                     then lazy_loop step fuel' st' k
                     else None)
      end
  end.

(** [[\s\S]] *)
Definition any : regex := Cls (fun _ => true).

(** [[\r\n]] *)
Definition is_crlf (x : ascii) : bool :=
  let n := code x in ((n =? 13) || (n =? 10))%N.

(** A lower-case letter under the flag [i]. *)
Definition letter_ci (x : ascii) : regex :=
  Cls (fun y => char_eqb (lower_char y) x).

(** The part [```(?:json)?[\r\n]+] of the expression, under the flag [i]. *)
Definition codeBlockHead : regex :=
  cat [text "```"; opt (cat (map letter_ci (lit "json"))); plus (Cls is_crlf)].

(** [/```(?:json)?[\r\n]+([\s\S]*?)```/i] at a start index: the head,
    then the lazily iterated group 1, then the closing fence. *)
Definition codeBlockExec (idx : nat) (s : str) : option mstate :=
  run codeBlockHead (MState idx s [])
    (fun st1 =>
       lazy_loop (run any) (S (length (rest st1))) st1
         (fun st2 =>
            run (text "```")
                (MState (pos st2) (rest st2)
                        ((1, firstn (pos st2 - pos st1) (rest st1))
                           :: caps st2))
                Some)).

(** The leftmost start index at which a matcher succeeds. *)
Fixpoint searchWith (exec : nat -> str -> option mstate) (idx : nat) (s : str)
  : option (nat * mstate) :=
  match exec idx s with
  | Some st => Some (idx, st)
  | None =>
      match s with
      | [] => None
      | _ :: s' => searchWith exec (S idx) s'
      end
  end.

(** [text.match(codeBlockRegex)] *)
Definition codeBlockMatch (s : str) : option match_result :=
  match searchWith codeBlockExec 0 s with
  | Some (idx, st) =>
      Some (MatchResult idx (firstn (pos st - idx) (skipn idx s)) (caps st))
  | None => None
  end.

(** [s.indexOf(x)] *)
Fixpoint indexOf (x : ascii) (s : str) : option nat :=
  match s with
  | [] => None
  | y :: s' =>
      if char_eqb y x then Some 0
      else match indexOf x s' with Some i => Some (S i) | None => None end
  end.

Definition dquote : ascii := "034"%char.
Definition backslash : ascii := "\"%char.

(** The loop over the candidate from index [i] on; it answers with the
    value of [end] when it breaks, and with nothing when it runs to the
    end of the text. *)
Fixpoint scanObject (chars : str) (i : nat) (depth : Z)
         (inString escape : bool) : option nat :=
  match chars with
  | [] => None
  | char :: chars' =>
      if inString then
        if escape then scanObject chars' (S i) depth inString false
        else if char_eqb char backslash
             then scanObject chars' (S i) depth inString true
        else if char_eqb char dquote
             then scanObject chars' (S i) depth false escape
        else scanObject chars' (S i) depth inString escape
      else
        if char_eqb char dquote
        then scanObject chars' (S i) depth true escape
        else if char_eqb char "{"
             then scanObject chars' (S i) (depth + 1) inString escape
        else if char_eqb char "}"
             then if (depth - 1 =? 0)%Z then Some (i + 1)
                  else scanObject chars' (S i) (depth - 1) inString escape
        else scanObject chars' (S i) depth inString escape
  end.

(** The second half of the function: the first JSON object of the
    candidate, or the candidate. *)
Definition firstObject (candidate : str) : str :=
  match indexOf "{" candidate with
  | None => candidate
  | Some firstBrace =>
      match scanObject (skipn firstBrace candidate) firstBrace 0 false false with
      | Some e => firstn (e - firstBrace) (skipn firstBrace candidate)
      | None => candidate
      end
  end.

Definition cleanMarkdownResponse (text : str) : str :=
  let candidate :=
    match codeBlockMatch text with
    | Some m =>
        match group m 1 with
        | Some (x :: block) => trim (x :: block)
        | _ => trim text
        end
    | None => trim text
    end in
  firstObject candidate.

End AiHelpers.

Import AiHelpers.

Module ReplyProps.

(** The label of a fence that the expression accepts: none, or [json]
    in any letter case. *)
Definition jsonLabel (tag : str) : Prop :=
  tag = [] \/ toLowerCase tag = lit "json".

(** A run of line breaks, at least one. *)
Definition lineBreaks (w : str) : Prop :=
  w <> [] /\ forallb is_crlf w = true.

End ReplyProps.

Import ReplyProps.

(** ** From the reply of the model to the query: [handleNaturalLanguageQuery] *)

Module NaturalQuery.

(** The class [[\x20-\x7E\t\n\r]]: what [replace(/[^\x20-\x7E\t\n\r]/g, '')]
    keeps. *)
Definition printable (x : ascii) : bool :=
  let n := code x in
  ((32 <=? n) && (n <=? 126) || (n =? 9) || (n =? 10) || (n =? 13))%N.

(** [cleanMarkdownResponse(aiResponseRaw).replace(...).trim()] *)
Definition cleanedQuery (aiResponseRaw : str) : str :=
  trim (filter printable (cleanMarkdownResponse aiResponseRaw)).

(** The test of the controller on the cleaned reply, and step 2. *)
Definition executeReply (aiResponseRaw : str) (supabaseClient : option client)
  : M json :=
  Controller.executeGenerated (cleanedQuery aiResponseRaw) supabaseClient.

(** Whitespace or a semicolon. *)
Definition separator (x : ascii) : bool := is_space x || char_eqb x ";".

End NaturalQuery.

Import NaturalQuery.

(** ** The prompts: [utils/aiPrompts.js] *)

Module AiPrompts.

Definition gap2 : str := lit "  ".

(** [JSON.stringify(v, null, 2)] at the indentation [indent]. *)
Fixpoint stringifyIndented (indent : str) (v : json) : str :=
  match v with
  | JNull | JBool _ | JNum _ | JStr _ => stringify v
  | JArr [] => lit "[]"
  | JArr items =>
      lit "[" ++ nl ++ indent ++ gap2
      ++ (fix elements (l : list json) : str :=
            match l with
            | [] => []
            | x :: l' =>
                stringifyIndented (indent ++ gap2) x
                ++ match l' with
                   | [] => []
                   | _ :: _ => lit "," ++ nl ++ indent ++ gap2 ++ elements l'
                   end
            end) items
      ++ nl ++ indent ++ lit "]"
  | JObj [] => lit "{}"
  | JObj fields =>
      lit "{" ++ nl ++ indent ++ gap2
      ++ (fix members (l : list (str * json)) : str :=
            match l with
            | [] => []
            | (k, x) :: l' =>
                quote k ++ lit ": " ++ stringifyIndented (indent ++ gap2) x
                ++ match l' with
                   | [] => []
                   | _ :: _ => lit "," ++ nl ++ indent ++ gap2 ++ members l'
                   end
            end) fields
      ++ nl ++ indent ++ lit "}"
  end.

Definition generateQueryPrompt (schemaString userQuery : str) : str :=
  let schemaForPrompt :=
    if 2000 <? length schemaString
    then firstn 2000 schemaString ++ nl ++ lit "... (truncated)"
    else schemaString in
  trim (nl
        ++ lit "You are a PostgreSQL assistant for Supabase. Use the following database schema:" ++ nl
        ++ schemaForPrompt ++ nl
        ++ nl
        ++ lit "Generate a PostgreSQL query for:" ++ nl
        ++ dq ++ userQuery ++ dq ++ nl
        ++ nl
        ++ lit "Requirements:" ++ nl
        ++ lit "- Use only SELECT statements (no INSERT, UPDATE, DELETE, DROP, etc.)" ++ nl
        ++ lit "- Use proper PostgreSQL syntax" ++ nl
        ++ lit "- Include appropriate JOINs when querying related tables" ++ nl
        ++ lit "- Use LIMIT to prevent large result sets when appropriate" ++ nl
        ++ lit "- Respond ONLY with valid PostgreSQL SQL - no markdown, no explanation, no code blocks" ++ nl
        ++ nl
        ++ lit "SQL Query:" ++ nl
        ++ lit "  ").

Definition generateResultSummaryPrompt (userQuery : str) (data : json)
           (language tone : str) : str :=
  let dataForPrompt :=
    match data with
    | JArr items => if 10 <? length items then JArr (firstn 10 items) else data
    | _ => data
    end in
  trim (nl
        ++ lit "Summarize this database result for:" ++ nl
        ++ dq ++ userQuery ++ dq ++ nl
        ++ lit "Data:" ++ nl
        ++ stringifyIndented [] dataForPrompt ++ nl
        ++ lit "Reply only with a " ++ tone
        ++ lit ", human-readable summary in " ++ language ++ lit "." ++ nl
        ++ lit "  ").

End AiPrompts.

Import AiPrompts.

(** ** The MCP tool: [executeNaturalLanguageQueryTool] *)

Module ToolHandler.

(** The part of zod that [responseSchema] uses. *)
#[warnings="-register-all"]
Inductive schema : Type :=
| ZString
| ZLiteral (value : str)
| ZArray (element : schema)
| ZObject (shape : list (string * schema)).

(** An issue of a failed parse, by the path it is reported at. *)
Definition issuePath := list str.

(** The issues of a value against a schema; a missing key is checked as
    [undefined]. *)
Fixpoint issues (sch : schema) (path : list str) (v : option json)
  : list issuePath :=
  match sch with
  | ZString =>
      match v with Some (JStr _) => [] | _ => [path] end
  | ZLiteral value =>
      match v with
      | Some (JStr s) => if str_eqb s value then [] else [path]
      | _ => [path]
      end
  | ZArray element =>
      match v with
      | Some (JArr items) =>
          (fix each (i : Z) (l : list json) : list issuePath :=
             match l with
             | [] => []
             | x :: l' =>
                 issues element (path ++ [of_Z i]) (Some x) ++ each (i + 1)%Z l'
             end) 0%Z items
      | _ => [path]
      end
  | ZObject shape =>
      match v with
      | Some (JObj o) =>
          (fix each (l : list (string * schema)) : list issuePath :=
             match l with
             | [] => []
             | (k, s) :: l' =>
                 issues s (path ++ [lit k]) (own o (lit k)) ++ each l'
             end) shape
      | _ => [path]
      end
  end.

(** What a successful parse returns: the value without the keys that
    the schema does not name. *)
Fixpoint parsed (sch : schema) (v : json) : json :=
  match sch with
  | ZString | ZLiteral _ => v
  | ZArray element =>
      match v with
      | JArr items => JArr (map (parsed element) items)
      | _ => v
      end
  | ZObject shape =>
      match v with
      | JObj o =>
          JObj ((fix each (l : list (string * schema)) : obj :=
                   match l with
                   | [] => []
                   | (k, s) :: l' =>
                       match own o (lit k) with
                       | Some x => (lit k, parsed s x) :: each l'
                       | None => each l'
                       end
                   end) shape)
      | _ => v
      end
  end.

(** The result of [schema.parse(v)]: the parsed value, or the issues of
    the [ZodError] it throws. *)
Inductive parseResult : Type :=
| Parsed (v : json)
| Rejected (errors : list issuePath).

Definition parse (sch : schema) (v : json) : parseResult :=
  match issues sch [] (Some v) with
  | [] => Parsed (parsed sch v)
  | e :: errors => Rejected (e :: errors)
  end.

Definition responseSchema : schema :=
  ZObject [("content"%string,
            ZArray (ZObject [("type"%string, ZLiteral (lit "text"));
                             ("text"%string, ZString)]))].

(** What the tool calls outside this module: the schema retrieval and
    the AI API. *)
Record services : Type := Services {
  getDbSchema : outcome json;
  callAiApi : str -> outcome str
}.

Definition lift {A} (o : outcome A) : M A := ([], o).

Definition orDefault (given : option str) (default : string) : str :=
  match given with Some s => s | None => lit default end.

Definition executeNaturalLanguageQueryTool
           (sv : services) (supabaseClient : option client)
           (nl_query : str) (language tone : option str)
           (maskFields : list str) : M parseResult :=
  let language := orDefault language "English" in
  let tone := orDefault tone "neutral" in
  schema <- lift (getDbSchema sv) ;;
  let schemaString := stringifyIndented [] schema in
  let prompt := generateQueryPrompt schemaString nl_query in
  generatedQuery <- lift (callAiApi sv prompt) ;;
  results <- executeDbQuery generatedQuery supabaseClient ;;
  let summaryPrompt :=
    generateResultSummaryPrompt nl_query results language tone in
  aiSummary <- lift (callAiApi sv summaryPrompt) ;;
  summary <- lift (formatResultsSummary results maskFields) ;;
  ret (parse responseSchema
             (JObj [(lit "content",
                     JArr [JObj [(lit "data", JStr summary)];
                           JObj [(lit "summary", JStr aiSummary)]])])).

End ToolHandler.

Import ToolHandler.

(** ** The variables of the modules *)

Module ModuleState.

(** The value of [dbInstance]: [undefined], [null] or a connection. *)
Inductive connection : Type := NotSet | Dropped | Connected.

Record variables : Type := Variables {
  dbInstance : connection;
  dbType : option str;
  supabaseClient : option client
}.

(** The variables when the modules are loaded. *)
Definition loaded : variables := Variables NotSet None None.

(** [initializeSupabaseClient(config)]; [created] is the client that
    [createClient] returns, if the function gets that far and
    [createClient] does not throw. *)
Definition initializeSupabaseClient (created : option client) (s : variables)
  : variables :=
  match created with
  | Some c => Variables (dbInstance s) (dbType s) (Some c)
  | None => s
  end.

(** The assignments of [initializeDatabase(config)]. *)
Definition initializeDatabase (created : option client) (s : variables)
  : variables :=
  let s1 := Variables (dbInstance s) (Some (lit "supabase")) (supabaseClient s) in
  match supabaseClient s1 with
  | Some _ => s1
  | None => initializeSupabaseClient created s1
  end.

(** The calls a user of the modules can make, by what they assign. *)
Inductive call : Type :=
| InitializeSupabaseClient (created : option client)
| InitializeDatabase (created : option client)
| AnyOther.

Definition after (s : variables) (c : call) : variables :=
  match c with
  | InitializeSupabaseClient created => initializeSupabaseClient created s
  | InitializeDatabase created => initializeDatabase created s
  | AnyOther => s
  end.

Definition notNull (d : connection) : bool :=
  match d with Dropped => false | NotSet | Connected => true end.

Definition isSome {A} (o : option A) : bool :=
  match o with Some _ => true | None => false end.

(** [dbInstance !== null || supabaseClient !== null] *)
Definition isDatabaseInitialized (s : variables) : bool :=
  notNull (dbInstance s) || isSome (supabaseClient s).

Record status : Type := Status {
  hasDirectConnection : bool;
  hasSupabaseClient : bool;
  statusDbType : option str;
  isInitialized : bool
}.

Definition getDatabaseStatus (s : variables) : status :=
  Status (notNull (dbInstance s)) (isSome (supabaseClient s)) (dbType s)
         (notNull (dbInstance s) || isSome (supabaseClient s)).

End ModuleState.

Import ModuleState.

(** ** Strings *)

Section Strings.

Lemma str_eqb_refl (a : str) : str_eqb a a = true.
Proof.
  induction a as [|x a IH]; simpl; [reflexivity|].
  unfold char_eqb. rewrite Ascii.eqb_refl. exact IH.
Qed.

Lemma str_eqb_eq (a b : str) : str_eqb a b = true -> a = b.
Proof.
  revert b. induction a as [|x a IH]; intros [|y b]; simpl;
    try discriminate; [reflexivity|].
  intros H. apply andb_prop in H. destruct H as [Hx Hr].
  apply Ascii.eqb_eq in Hx. rewrite Hx, (IH _ Hr). reflexivity.
Qed.

Lemma str_eqb_neq (a b : str) : a <> b -> str_eqb a b = false.
Proof.
  intros H. destruct (str_eqb a b) eqn:E; [|reflexivity].
  elim H. exact (str_eqb_eq _ _ E).
Qed.


Lemma startsWith_app (p post : str) : startsWith (p ++ post) p = true.
Proof.
  induction p as [|x p IH]; simpl; [reflexivity|].
  unfold char_eqb. rewrite Ascii.eqb_refl. exact IH.
Qed.

Lemma includes_start (s p : str) :
  startsWith s p = true -> includes s p = true.
Proof.
  intros H. destruct s; simpl; simpl in H; rewrite H; reflexivity.
Qed.

Lemma includes_app (pre p post : str) : includes (pre ++ p ++ post) p = true.
Proof.
  induction pre as [|x pre IH]; simpl.
  - apply includes_start, startsWith_app.
  - rewrite IH. apply orb_true_r.
Qed.

Lemma split_not_nil (c : ascii) (s : str) : split c s <> [].
Proof.
  destruct s as [|x s]; simpl; [discriminate|].
  destruct (char_eqb x c); [discriminate|].
  destruct (split c s); discriminate.
Qed.

Lemma split_app (c : ascii) (a b : str) :
  split c (a ++ c :: b) = split c a ++ split c b.
Proof.
  induction a as [|x a IH]; simpl.
  - unfold char_eqb. rewrite Ascii.eqb_refl. reflexivity.
  - destruct (char_eqb x c).
    + rewrite IH. reflexivity.
    + rewrite IH. destruct (split c a) as [|seg segs] eqn:E.
      * exfalso. exact (split_not_nil _ _ E).
      * reflexivity.
Qed.

Lemma trimStart_nil (s : str) :
  trimStart s = [] -> forallb is_space s = true.
Proof.
  induction s as [|x s IH]; simpl; [reflexivity|].
  destruct (is_space x); [exact IH|discriminate].
Qed.

Lemma trimStart_spaces (s : str) :
  forallb is_space (trimStart s) = true -> forallb is_space s = true.
Proof.
  induction s as [|x s IH]; simpl; [reflexivity|].
  destruct (is_space x) eqn:E; simpl.
  - exact IH.
  - rewrite E. discriminate.
Qed.

Lemma forallb_rev {A} (f : A -> bool) (l : list A) :
  forallb f (rev l) = forallb f l.
Proof.
  induction l as [|x l IH]; simpl; [reflexivity|].
  rewrite forallb_app, IH. simpl. rewrite andb_true_r. apply andb_comm.
Qed.

Lemma trim_nil_spaces (s : str) : trim s = [] -> forallb is_space s = true.
Proof.
  unfold trim, trimEnd. intros H.
  apply trimStart_spaces. rewrite <- forallb_rev.
  apply trimStart_nil.
  rewrite <- (rev_involutive (trimStart _)), H. reflexivity.
Qed.

Lemma nonBlank_ink (seg : str) :
  existsb (fun c => negb (is_space c)) seg = true -> nonBlank seg = true.
Proof.
  intros H. unfold nonBlank. simpl.
  destruct (trim seg) eqn:E; [|reflexivity].
  apply trim_nil_spaces in E.
  apply existsb_exists in H. destruct H as (c & Hin & Hc).
  rewrite forallb_forall in E. rewrite (E c Hin) in Hc. discriminate.
Qed.

Lemma nonBlank_cons (x : ascii) (seg : str) :
  nonBlank seg = true -> nonBlank (x :: seg) = true.
Proof.
  intros H. apply nonBlank_ink. simpl.
  unfold nonBlank in H. simpl in H.
  destruct (trim seg) eqn:E; [discriminate|].
  destruct (existsb (fun c => negb (is_space c)) seg) eqn:Ex.
  - apply orb_true_r.
  - exfalso.
    assert (Hall : forallb is_space seg = true).
    { apply forallb_forall. intros c Hc.
      destruct (is_space c) eqn:Ec; [reflexivity|].
      assert (existsb (fun c => negb (is_space c)) seg = true).
      { apply existsb_exists. exists c. rewrite Ec. auto. }
      congruence. }
    clear Ex H. revert E. unfold trim, trimEnd.
    assert (Hs : trimStart seg = []).
    { clear -Hall. induction seg as [|y seg IH]; simpl in *; [reflexivity|].
      apply andb_prop in Hall. destruct Hall as [Hy Hr].
      rewrite Hy. auto. }
    rewrite Hs. discriminate.
Qed.

Lemma isContent_ink (c : ascii) :
  isContent c = true -> negb (is_space c) = true /\ char_eqb c ";" = false.
Proof.
  unfold isContent. intros H. apply andb_prop in H. destruct H as [H1 H2].
  split; [exact H1|]. destruct (char_eqb c ";"); [discriminate|reflexivity].
Qed.

(** A text with content has a segment that survives the filter. *)
Lemma content_segment (s : str) :
  existsb isContent s = true -> existsb nonBlank (split ";" s) = true.
Proof.
  induction s as [|x s IH]; cbn [existsb split]; [discriminate|].
  intros H. destruct (char_eqb x ";") eqn:Ex.
  - unfold isContent at 1 in H. rewrite Ex, andb_false_r in H.
    cbn [existsb orb] in *. rewrite (IH H). apply orb_true_r.
  - destruct (split ";" s) as [|seg segs] eqn:E.
    + exfalso. exact (split_not_nil _ _ E).
    + cbn [existsb] in *. apply orb_prop in H. destruct H as [H|H].
      * apply isContent_ink in H. destruct H as [H _].
        rewrite (nonBlank_ink (x :: seg)); [reflexivity|].
        cbn [existsb]. rewrite H. reflexivity.
      * specialize (IH H). apply orb_prop in IH.
        destruct IH as [Hs|Hs].
        -- rewrite (nonBlank_cons x _ Hs). reflexivity.
        -- rewrite Hs. apply orb_true_r.
Qed.

Lemma filter_some {A} (f : A -> bool) (l : list A) :
  existsb f l = true -> 1 <= length (filter f l).
Proof.
  induction l as [|x l IH]; simpl; [discriminate|].
  destruct (f x); simpl; intros H; [lia|auto].
Qed.

Lemma lower_s_content (c : ascii) :
  char_eqb "s" (lower_char c) = true -> isContent c = true.
Proof.
  destruct c as [[] [] [] [] [] [] [] []]; vm_compute; congruence.
Qed.

(** A text that starts with the keyword and has a second statement
    splits into at least two segments that are not blank. *)
Lemma two_statements (text : str) :
  startsWith (toLowerCase text) (lit "select") = true ->
  secondStatement text ->
  includes text (lit ";") = true
  /\ (1 <? length (filter nonBlank (split ";" text))) = true.
Proof.
  intros Hsel (pre & post & -> & Hpost). split.
  - apply includes_app.
  - apply Nat.ltb_lt. simpl. rewrite split_app, filter_app, length_app.
    assert (Hpre : existsb isContent pre = true).
    { destruct pre as [|c pre].
      - simpl in Hsel. discriminate.
      - simpl in Hsel. apply andb_prop in Hsel. destruct Hsel as [Hc _].
        simpl. rewrite (lower_s_content _ Hc). reflexivity. }
    pose proof (filter_some _ _ (content_segment _ Hpre)).
    pose proof (filter_some _ _ (content_segment _ Hpost)).
    lia.
Qed.

End Strings.

(** ** What a successful match says about the text *)

Section MatcherFuel.

(** The matcher looks at its continuation only through its results. *)
Lemma star_loop_ext (step : mstate -> cont -> option mstate) :
  (forall st k1 k2, (forall x, k1 x = k2 x) -> step st k1 = step st k2) ->
  forall fuel st k1 k2, (forall x, k1 x = k2 x) ->
    star_loop step fuel st k1 = star_loop step fuel st k2.
Proof.
  intros Hstep fuel. induction fuel as [|fuel IH]; intros st k1 k2 Hk; simpl.
  - apply Hk.
  - rewrite (Hstep st _ (fun st' =>
               if length (rest st') <? length (rest st)
               then star_loop step fuel st' k2 else None)).
    + rewrite Hk. reflexivity.
    + intros x. destruct (length (rest x) <? length (rest st)); auto.
Qed.

Lemma run_ext (r : regex) :
  forall st k1 k2, (forall x, k1 x = k2 x) -> run r st k1 = run r st k2.
Proof.
  induction r as [|p|a IHa b IHb|a IHa b IHb|a IHa|i a IHa| |];
    intros st k1 k2 Hk; cbn [run].
  - apply Hk.
  - destruct (rest st) as [|x s']; [reflexivity|].
    destruct (p x); [apply Hk|reflexivity].
  - apply IHa. intros x. apply IHb. exact Hk.
  - rewrite (IHa st k1 k2 Hk), (IHb st k1 k2 Hk). reflexivity.
  - apply star_loop_ext; assumption.
  - apply IHa. intros x. apply Hk.
  - destruct (pos st =? 0); [apply Hk|reflexivity].
  - destruct (rest st); [apply Hk|reflexivity].
Qed.

(** The fuel of an iteration only has to exceed what is left of the
    input: more of it changes nothing. *)
Lemma star_loop_fuel (a : regex) :
  forall f1 f2 st k,
    length (rest st) < f1 -> length (rest st) < f2 ->
    star_loop (run a) f1 st k = star_loop (run a) f2 st k.
Proof.
  induction f1 as [|f1 IH]; intros f2 st k H1 H2; [lia|].
  destruct f2 as [|f2]; [lia|]. simpl.
  rewrite (run_ext a st _ (fun st' =>
             if length (rest st') <? length (rest st)
             then star_loop (run a) f2 st' k else None)); [reflexivity|].
  intros x. destruct (length (rest x) <? length (rest st)) eqn:E; [|reflexivity].
  apply Nat.ltb_lt in E. apply IH; lia.
Qed.

(** The greedy iteration, without fuel: one more round first, as long as
    it consumes something, the rest of the expression second. *)
Lemma run_star (a : regex) (st : mstate) (k : cont) :
  run (Star a) st k
  = match run a st (fun st' =>
                      if length (rest st') <? length (rest st)
                      then run (Star a) st' k
                      else None) with
    | Some r => Some r
    | None => k st
    end.
Proof.
  cbn [run]. simpl star_loop.
  rewrite (run_ext a st _ (fun st' =>
             if length (rest st') <? length (rest st)
             then star_loop (run a) (S (length (rest st'))) st' k
             else None)); [reflexivity|].
  intros x. destruct (length (rest x) <? length (rest st)) eqn:E; [|reflexivity].
  apply Nat.ltb_lt in E. apply star_loop_fuel; lia.
Qed.

End MatcherFuel.

Section MatcherSoundness.

Lemma star_loop_sound P step :
  sound_step P step ->
  forall fuel, sound_step (star_of P) (star_loop step fuel).
Proof.
  intros Hstep fuel. induction fuel as [|fuel IH]; intros st k res H.
  - exists [], (rest st), (caps st). simpl in H |- *.
    rewrite Nat.add_0_r. destruct st. repeat split; [constructor|exact H].
  - simpl in H.
    destruct (step st _) as [r|] eqn:E.
    + apply Hstep in E. destruct E as (s1 & post1 & cs1 & Hr & HP & Hk).
      cbn [rest pos] in Hk.
      destruct (length post1 <? length (rest st)); [|discriminate].
      apply IH in Hk. destruct Hk as (s2 & post2 & cs2 & Hr2 & HS & Hk).
      cbn [rest pos caps] in Hr2, HS, Hk. subst post1.
      exists (s1 ++ s2), post2, cs2. repeat split.
      * rewrite Hr. apply app_assoc.
      * econstructor; eassumption.
      * rewrite length_app, Nat.add_assoc. congruence.
    + exists [], (rest st), (caps st). simpl.
      rewrite Nat.add_0_r. destruct st. repeat split; [constructor|exact H].
Qed.

Lemma firstn_consumed (n : nat) (s post : str) :
  firstn (n + length s - n) (s ++ post) = s.
Proof.
  rewrite Nat.add_comm, Nat.add_sub.
  rewrite firstn_app, Nat.sub_diag, firstn_all. simpl. apply app_nil_r.
Qed.

Lemma run_sound (r : regex) : sound_step (matches r) (run r).
Proof.
  induction r as [|p|a IHa b IHb|a IHa b IHb|a IHa|i a IHa| |];
    intros st k res H; cbn [run] in H.
  - exists [], (rest st), (caps st). simpl. rewrite Nat.add_0_r.
    destruct st. auto.
  - destruct (rest st) as [|x s'] eqn:E; [discriminate|].
    destruct (p x) eqn:Hp; [|discriminate].
    exists [x], s', (caps st). simpl. rewrite Nat.add_1_r.
    repeat split; [exists x; auto|exact H].
  - apply IHa in H. destruct H as (s1 & post1 & cs1 & Hr & Ha & H).
    apply IHb in H. destruct H as (s2 & post2 & cs2 & Hr2 & Hb & H).
    cbn [rest pos caps] in *. subst post1.
    exists (s1 ++ s2), post2, cs2. repeat split.
    + rewrite Hr. apply app_assoc.
    + exists s1, s2, cs1. auto.
    + rewrite length_app, Nat.add_assoc. exact H.
  - destruct (run a st k) as [r|] eqn:E.
    + inversion H; subst r. apply IHa in E.
      destruct E as (s & post & cs & ? & ? & ?).
      exists s, post, cs. simpl. auto.
    + apply IHb in H. destruct H as (s & post & cs & ? & ? & ?).
      exists s, post, cs. simpl. auto.
  - exact (star_loop_sound IHa _ _ _ H).
  - apply IHa in H. destruct H as (s & post & cs & Hr & Ha & H).
    cbn [rest pos caps] in H. rewrite Hr, firstn_consumed in H.
    exists s, post, ((i, s) :: cs). simpl. eauto.
  - destruct (pos st =? 0) eqn:E; [|discriminate].
    apply Nat.eqb_eq in E.
    exists [], (rest st), (caps st). simpl. rewrite Nat.add_0_r.
    destruct st. auto.
  - destruct (rest st) eqn:E; [|discriminate].
    exists [], [], (caps st). simpl. rewrite Nat.add_0_r.
    destruct st. simpl in *. subst. auto.
Qed.

Lemma exec_at_sound (r : regex) (idx : nat) (s : str) (st : mstate) :
  exec_at r idx s = Some st ->
  exists mid post,
    s = mid ++ post /\ matches r idx mid post [] (caps st)
    /\ pos st = idx + length mid.
Proof.
  intros E. apply run_sound in E.
  destruct E as (mid & post & cs & Hr & Hm & Hk).
  cbn [rest pos caps] in *. inversion Hk; subst st.
  exists mid, post. auto.
Qed.

Lemma search_sound (r : regex) (s : str) :
  forall idx i st, search r idx s = Some (i, st) ->
    exists pre mid post,
      s = pre ++ mid ++ post /\ i = idx + length pre
      /\ matches r i mid post [] (caps st)
      /\ pos st = i + length mid.
Proof.
  induction s as [|x s IH]; intros idx i st H; simpl in H.
  - destruct (exec_at r idx []) eqn:E; [|discriminate].
    inversion H; subst. apply exec_at_sound in E.
    destruct E as (mid & post & Hr & Hm & Hp).
    exists [], mid, post. simpl. rewrite Nat.add_0_r. auto.
  - destruct (exec_at r idx (x :: s)) eqn:E.
    + inversion H; subst. apply exec_at_sound in E.
      destruct E as (mid & post & Hr & Hm & Hp).
      exists [], mid, post. simpl. rewrite Nat.add_0_r. auto.
    + apply IH in H. destruct H as (pre & mid & post & -> & -> & Hm & Hp).
      exists (x :: pre), mid, post. simpl.
      rewrite Nat.add_succ_r. auto.
Qed.

(** A result of [s.match(r)] cuts the text in three; the middle part is
    the matched text, the expression matches it there, and the groups of
    the result are the ones it captures. *)
Lemma js_match_sound (r : regex) (s : str) (m : match_result) :
  js_match r s = Some m ->
  exists pre post,
    s = pre ++ matched m ++ post /\ index m = length pre
    /\ matches r (length pre) (matched m) post [] (groups m).
Proof.
  unfold js_match. destruct (search r 0 s) as [[i st]|] eqn:E; [|discriminate].
  intros H. inversion H; subst m. clear H. cbn [matched index groups].
  apply search_sound in E.
  destruct E as (pre & mid & post & -> & -> & Hm & Hp).
  cbn [plus] in *. exists pre, post.
  assert (Hmid : firstn (pos st - length pre)
                        (skipn (length pre) (pre ++ mid ++ post)) = mid).
  { rewrite skipn_app, skipn_all, Nat.sub_diag. cbn [skipn app].
    rewrite Hp. apply firstn_consumed. }
  cbn [Nat.add] in *. rewrite Hmid. auto.
Qed.

End MatcherSoundness.

(** The converse: a text that the expression matches somewhere is found
    by the matcher. *)
Section MatcherCompleteness.

Unset Implicit Arguments.

Lemma star_any_caps (a : regex) :
  (forall pos s post cin cout, matches a pos s post cin cout ->
     forall cin', exists cout', matches a pos s post cin' cout') ->
  forall pos s post cin cout, star_of (matches a) pos s post cin cout ->
    forall cin', exists cout', star_of (matches a) pos s post cin' cout'.
Proof.
  intros Ha pos s post cin cout H.
  induction H as [|pos s1 s2 post c0 c1 c2 H1 _ IH]; intros cin'.
  - exists cin'. constructor.
  - destruct (Ha _ _ _ _ _ H1 cin') as (cm & Hm).
    destruct (IH cm) as (cout' & Hs).
    exists cout'. econstructor; eassumption.
Qed.

Lemma matches_any_caps (r : regex) :
  forall pos s post cin cout, matches r pos s post cin cout ->
    forall cin', exists cout', matches r pos s post cin' cout'.
Proof.
  induction r as [|p|a IHa b IHb|a IHa b IHb|a IHa|i a IHa| |];
    intros pos s post cin cout H cin'; cbn [matches] in *.
  - destruct H as [-> _]. eauto.
  - destruct H as [H _]. eauto.
  - destruct H as (s1 & s2 & cm & -> & H1 & H2).
    destruct (IHa _ _ _ _ _ H1 cin') as (cm' & H1').
    destruct (IHb _ _ _ _ _ H2 cm') as (cout' & H2').
    exists cout', s1, s2, cm'. auto.
  - destruct H as [H|H].
    + destruct (IHa _ _ _ _ _ H cin') as (cout' & H'). eauto.
    + destruct (IHb _ _ _ _ _ H cin') as (cout' & H'). eauto.
  - exact (star_any_caps a IHa _ _ _ _ _ H cin').
  - destruct H as (cm & H & _).
    destruct (IHa _ _ _ _ _ H cin') as (cm' & H'). eauto.
  - destruct H as (-> & -> & _). eauto.
  - destruct H as (-> & -> & _). eauto.
Qed.

Lemma star_complete (a : regex) :
  (forall pos s post cin cout, matches a pos s post cin cout ->
     forall cin' k, total_on k (pos + length s) post ->
       run a (MState pos (s ++ post) cin') k <> None) ->
  forall pos s post cin cout, star_of (matches a) pos s post cin cout ->
    forall fuel cin' k,
      length (s ++ post) < fuel -> total_on k (pos + length s) post ->
      star_loop (run a) fuel (MState pos (s ++ post) cin') k <> None.
Proof.
  intros Ha pos s post cin cout H.
  induction H as [pos post cs|pos s1 s2 post c0 c1 c2 H1 _ IH];
    intros fuel cin' k Hfuel Hk.
  - destruct fuel as [|fuel]; [lia|]. simpl.
    destruct (run a _ _); [discriminate|].
    specialize (Hk cin'). simpl in Hk. rewrite Nat.add_0_r in Hk. exact Hk.
  - destruct s1 as [|x s1].
    + simpl in *. rewrite Nat.add_0_r in IH. apply IH; assumption.
    + destruct fuel as [|fuel]; [lia|]. cbn [star_loop].
      rewrite <- app_assoc.
      match goal with
      | |- match run a ?st ?K with _ => _ end <> None =>
          assert (HK : run a st K <> None)
      end.
      { apply (Ha _ _ _ _ _ H1). intros cs. cbn [rest].
        replace (length (s2 ++ post) <? length ((x :: s1) ++ s2 ++ post))
          with true
          by (symmetry; apply Nat.ltb_lt; rewrite !length_app; simpl; lia).
        apply IH.
        - rewrite !length_app in *. simpl in Hfuel. lia.
        - rewrite length_app, Nat.add_assoc in Hk. exact Hk. }
      destruct (run a _ _); [discriminate|contradiction].
Qed.

Lemma run_complete (r : regex) :
  forall pos s post cin cout, matches r pos s post cin cout ->
    forall cin' k, total_on k (pos + length s) post ->
      run r (MState pos (s ++ post) cin') k <> None.
Proof.
  induction r as [|p|a IHa b IHb|a IHa b IHb|a IHa|i a IHa| |];
    intros ix s post cin cout H cin' k Hk; cbn [matches run] in *.
  - destruct H as [-> _]. specialize (Hk cin').
    simpl in Hk. rewrite Nat.add_0_r in Hk. exact Hk.
  - destruct H as [(x & -> & Hx) _]. cbn [rest app]. rewrite Hx.
    specialize (Hk cin'). simpl in Hk. rewrite Nat.add_1_r in Hk. exact Hk.
  - destruct H as (s1 & s2 & cm & -> & H1 & H2). rewrite <- app_assoc.
    apply (IHa _ _ _ _ _ H1). intros cs.
    apply (IHb _ _ _ _ _ H2).
    rewrite length_app, Nat.add_assoc in Hk. exact Hk.
  - destruct H as [H|H].
    + pose proof (IHa _ _ _ _ _ H cin' k Hk) as Hr.
      destruct (run a _ _); [discriminate|contradiction].
    + pose proof (IHb _ _ _ _ _ H cin' k Hk) as Hr.
      destruct (run a _ _); [discriminate|exact Hr].
  - apply (star_complete a IHa _ _ _ _ _ H); [cbn [rest]; lia|exact Hk].
  - destruct H as (cm & H & _).
    apply (IHa _ _ _ _ _ H). intros cs. cbn [pos rest caps]. apply Hk.
  - destruct H as (-> & -> & _). simpl. apply Hk.
  - destruct H as (-> & -> & _). cbn [rest app].
    specialize (Hk cin'). simpl in Hk. rewrite Nat.add_0_r in Hk. exact Hk.
Qed.

Lemma search_complete (r : regex) (rest0 : str) :
  forall pre idx,
    exec_at r (idx + length pre) rest0 <> None ->
    search r idx (pre ++ rest0) <> None.
Proof.
  induction pre as [|x pre IH]; intros idx H.
  - simpl in *. rewrite Nat.add_0_r in H.
    destruct rest0; simpl; destruct (exec_at r idx _);
      try discriminate; contradiction.
  - cbn [app search]. destruct (exec_at r idx _); [discriminate|].
    apply IH. simpl in H. rewrite Nat.add_succ_r in H. exact H.
Qed.

Lemma js_match_complete (r : regex) (s pre mid post : str) cin cout :
  s = pre ++ mid ++ post ->
  matches r (length pre) mid post cin cout ->
  js_match r s <> None.
Proof.
  intros -> H. unfold js_match.
  assert (Hs : search r 0 (pre ++ mid ++ post) <> None).
  { apply search_complete. unfold exec_at. cbn [Nat.add].
    apply (run_complete _ _ _ _ _ _ H). intros cs. discriminate. }
  destruct (search r 0 _) as [[i st]|]; [discriminate|contradiction].
Qed.

Set Implicit Arguments.

End MatcherCompleteness.

(** ** The shapes exclude one another *)

Section Shapes.

Lemma space_not_word (x : ascii) : is_space x = true -> is_word x = false.
Proof. destruct x as [[] [] [] [] [] [] [] []]; vm_compute; congruence. Qed.

Lemma digit_is_word (x : ascii) : is_digit x = true -> is_word x = true.
Proof. destruct x as [[] [] [] [] [] [] [] []]; vm_compute; congruence. Qed.

Lemma digits_are_words (d : str) :
  forallb is_digit d = true -> forallb is_word d = true.
Proof.
  induction d as [|x d IH]; simpl; [reflexivity|].
  intros H. apply andb_prop in H. destruct H as [Hx Hd].
  rewrite (digit_is_word _ Hx), (IH Hd). reflexivity.
Qed.

Lemma matches_chars (l : str) :
  forall pos s post cin cout,
    matches (cat (map chr l)) pos s post cin cout -> s = l /\ cout = cin.
Proof.
  induction l as [|x l IH]; intros pos s post cin cout H; simpl in H.
  - exact H.
  - destruct H as (s1 & s2 & cm & -> & ((y & -> & Hy) & ->) & H2).
    apply Ascii.eqb_eq in Hy. subst y.
    apply IH in H2. destruct H2 as [-> ->]. auto.
Qed.

Lemma star_cls (p : ascii -> bool) pos s post cin cout :
  star_of (matches (Cls p)) pos s post cin cout ->
  forallb p s = true /\ cout = cin.
Proof.
  induction 1 as [|pos s1 s2 post c0 c1 c2 ((y & -> & Hy) & ->) _ [IH ->]];
    [auto|].
  simpl. rewrite Hy. auto.
Qed.

(** *** Reading an expression off a text, one item at a time *)

Lemma peel_bol rs pos s post cin cout :
  matches (cat (Bol :: rs)) pos s post cin cout ->
  pos = 0 /\ matches (cat rs) 0 s post cin cout.
Proof.
  intros (s1 & s2 & cm & -> & (-> & -> & ->) & H). auto.
Qed.

Lemma peel_cls p rs pos s post cin cout :
  matches (cat (Cls p :: rs)) pos s post cin cout ->
  exists x s2 pos',
    s = x :: s2 /\ p x = true /\ matches (cat rs) pos' s2 post cin cout.
Proof.
  intros (s1 & s2 & cm & -> & ((y & -> & Hy) & ->) & H).
  exists y, s2. eauto.
Qed.

Lemma peel_chr x rs pos s post cin cout :
  matches (cat (chr x :: rs)) pos s post cin cout ->
  exists s2 pos', s = x :: s2 /\ matches (cat rs) pos' s2 post cin cout.
Proof.
  intros H. apply peel_cls in H. destruct H as (y & s2 & pos' & -> & Hy & H).
  apply Ascii.eqb_eq in Hy. subst y. eauto.
Qed.

Lemma peel_text t rs pos s post cin cout :
  matches (cat (text t :: rs)) pos s post cin cout ->
  exists s2 pos', s = lit t ++ s2 /\ matches (cat rs) pos' s2 post cin cout.
Proof.
  intros (s1 & s2 & cm & -> & H1 & H).
  apply matches_chars in H1. destruct H1 as [-> ->]. eauto.
Qed.

Lemma peel_star p rs pos s post cin cout :
  matches (cat (Star (Cls p) :: rs)) pos s post cin cout ->
  exists w s2 pos',
    s = w ++ s2 /\ forallb p w = true
    /\ matches (cat rs) pos' s2 post cin cout.
Proof.
  intros (s1 & s2 & cm & -> & H1 & H).
  apply star_cls in H1. destruct H1 as [Hw ->]. eauto 6.
Qed.

Lemma peel_plus p rs pos s post cin cout :
  matches (cat (plus (Cls p) :: rs)) pos s post cin cout ->
  exists w s2 pos',
    s = w ++ s2 /\ w <> [] /\ forallb p w = true
    /\ matches (cat rs) pos' s2 post cin cout.
Proof.
  intros (s1 & s2 & cm & -> & H1 & H).
  destruct H1 as (a & b & c1 & -> & ((y & -> & Hy) & ->) & H1).
  apply star_cls in H1. destruct H1 as [Hw ->].
  exists (y :: b), s2. eexists. repeat split; [discriminate| |exact H].
  simpl. rewrite Hy. exact Hw.
Qed.

Lemma peel_group i p rs pos s post cin cout :
  matches (cat (Grp i (plus (Cls p)) :: rs)) pos s post cin cout ->
  exists w s2 pos',
    s = w ++ s2 /\ w <> [] /\ forallb p w = true
    /\ matches (cat rs) pos' s2 post ((i, w) :: cin) cout.
Proof.
  intros (s1 & s2 & cm & -> & (c1 & H1 & ->) & H).
  destruct H1 as (a & b & c2 & -> & ((y & -> & Hy) & ->) & H1).
  apply star_cls in H1. destruct H1 as [Hw ->].
  exists (y :: b), s2. eexists. repeat split; [discriminate| |exact H].
  simpl. rewrite Hy. exact Hw.
Qed.

Lemma peel_opt a rs pos s post cin cout :
  matches (cat (opt a :: rs)) pos s post cin cout ->
  (exists s1 s2 cm pos',
     s = s1 ++ s2 /\ matches a pos s1 (s2 ++ post) cin cm
     /\ matches (cat rs) pos' s2 post cm cout)
  \/ matches (cat rs) pos s post cin cout.
Proof.
  intros (s1 & s2 & cm & -> & [H1|[-> ->]] & H).
  - left. eauto 8.
  - right. simpl in H. rewrite Nat.add_0_r in H. exact H.
Qed.

Lemma peel_eol pos s post cin cout :
  matches (cat [Eol]) pos s post cin cout ->
  s = [] /\ post = [] /\ cout = cin.
Proof.
  intros (s1 & s2 & cm & -> & (-> & Hp & ->) & -> & ->).
  simpl in Hp. auto.
Qed.

Lemma cat_skip (n : nat) :
  forall rs pos s post cin cout, matches (cat rs) pos s post cin cout ->
    exists a b pos' cm,
      s = a ++ b /\ matches (cat (skipn n rs)) pos' b post cm cout.
Proof.
  induction n as [|n IH]; intros rs pos s post cin cout H.
  - exists [], s, pos, cin. auto.
  - destruct rs as [|r rs].
    + exists [], s, pos, cin. auto.
    + destruct H as (s1 & s2 & cm & -> & _ & H2).
      apply IH in H2. destruct H2 as (a & b & pos' & cm' & -> & H2).
      exists (s1 ++ a), b, pos', cm'. rewrite app_assoc. auto.
Qed.

Lemma closing_of pos s post cin cout :
  matches (cat [Patterns.optSemicolon; Eol]) pos s post cin cout ->
  closing s /\ post = [] /\ cout = cin.
Proof.
  intros H. apply peel_opt in H.
  destruct H as [(s1 & s2 & cm & pos' & -> & H1 & H)|H].
  - apply peel_eol in H. destruct H as (-> & -> & ->).
    apply peel_star in H1. destruct H1 as (w & s3 & p1 & -> & Hw & H1).
    apply peel_chr in H1. destruct H1 as (s4 & p2 & -> & [-> ->]).
    split; [|auto]. right. exists w. rewrite app_nil_r. split; auto.
  - apply peel_eol in H. destruct H as (-> & -> & ->).
    split; [left; reflexivity|auto].
Qed.

(** Every anchored expression of the translator opens with the keyword
    and whitespace. *)
Lemma keyword_prefix (rs : list regex) (s : str) (m : match_result) :
  js_match (cat (Bol :: text "select" :: plus ws :: rs)) s = Some m ->
  exists w tl pos post,
    s = lit "select" ++ w ++ tl ++ post /\ gap w
    /\ matches (cat rs) pos tl post [] (groups m).
Proof.
  intros H. apply js_match_sound in H.
  destruct H as (pre & post & -> & _ & H).
  apply peel_bol in H. destruct H as [Hpre H].
  destruct pre; [|discriminate]. clear Hpre.
  apply peel_text in H. destruct H as (s1 & p1 & -> & H).
  apply peel_plus in H. destruct H as (w & tl & p2 & -> & Hne & Hw & H).
  exists w, tl, p2, post. repeat split; try assumption.
  cbn [app]. rewrite <- !app_assoc. reflexivity.
Qed.

Lemma afterKeyword_gap (w r : str) :
  gap w -> afterKeyword (lit "select" ++ w ++ r) = trimStart r.
Proof.
  intros [_ Hw]. unfold afterKeyword. cbn [app lit list_ascii_of_string skipn].
  unfold blank in Hw. clear -Hw.
  induction w as [|y w IH]; simpl in *; [reflexivity|].
  apply andb_prop in Hw. destruct Hw as [Hy Hw]. rewrite Hy. auto.
Qed.

Lemma starts_with_star (rs : list regex) (s : str) (m : match_result) :
  js_match (cat (Bol :: text "select" :: plus ws :: chr "*" :: rs)) s = Some m ->
  exists r, afterKeyword s = "*"%char :: r.
Proof.
  intros H. apply keyword_prefix in H.
  destruct H as (w & tl & pos & post & -> & Hw & H).
  apply peel_chr in H. destruct H as (s2 & p1 & -> & _).
  rewrite (afterKeyword_gap _ Hw). eexists. reflexivity.
Qed.

Lemma starts_with_count (rs : list regex) (s : str) (m : match_result) :
  js_match (cat (Bol :: text "select" :: plus ws :: text "count(*)" :: rs)) s
  = Some m ->
  exists r, afterKeyword s = lit "count(*)" ++ r.
Proof.
  intros H. apply keyword_prefix in H.
  destruct H as (w & tl & pos & post & -> & Hw & H).
  apply peel_text in H. destruct H as (s2 & p1 & -> & _).
  rewrite (afterKeyword_gap _ Hw). eexists. reflexivity.
Qed.

Lemma starts_with_word (i : nat) (rs : list regex) (s : str) (m : match_result) :
  js_match (cat (Bol :: text "select" :: plus ws :: Grp i (plus word)
                     :: chr "," :: rs)) s = Some m ->
  exists x wd r,
    afterKeyword s = x :: wd ++ ","%char :: r
    /\ is_word x = true /\ forallb is_word wd = true.
Proof.
  intros H. apply keyword_prefix in H.
  destruct H as (w & tl & pos & post & -> & Hw & H).
  apply peel_group in H. destruct H as (t & s2 & p1 & -> & Hne & Ht & H).
  apply peel_chr in H. destruct H as (s3 & p2 & -> & _).
  destruct t as [|x wd]; [contradiction|].
  simpl in Ht. apply andb_prop in Ht. destruct Ht as [Hx Hwd].
  exists x, wd, (s3 ++ post). repeat split; [|exact Hx|exact Hwd].
  rewrite (afterKeyword_gap _ Hw). cbn [app trimStart].
  destruct (is_space x) eqn:E.
  - rewrite (space_not_word _ E) in Hx. discriminate.
  - rewrite <- app_assoc. reflexivity.
Qed.

(** Two ways of cutting a text after a run of one class agree. *)
Lemma span_unique (p : ascii -> bool) (l1 l2 : str) x y r1 r2 :
  forallb p l1 = true -> forallb p l2 = true ->
  p x = false -> p y = false ->
  l1 ++ x :: r1 = l2 ++ y :: r2 -> l1 = l2 /\ x = y /\ r1 = r2.
Proof.
  revert l2. induction l1 as [|a l1 IH]; intros [|b l2] H1 H2 Hx Hy E;
    simpl in *.
  - inversion E. auto.
  - inversion E; subst. apply andb_prop in H2. destruct H2. congruence.
  - inversion E; subst. apply andb_prop in H1. destruct H1. congruence.
  - inversion E; subst. apply andb_prop in H1. apply andb_prop in H2.
    destruct H1, H2.
    destruct (IH l2) as (-> & -> & ->); auto.
Qed.

Lemma dropWord_words (t r : str) :
  forallb is_word t = true -> dropWord (t ++ r) = dropWord r.
Proof.
  induction t as [|x t IH]; simpl; [reflexivity|].
  intros H. apply andb_prop in H. destruct H as [Hx Ht]. rewrite Hx. auto.
Qed.

Lemma trimStart_spaces_app (w r : str) :
  forallb is_space w = true -> trimStart (w ++ r) = trimStart r.
Proof.
  induction w as [|x w IH]; simpl; [reflexivity|].
  intros H. apply andb_prop in H. destruct H as [Hx Hw]. rewrite Hx. auto.
Qed.

(** The signature of a text that ends [... x, whitespace, word]. *)
Lemma beforeLastWord_word (s a : str) (x : ascii) (w t : str) :
  s = a ++ x :: w ++ t ->
  is_space x = false -> gap w -> forallb is_word t = true ->
  beforeLastWord s = Some x.
Proof.
  intros -> Hx [Hne Hw] Ht. unfold beforeLastWord, blank in *.
  rewrite rev_app_distr. cbn [rev]. rewrite rev_app_distr.
  rewrite <- !app_assoc.
  rewrite dropWord_words by (rewrite forallb_rev; exact Ht).
  assert (Hrw : forallb is_space (rev w) = true)
    by (rewrite forallb_rev; exact Hw).
  destruct (rev w) as [|z u] eqn:E.
  - apply (f_equal (@rev _)) in E. rewrite rev_involutive in E.
    elim Hne. exact E.
  - cbn [app dropWord]. simpl in Hrw. apply andb_prop in Hrw.
    destruct Hrw as [Hz Hu].
    rewrite (space_not_word _ Hz).
    cbn [trimStart]. rewrite Hz.
    rewrite trimStart_spaces_app by exact Hu.
    cbn [app trimStart]. rewrite Hx. reflexivity.
Qed.

Lemma beforeLastWord_semicolon (s a : str) :
  s = a ++ [";"%char] -> beforeLastWord s = Some ";"%char.
Proof.
  intros ->. unfold beforeLastWord. rewrite rev_app_distr. reflexivity.
Qed.

End Shapes.

Section ShapeEnds.

Ltac assoc_eq :=
  cbn [app lit list_ascii_of_string];
  rewrite ?app_nil_r;
  repeat (progress (rewrite <- ?app_assoc; cbn [app]));
  reflexivity.

Ltac conjuncts := repeat match goal with |- _ /\ _ => split end.

Ltac settle :=
  first [assumption | split; assumption | assoc_eq].

(** What a match of the count-all expression says about the text and
    about its groups. *)
Lemma countAll_shape (s : str) (m : match_result) :
  js_match Patterns.countAll s = Some m ->
  countAllText s (group m 1) (group1 m 2).
Proof.
  intros H. apply keyword_prefix in H.
  destruct H as (w1 & tl & p0 & post & -> & Hw1 & H).
  apply peel_text in H. destruct H as (s1 & p1 & -> & H).
  apply peel_star in H. destruct H as (w2 & s2 & p2 & -> & Hw2 & H).
  assert (Hrest : forall cm s3 p3,
            matches (cat [text "from"; plus ws; Grp 2 (plus word);
                          Patterns.optSemicolon; Eol]) p3 s3 post cm (groups m) ->
            exists w3 table semi,
              s3 = lit "from" ++ w3 ++ table ++ semi /\ post = []
              /\ gap w3 /\ wordText table /\ closing semi
              /\ groups m = (2, table) :: cm).
  { intros cm s3 p3 H3.
    apply peel_text in H3. destruct H3 as (s4 & p4 & -> & H3).
    apply peel_plus in H3. destruct H3 as (w3 & s5 & p5 & -> & Hn3 & Hw3 & H3).
    apply peel_group in H3. destruct H3 as (t & s6 & p6 & -> & Hnt & Ht & H3).
    apply closing_of in H3. destruct H3 as (Hc & -> & ->).
    exists w3, t, s6. conjuncts; settle. }
  apply peel_opt in H.
  destruct H as [(a & s3 & cm & p3 & -> & Ha & H)|H].
  - apply peel_text in Ha. destruct Ha as (a1 & q1 & -> & Ha).
    apply peel_plus in Ha. destruct Ha as (w4 & a2 & q2 & -> & Hn4 & Hw4 & Ha).
    apply peel_group in Ha. destruct Ha as (al & a3 & q3 & -> & Hna & Hal & Ha).
    apply peel_plus in Ha. destruct Ha as (w5 & a4 & q4 & -> & Hn5 & Hw5 & Ha).
    destruct Ha as [-> ->].
    apply Hrest in H.
    destruct H as (w3 & table & semi & -> & -> & Hg3 & Ht & Hc & Hm).
    unfold group1, group. rewrite Hm. cbn [assoc Nat.eqb].
    exists w1, w2, (lit "as" ++ w4 ++ al ++ w5), w3, semi.
    conjuncts; try settle.
    exists w4, w5. conjuncts; settle.
  - apply Hrest in H.
    destruct H as (w3 & table & semi & -> & -> & Hg3 & Ht & Hc & Hm).
    unfold group1, group. rewrite Hm. cbn [assoc Nat.eqb].
    exists w1, w2, [], w3, semi.
    conjuncts; settle.
Qed.

(** The same for the group-count expression. *)
Lemma groupBy_shape (s : str) (m : match_result) :
  js_match Patterns.groupBy s = Some m ->
  groupCountText s (group1 m 1) (group m 2) (group1 m 3) (group1 m 4).
Proof.
  intros H. apply keyword_prefix in H.
  destruct H as (w1 & tl & p0 & post & -> & Hw1 & H).
  apply peel_group in H. destruct H as (col & s1 & p1 & -> & Hnc & Hcol & H).
  apply peel_chr in H. destruct H as (s2 & p2 & -> & H).
  apply peel_star in H. destruct H as (w2 & s3 & p3 & -> & Hw2 & H).
  apply peel_text in H. destruct H as (s4 & p4 & -> & H).
  apply peel_star in H. destruct H as (w3 & s5 & p5 & -> & Hw3 & H).
  assert (Hrest : forall cm s6 p6,
            matches (cat [plus ws; text "from"; plus ws; Grp 3 (plus word);
                          plus ws; text "group"; plus ws; text "by"; plus ws;
                          Grp 4 (plus word); Eol]) p6 s6 post cm (groups m) ->
            exists w4 w5 table w6 w7 w8 col',
              s6 = w4 ++ lit "from" ++ w5 ++ table ++ w6 ++ lit "group"
                   ++ w7 ++ lit "by" ++ w8 ++ col'
              /\ post = []
              /\ gap w4 /\ gap w5 /\ gap w6 /\ gap w7 /\ gap w8
              /\ wordText table /\ wordText col'
              /\ groups m = (4, col') :: (3, table) :: cm).
  { intros cm s6 p6 H6.
    apply peel_plus in H6. destruct H6 as (w4 & t1 & q1 & -> & Hn4 & Hw4 & H6).
    apply peel_text in H6. destruct H6 as (t2 & q2 & -> & H6).
    apply peel_plus in H6. destruct H6 as (w5 & t3 & q3 & -> & Hn5 & Hw5 & H6).
    apply peel_group in H6. destruct H6 as (tb & t4 & q4 & -> & Hnt & Htb & H6).
    apply peel_plus in H6. destruct H6 as (w6 & t5 & q5 & -> & Hn6 & Hw6 & H6).
    apply peel_text in H6. destruct H6 as (t6 & q6 & -> & H6).
    apply peel_plus in H6. destruct H6 as (w7 & t7 & q7 & -> & Hn7 & Hw7 & H6).
    apply peel_text in H6. destruct H6 as (t8 & q8 & -> & H6).
    apply peel_plus in H6. destruct H6 as (w8 & t9 & q9 & -> & Hn8 & Hw8 & H6).
    apply peel_group in H6. destruct H6 as (c' & t10 & q10 & -> & Hnc' & Hc' & H6).
    apply peel_eol in H6. destruct H6 as (-> & -> & ->).
    exists w4, w5, tb, w6, w7, w8, c'.
    conjuncts; settle. }
  apply peel_opt in H.
  destruct H as [(a & s6 & cm & p6 & -> & Ha & H)|H].
  - apply peel_text in Ha. destruct Ha as (a1 & q1 & -> & Ha).
    apply peel_plus in Ha. destruct Ha as (w9 & a2 & q2 & -> & Hn9 & Hw9 & Ha).
    apply peel_group in Ha. destruct Ha as (al & a3 & q3 & -> & Hna & Hal & Ha).
    destruct Ha as [-> ->].
    apply Hrest in H.
    destruct H as (w4 & w5 & tb & w6 & w7 & w8 & c' & -> & -> & H4 & H5 & H6
                   & H7 & H8 & Htb & Hc' & Hm).
    unfold group1, group. rewrite Hm. cbn [assoc Nat.eqb].
    exists w1, w2, w3, (lit "as" ++ w9 ++ al), w4, w5, w6, w7, w8.
    conjuncts; try settle.
    exists w9. conjuncts; settle.
  - apply Hrest in H.
    destruct H as (w4 & w5 & tb & w6 & w7 & w8 & c' & -> & -> & H4 & H5 & H6
                   & H7 & H8 & Htb & Hc' & Hm).
    unfold group1, group. rewrite Hm. cbn [assoc Nat.eqb].
    exists w1, w2, w3, [], w4, w5, w6, w7, w8.
    conjuncts; settle.
Qed.

(** The same for the loose expression, which may match anywhere. *)
Lemma basicSelect_shape (s : str) (m : match_result) :
  js_match Patterns.basicSelect s = Some m ->
  looseSelectText s (group1 m 1).
Proof.
  intros H. apply js_match_sound in H.
  destruct H as (pre & post & Hs & _ & H).
  unfold Patterns.basicSelect in H.
  apply peel_text in H. destruct H as (s1 & p1 & E1 & H).
  apply peel_star in H. destruct H as (d1 & s2 & p2 & -> & Hd1 & H).
  apply peel_chr in H. destruct H as (s3 & p3 & -> & H).
  apply peel_star in H. destruct H as (d2 & s4 & p4 & -> & Hd2 & H).
  apply peel_text in H. destruct H as (s5 & p5 & -> & H).
  apply peel_plus in H. destruct H as (w & s6 & p6 & -> & Hnw & Hw & H).
  apply peel_group in H. destruct H as (t & s7 & p7 & -> & Hnt & Ht & H).
  destruct H as [-> Hm].
  unfold group1, group. rewrite Hm. cbn [assoc Nat.eqb].
  exists pre, d1, d2, w, post. conjuncts; try settle.
  rewrite Hs, E1. assoc_eq.
Qed.

(** A group-count text ends [... by, whitespace, word]. *)
Lemma groupBy_end (s : str) (m : match_result) :
  js_match Patterns.groupBy s = Some m -> beforeLastWord s = Some "y"%char.
Proof.
  intros H. apply groupBy_shape in H.
  destruct H as (w1 & w2 & w3 & mid & w4 & w5 & w6 & w7 & w8 & -> & _ & _ & _
                 & _ & _ & _ & _ & H8 & _ & _ & [_ Hc'] & _).
  eapply (@beforeLastWord_word _ _ "y"%char w8 (group1 m 4));
    [|reflexivity|exact H8|exact Hc'].
  instantiate (1 := lit "select" ++ w1 ++ group1 m 1 ++ lit "," ++ w2
                    ++ lit "count(*)" ++ w3 ++ mid ++ w4 ++ lit "from" ++ w5
                    ++ group1 m 3 ++ w6 ++ lit "group" ++ w7 ++ lit "b").
  assoc_eq.
Qed.

(** A column-list text ends with a terminator, with [... limit,
    whitespace, digits] or with [... from, whitespace, word]. *)
Lemma selectColumns_end (s : str) (m : match_result) :
  js_match Patterns.selectColumns s = Some m ->
  beforeLastWord s = Some ";"%char
  \/ beforeLastWord s = Some "t"%char
  \/ beforeLastWord s = Some "m"%char.
Proof.
  intros H. apply keyword_prefix in H.
  destruct H as (w1 & tl & p0 & post & -> & Hw1 & H).
  apply (cat_skip 2) in H. cbn [skipn] in H.
  destruct H as (a & b & p1 & cm & -> & H).
  apply peel_text in H. destruct H as (s1 & p2 & -> & H).
  apply peel_plus in H. destruct H as (w & s2 & p3 & -> & Hnw & Hw & H).
  apply peel_group in H. destruct H as (t & s3 & p4 & -> & Hnt & Ht & H).
  apply peel_opt in H.
  destruct H as [(lim & s4 & c1 & p5 & -> & Hlim & H)|H].
  - apply closing_of in H. destruct H as (Hc & -> & _).
    destruct Hc as [->|(w5 & _ & ->)].
    + right. left.
      apply peel_plus in Hlim.
      destruct Hlim as (w3 & l1 & q1 & -> & _ & _ & Hlim).
      apply peel_text in Hlim. destruct Hlim as (l2 & q2 & -> & Hlim).
      apply peel_plus in Hlim.
      destruct Hlim as (w4 & l3 & q3 & -> & Hn4 & Hw4 & Hlim).
      apply peel_group in Hlim.
      destruct Hlim as (d & l4 & q4 & -> & Hnd & Hd & [-> _]).
      eapply (@beforeLastWord_word _ _ "t"%char w4 d);
        [|reflexivity|split; assumption|apply digits_are_words; exact Hd].
      instantiate (1 := lit "select" ++ w1 ++ a ++ lit "from" ++ w ++ t
                        ++ w3 ++ lit "limi").
      assoc_eq.
    + left.
      eapply beforeLastWord_semicolon with
        (a := lit "select" ++ w1 ++ a ++ lit "from" ++ w ++ t ++ lim ++ w5).
      assoc_eq.
  - apply closing_of in H. destruct H as (Hc & -> & _).
    destruct Hc as [->|(w5 & _ & ->)].
    + right. right.
      eapply (@beforeLastWord_word _ _ "m"%char w t);
        [|reflexivity|split; assumption|exact Ht].
      instantiate (1 := lit "select" ++ w1 ++ a ++ lit "fro").
      assoc_eq.
    + left.
      eapply beforeLastWord_semicolon with
        (a := lit "select" ++ w1 ++ a ++ lit "from" ++ w ++ t ++ w5).
      assoc_eq.
Qed.

End ShapeEnds.

(** The converse of the shape lemmas: a text of the shape is matched. *)
Section ShapeBuild.

Unset Implicit Arguments.

Lemma build_chars (l : str) :
  forall ix post c, matches (cat (map chr l)) ix l post c c.
Proof.
  induction l as [|x l IH]; intros ix post c; simpl.
  - auto.
  - exists [x], l, c. repeat split; [|apply IH].
    exists x. split; [reflexivity|apply Ascii.eqb_refl].
Qed.

Lemma build_text (t : string) ix post c :
  matches (text t) ix (lit t) post c c.
Proof. apply build_chars. Qed.

Lemma build_chr (x : ascii) ix post c : matches (chr x) ix [x] post c c.
Proof.
  split; [|reflexivity]. exists x. split; [reflexivity|apply Ascii.eqb_refl].
Qed.

Lemma build_star (p : ascii -> bool) (w : str) :
  forallb p w = true ->
  forall ix post c, matches (Star (Cls p)) ix w post c c.
Proof.
  induction w as [|x w IH]; intros H ix post c; cbn [matches].
  - constructor.
  - simpl in H. apply andb_prop in H. destruct H as [Hx Hw].
    change (x :: w) with ([x] ++ w). econstructor.
    + split; [|reflexivity]. exists x. auto.
    + apply IH. exact Hw.
Qed.

Lemma build_plus (p : ascii -> bool) (w : str) :
  w <> [] -> forallb p w = true ->
  forall ix post c, matches (plus (Cls p)) ix w post c c.
Proof.
  intros Hne H ix post c. destruct w as [|x w]; [contradiction|].
  simpl in H. apply andb_prop in H. destruct H as [Hx Hw].
  exists [x], w, c. repeat split.
  - exists x. auto.
  - apply (build_star p w Hw).
Qed.

Lemma build_group (i : nat) (p : ascii -> bool) (w : str) :
  w <> [] -> forallb p w = true ->
  forall ix post c, matches (Grp i (plus (Cls p))) ix w post c ((i, w) :: c).
Proof.
  intros Hne H ix post c. exists c. split; [|reflexivity].
  apply build_plus; assumption.
Qed.

Lemma build_cons r rs ix s1 s2 post c0 c1 c2 :
  matches r ix s1 (s2 ++ post) c0 c1 ->
  matches (cat rs) (ix + length s1) s2 post c1 c2 ->
  matches (cat (r :: rs)) ix (s1 ++ s2) post c0 c2.
Proof. intros H1 H2. exists s1, s2, c1. auto. Qed.

Lemma build_bol rs s post c0 c1 :
  matches (cat rs) 0 s post c0 c1 -> matches (cat (Bol :: rs)) 0 s post c0 c1.
Proof. intros H. exists [], s, c0. simpl. auto. Qed.

Lemma build_last r ix s post c0 c1 :
  matches r ix s post c0 c1 -> matches (cat [r]) ix s post c0 c1.
Proof.
  intros H. exists s, [], c1. rewrite app_nil_r. simpl. auto.
Qed.

Lemma build_closing (semi : str) :
  closing semi ->
  forall ix c, matches (cat [Patterns.optSemicolon; Eol]) ix semi [] c c.
Proof.
  intros [->|(w & Hw & ->)] ix c.
  - exists [], [], c. repeat split.
    + right. split; reflexivity.
    + exists [], [], c. repeat split.
  - exists (w ++ lit ";"), [], c. rewrite app_nil_r. repeat split.
    + left. eapply build_cons; [apply build_star; exact Hw|].
      apply build_last. apply build_chr.
    + exists [], [], c. repeat split.
Qed.

Ltac link := eapply build_cons.
Ltac piece :=
  first [ apply build_text | apply build_chr
        | apply build_star; assumption
        | apply build_plus; assumption
        | apply build_group; assumption ].

Ltac found_at_start :=
  match goal with
  | |- js_match _ ?t <> None =>
      eapply js_match_complete
        with (pre := []) (mid := t) (post := []) (cin := []);
      [rewrite app_nil_r; reflexivity|]
  end.

Lemma countAll_complete (s : str) (alias : option str) (table : str) :
  countAllText s alias table -> js_match Patterns.countAll s <> None.
Proof.
  intros (w1 & w2 & mid & w3 & semi & -> & [Hn1 Hw1] & Hw2 & [Hn3 Hw3]
          & [Hnt Ht] & Hc & Hmid).
  unfold blank in *. destruct alias as [a|].
  - destruct Hmid as (w4 & w5 & -> & [Hn4 Hw4] & [Hn5 Hw5] & [Hna Ha]).
    unfold blank in *. found_at_start.
    unfold Patterns.countAll. apply build_bol.
    link; [piece|]. link; [piece|]. link; [piece|]. link; [piece|].
    link.
    { left. link; [piece|]. link; [piece|]. link; [piece|].
      apply build_last. piece. }
    link; [piece|]. link; [piece|]. link; [piece|].
    apply build_closing. exact Hc.
  - subst mid. found_at_start.
    unfold Patterns.countAll. apply build_bol.
    link; [piece|]. link; [piece|]. link; [piece|]. link; [piece|].
    link; [right; split; reflexivity|].
    link; [piece|]. link; [piece|]. link; [piece|].
    apply build_closing. exact Hc.
Qed.

Lemma groupBy_complete (s col : str) (alias : option str) (table col' : str) :
  groupCountText s col alias table col' ->
  js_match Patterns.groupBy s <> None.
Proof.
  intros (w1 & w2 & w3 & mid & w4 & w5 & w6 & w7 & w8 & -> & [Hn1 Hw1] & Hw2
          & Hw3 & [Hn4 Hw4] & [Hn5 Hw5] & [Hn6 Hw6] & [Hn7 Hw7] & [Hn8 Hw8]
          & [Hnc Hc] & [Hnt Ht] & [Hnc' Hc'] & Hmid).
  unfold blank in *.
  assert (Htail : forall ix c,
            matches
              (cat [plus ws; text "from"; plus ws; Grp 3 (plus word);
                    plus ws; text "group"; plus ws; text "by"; plus ws;
                    Grp 4 (plus word); Eol]) ix
              (w4 ++ lit "from" ++ w5 ++ table ++ w6 ++ lit "group" ++ w7
               ++ lit "by" ++ w8 ++ col') [] c
              ((4, col') :: (3, table) :: c)).
  { intros ix c.
    link; [piece|]. link; [piece|]. link; [piece|]. link; [piece|].
    link; [piece|]. link; [piece|]. link; [piece|]. link; [piece|].
    link; [piece|].
    rewrite <- (app_nil_r col') at 1. link; [piece|].
    exists [], [], ((4, col') :: (3, table) :: c). repeat split. }
  destruct alias as [a|].
  - destruct Hmid as (w9 & -> & [Hn9 Hw9] & [Hna Ha]). unfold blank in *.
    found_at_start. unfold Patterns.groupBy. apply build_bol.
    link; [piece|]. link; [piece|]. link; [piece|].
    change (lit ",") with [","%char]. link; [piece|].
    link; [piece|]. link; [piece|]. link; [piece|].
    link.
    { left. link; [piece|]. link; [piece|]. apply build_last. piece. }
    apply Htail.
  - subst mid. found_at_start. unfold Patterns.groupBy. apply build_bol.
    link; [piece|]. link; [piece|]. link; [piece|].
    change (lit ",") with [","%char]. link; [piece|].
    link; [piece|]. link; [piece|]. link; [piece|].
    link; [right; split; reflexivity|].
    apply Htail.
Qed.

Set Implicit Arguments.

End ShapeBuild.

Section Exclusion.

Lemma countAll_excludes (s : str) (m : match_result) :
  js_match Patterns.countAll s = Some m ->
  js_match Patterns.simpleSelect s = None.
Proof.
  intros H. destruct (js_match Patterns.simpleSelect s) eqn:E; [|reflexivity].
  exfalso.
  apply starts_with_count in H. destruct H as (r & H).
  apply starts_with_star in E. destruct E as (r' & E).
  rewrite E in H. discriminate.
Qed.

Lemma word_not_count (x : ascii) (wd r r' : str) :
  is_word x = true -> forallb is_word wd = true ->
  lit "count(*)" ++ r' <> x :: wd ++ ","%char :: r.
Proof.
  intros Hx Hwd E. cbn [lit list_ascii_of_string app] in E.
  inversion E as [[Ex E']].
  destruct (@span_unique is_word (lit "ount") wd "("%char ","%char
              (lit "*)" ++ r') r) as (_ & Hc & _);
    try reflexivity; try assumption.
  discriminate.
Qed.

Lemma groupBy_excludes (s : str) (m : match_result) :
  js_match Patterns.groupBy s = Some m ->
  js_match Patterns.simpleSelect s = None
  /\ js_match Patterns.countAll s = None
  /\ js_match Patterns.whereString s = None
  /\ js_match Patterns.whereNum s = None
  /\ js_match Patterns.selectColumns s = None.
Proof.
  intros H.
  pose proof (groupBy_end _ H) as Hend.
  apply starts_with_word in H.
  destruct H as (x & wd & r & Hs & Hx & Hwd).
  assert (Hstar : forall r', afterKeyword s <> "*"%char :: r').
  { intros r' E. rewrite E in Hs. inversion Hs; subst x. discriminate. }
  repeat split.
  - destruct (js_match Patterns.simpleSelect s) eqn:E; [|reflexivity].
    apply starts_with_star in E. destruct E as (r' & E).
    elim (Hstar _ E).
  - destruct (js_match Patterns.countAll s) eqn:E; [|reflexivity].
    apply starts_with_count in E. destruct E as (r' & E).
    rewrite E in Hs. elim (word_not_count _ _ Hx Hwd Hs).
  - destruct (js_match Patterns.whereString s) eqn:E; [|reflexivity].
    apply starts_with_star in E. destruct E as (r' & E).
    elim (Hstar _ E).
  - destruct (js_match Patterns.whereNum s) eqn:E; [|reflexivity].
    apply starts_with_star in E. destruct E as (r' & E).
    elim (Hstar _ E).
  - destruct (js_match Patterns.selectColumns s) eqn:E; [|reflexivity].
    apply selectColumns_end in E. rewrite Hend in E.
    destruct E as [E|[E|E]]; discriminate.
Qed.

End Exclusion.

(** ** Objects as counters *)

Section Objects.

Lemma define_first (k : str) (v : json) : define [] k v = [(k, v)].
Proof.
  unfold define. cbn [own]. destruct (array_index k); reflexivity.
Qed.

Lemma own_replace_same (k : str) (v v0 : json) (g : obj) :
  own g k = Some v0 -> own (replace_own k v g) k = Some v.
Proof.
  induction g as [|[k' v'] g IH]; simpl; [discriminate|].
  destruct (str_eqb k' k) eqn:E; simpl; rewrite E; auto.
Qed.

Lemma own_replace_other (k k0 : str) (v : json) (g : obj) :
  k0 <> k -> own (replace_own k v g) k0 = own g k0.
Proof.
  intros Hne. induction g as [|[k' v'] g IH]; simpl; [reflexivity|].
  destruct (str_eqb k' k) eqn:E; simpl.
  - destruct (str_eqb k' k0) eqn:E0; [|reflexivity].
    apply str_eqb_eq in E, E0. congruence.
  - rewrite IH. reflexivity.
Qed.

Lemma keys_replace (k : str) (v : json) (g : obj) :
  map fst (replace_own k v g) = map fst g.
Proof.
  induction g as [|[k' v'] g IH]; simpl; [reflexivity|].
  destruct (str_eqb k' k); simpl; [reflexivity|]. rewrite IH. reflexivity.
Qed.

Lemma own_insert_same (n : Z) (k : str) (v : json) (g : obj) :
  own g k = None -> own (insert_index n k v g) k = Some v.
Proof.
  induction g as [|[k' v'] g IH]; simpl.
  - rewrite str_eqb_refl. reflexivity.
  - destruct (str_eqb k' k) eqn:E; [discriminate|]. intros H.
    destruct (array_index k') as [n'|]; [destruct (n <? n')%Z|]; simpl;
      rewrite ?str_eqb_refl, ?E; auto.
Qed.

Lemma own_insert_other (n : Z) (k k0 : str) (v : json) (g : obj) :
  k0 <> k -> own (insert_index n k v g) k0 = own g k0.
Proof.
  intros Hne.
  assert (Hk : str_eqb k k0 = false) by (apply str_eqb_neq; congruence).
  induction g as [|[k' v'] g IH]; simpl.
  - rewrite Hk. reflexivity.
  - destruct (array_index k') as [n'|]; [destruct (n <? n')%Z|]; simpl;
      rewrite ?Hk; try reflexivity.
    rewrite IH. reflexivity.
Qed.

Lemma keys_insert (n : Z) (k : str) (v : json) (g : obj) :
  Add k (map fst g) (map fst (insert_index n k v g)).
Proof.
  induction g as [|[k' v'] g IH]; simpl; [constructor|].
  destruct (array_index k') as [n'|]; [destruct (n <? n')%Z|]; simpl;
    try constructor.
  exact IH.
Qed.

Lemma own_app (g h : obj) (k : str) :
  own (g ++ h) k = match own g k with Some x => Some x | None => own h k end.
Proof.
  induction g as [|[k' v'] g IH]; simpl; [reflexivity|].
  destruct (str_eqb k' k); auto.
Qed.

Lemma own_notin (g : obj) (k : str) :
  own g k = None -> ~ In k (map fst g).
Proof.
  induction g as [|[k' v'] g IH]; simpl; [tauto|].
  destruct (str_eqb k' k) eqn:E; [discriminate|].
  intros H [Hk|Hk]; [|exact (IH H Hk)].
  subst k'. rewrite str_eqb_refl in E. discriminate.
Qed.

Lemma own_in (g : obj) (k : str) (v : json) :
  own g k = Some v -> In k (map fst g).
Proof.
  induction g as [|[k' v'] g IH]; simpl; [discriminate|].
  destruct (str_eqb k' k) eqn:E; [|auto].
  apply str_eqb_eq in E. auto.
Qed.

Lemma own_define_same (g : obj) (k : str) (v : json) :
  own (define g k v) k = Some v.
Proof.
  unfold define. destruct (own g k) eqn:E.
  - eapply own_replace_same; exact E.
  - destruct (array_index k).
    + apply own_insert_same; exact E.
    + rewrite own_app, E. simpl. rewrite str_eqb_refl. reflexivity.
Qed.

Lemma own_define_other (g : obj) (k k0 : str) (v : json) :
  k0 <> k -> own (define g k v) k0 = own g k0.
Proof.
  intros Hne. unfold define. destruct (own g k) eqn:E.
  - apply own_replace_other; exact Hne.
  - destruct (array_index k).
    + apply own_insert_other; exact Hne.
    + rewrite own_app. destruct (own g k0); [reflexivity|].
      simpl. rewrite str_eqb_neq by congruence. reflexivity.
Qed.

Lemma keys_define (g : obj) (k : str) (v : json) :
  NoDup (map fst g) -> NoDup (map fst (define g k v)).
Proof.
  intros Hnd. unfold define. destruct (own g k) eqn:E.
  - rewrite keys_replace. exact Hnd.
  - apply own_notin in E. destruct (array_index k).
    + eapply NoDup_Add; [apply keys_insert|]. auto.
    + rewrite map_app. simpl.
      eapply NoDup_Add; [apply Add_app|].
      rewrite app_nil_r. auto.
Qed.

Lemma length_define_new (g : obj) (k : str) (v : json) :
  own g k = None -> length (define g k v) = S (length g).
Proof.
  intros E. unfold define. rewrite E. destruct (array_index k).
  - rewrite <- (length_map fst), <- (length_map fst g).
    exact (Add_length (keys_insert z k v g)).
  - rewrite length_app. simpl. lia.
Qed.

(** With distinct names, [{ [k1]: v1, [k2]: v2 }] has exactly the two
    fields. *)
Lemma object2_fields (k1 k2 : str) (v1 v2 : json) :
  k2 <> k1 ->
  exists fields,
    object2 k1 v1 k2 v2 = JObj fields /\ length fields = 2
    /\ own fields k1 = Some v1 /\ own fields k2 = Some v2.
Proof.
  intros Hne. unfold object2. rewrite define_first.
  assert (E : own [(k1, v1)] k2 = None).
  { simpl. rewrite str_eqb_neq by congruence. reflexivity. }
  eexists. split; [reflexivity|]. repeat split.
  - rewrite length_define_new by exact E. reflexivity.
  - rewrite own_define_other by congruence. simpl.
    rewrite str_eqb_refl. reflexivity.
  - apply own_define_same.
Qed.

End Objects.

(** ** The validation gate *)

Section Validation.

Variable supabaseClient : option client.

Lemma executeDbQuery_unfold (generatedQuery : str) :
  executeDbQuery generatedQuery supabaseClient =
  let trimmedQuery := cleaned generatedQuery in
  let lowerCaseQuery := toLowerCase trimmedQuery in
  if negb (startsWith lowerCaseQuery (lit "select"))
  then throw msgNotSelect
  else if existsb (fun w => includes lowerCaseQuery (lit w)) forbidden
  then throw msgForbidden
  else if includes trimmedQuery (lit ";")
          && (1 <? length (filter (fun s => truthy (JStr (trim s)))
                                  (split ";" trimmedQuery)))
  then throw msgMultiple
  else
    match supabaseClient with
    | None => throw msgNoClient
    | Some c => executeViaSupabaseRPC trimmedQuery c
    end.
Proof. reflexivity. Qed.

Lemma cleaned_blank (rawText : str) :
  trim rawText = [] -> cleaned rawText = [].
Proof.
  intros H. unfold cleaned. rewrite H. reflexivity.
Qed.

Lemma messages_distinct :
  msgNotSelect <> msgForbidden /\ msgNotSelect <> msgMultiple
  /\ msgForbidden <> msgMultiple.
Proof. repeat split; discriminate. Qed.

(** C6.  A text that, once cleaned, does not start with [select] in any
    letter case is rejected with the read-only message before anything
    else is looked at: no backend request is issued, and the forbidden
    keyword check that comes later plays no part. *)
Theorem C6_not_select_rejected_first (generatedQuery : str) :
  startsWith (toLowerCase (cleaned generatedQuery)) (lit "select") = false ->
  executeDbQuery generatedQuery supabaseClient = ([], Throw msgNotSelect)
  /\ msgNotSelect <> msgForbidden.
Proof.
  intros H. split.
  - rewrite executeDbQuery_unfold. cbv zeta. rewrite H. reflexivity.
  - apply messages_distinct.
Qed.

(** C5 (amended).  A text that is empty after trimming is rejected with
    the same read-only message as any other text that does not start with
    [select]; no backend request is issued. *)
Theorem C5_blank_rejected_as_not_select (generatedQuery : str) :
  trim generatedQuery = [] ->
  executeDbQuery generatedQuery supabaseClient = ([], Throw msgNotSelect).
Proof.
  intros H. rewrite executeDbQuery_unfold. cbv zeta.
  rewrite (cleaned_blank _ H). reflexivity.
Qed.

Lemma wholeWordFrom_included (s w : str) :
  forall prev, wholeWordFrom prev s w = true -> includes s w = true.
Proof.
  induction s as [|x s IH]; intros prev H; simpl in H |- *.
  - rewrite orb_false_r in H.
    apply andb_prop in H. destruct H as [H _].
    apply andb_prop in H. destruct H as [_ H]. rewrite H. reflexivity.
  - apply orb_prop in H. destruct H as [H|H].
    + apply andb_prop in H. destruct H as [H _].
      apply andb_prop in H. destruct H as [_ H]. rewrite H. reflexivity.
    + rewrite (IH _ H). apply orb_true_r.
Qed.

(** The half of the whole-word rule that the code does keep: a [select]
    in which a mutating keyword stands as a whole word is rejected. *)
Lemma whole_word_rejected (generatedQuery : str) :
  startsWith (toLowerCase (cleaned generatedQuery)) (lit "select") = true ->
  existsb (fun w => wholeWord (toLowerCase (cleaned generatedQuery)) (lit w))
          forbidden = true ->
  executeDbQuery generatedQuery supabaseClient = ([], Throw msgForbidden).
Proof.
  intros Hsel Hw. rewrite executeDbQuery_unfold. cbv zeta.
  rewrite Hsel. cbn [negb].
  replace (existsb _ forbidden) with true; [reflexivity|].
  symmetry. apply existsb_exists. apply existsb_exists in Hw.
  destruct Hw as (w & Hin & Hw). exists w. split; [exact Hin|].
  exact (wholeWordFrom_included _ _ _ Hw).
Qed.

(** C1 (the code at the failing inputs).  In
    [SELECT created_at FROM users] no mutating keyword stands as a whole
    word, yet the text is rejected as containing one, by [executeDbQuery]
    and so by the controller that calls it: [create] is found inside
    [created_at].  The controller's own test rejects
    [SELECT updated_at FROM users] in the same way. *)
Theorem C1_created_at_rejected :
  existsb (fun w => wholeWord (toLowerCase (cleaned (lit "SELECT created_at FROM users"))) (lit w))
          forbidden = false
  /\ executeDbQuery (lit "SELECT created_at FROM users") supabaseClient
     = ([], Throw msgForbidden)
  /\ Controller.executeGenerated (lit "SELECT created_at FROM users")
                                 supabaseClient
     = ([], Throw msgForbidden)
  /\ existsb (fun w => wholeWord (toLowerCase (lit "SELECT updated_at FROM users")) (lit w))
             (forbidden ++ Controller.blockedWords) = false
  /\ Controller.executeGenerated (lit "SELECT updated_at FROM users")
                                 supabaseClient
     = ([], Throw Controller.msgDangerous).
Proof. repeat split; reflexivity. Qed.

End Validation.

(** C6 at [DROP TABLE users]: the text holds the forbidden word [drop]
    and is still answered with the read-only message. *)
Lemma C6_witness :
  existsb (fun w => includes (toLowerCase (cleaned (lit "DROP TABLE users"))) (lit w))
          forbidden = true
  /\ executeDbQuery (lit "DROP TABLE users") None = ([], Throw msgNotSelect)
  /\ msgNotSelect <> msgForbidden.
Proof.
  split; [reflexivity|].
  apply (@C6_not_select_rejected_first None (lit "DROP TABLE users")).
  reflexivity.
Defined.

(** C5 as stated fails: the whitespace-only text is empty after trimming
    and is answered with the message of a text that is not a [select];
    there is no reason of its own for it. *)
Lemma C5_counterexample :
  trim (lit "   ") = []
  /\ ~ (exists reason, reason <> msgNotSelect
        /\ executeDbQuery (lit "   ") None = ([], Throw reason)).
Proof.
  split; [reflexivity|].
  intros (reason & Hne & H). apply Hne.
  change (executeDbQuery (lit "   ") None) with (@throw json msgNotSelect) in H.
  unfold throw in H. congruence.
Qed.

Lemma C5_witness :
  executeDbQuery (lit "   ") None = ([], Throw msgNotSelect).
Proof.
  apply (@C5_blank_rejected_as_not_select None (lit "   ")). reflexivity.
Defined.

Section MultipleStatements.

Variable supabaseClient : option client.

(** C7 (amended).  A text that starts with [select], holds no forbidden
    keyword and, once cleaned, still has content after an internal
    terminator is rejected as several statements, before any backend
    request. *)
Theorem C7_second_statement_rejected (generatedQuery : str) :
  startsWith (toLowerCase (cleaned generatedQuery)) (lit "select") = true ->
  existsb (fun w => includes (toLowerCase (cleaned generatedQuery)) (lit w))
          forbidden = false ->
  secondStatement (cleaned generatedQuery) ->
  executeDbQuery generatedQuery supabaseClient = ([], Throw msgMultiple).
Proof.
  intros Hsel Hforb Hsec.
  rewrite executeDbQuery_unfold. cbv zeta.
  rewrite Hsel, Hforb. simpl negb. cbv iota.
  destruct (two_statements Hsel Hsec) as [Hinc Hlen].
  rewrite Hinc. fold nonBlank. rewrite Hlen. reflexivity.
Qed.

End MultipleStatements.

Lemma C7_witness :
  executeDbQuery (lit "SELECT 1; SELECT 2") None = ([], Throw msgMultiple).
Proof.
  apply (@C7_second_statement_rejected None (lit "SELECT 1; SELECT 2")).
  - reflexivity.
  - reflexivity.
  - exists (lit "SELECT 1"), (lit " SELECT 2"). split; reflexivity.
Defined.

(** C7 as stated fails: two statements of which the first is not a
    [select] are answered with the read-only message, and a [select]
    followed by a [delete] with the forbidden-keyword message.  A
    terminator followed only by further terminators does not count as a
    second statement either: the text goes to the backend. *)
Lemma C7_counterexample :
  secondStatement (cleaned (lit "DROP TABLE a; DROP TABLE b"))
  /\ executeDbQuery (lit "DROP TABLE a; DROP TABLE b") None
     = ([], Throw msgNotSelect)
  /\ secondStatement (cleaned (lit "SELECT 1; DELETE FROM t"))
  /\ executeDbQuery (lit "SELECT 1; DELETE FROM t") None
     = ([], Throw msgForbidden)
  /\ msgNotSelect <> msgMultiple /\ msgForbidden <> msgMultiple
  /\ cleaned (lit "SELECT 1;; ;") = lit "SELECT 1" ++ lit ";" ++ lit ";"
  /\ existsb (fun x => negb (is_space x)) (lit ";") = true
  /\ executeDbQuery (lit "SELECT 1;; ;") (Some Samples.withRpc)
     = ([RpcCall (lit "execute_sql") (lit "SELECT 1")],
        Return (JArr (map JObj Samples.products))).
Proof.
  split; [|split; [|split; [|split]]].
  - exists (lit "DROP TABLE a"), (lit " DROP TABLE b"). split; reflexivity.
  - reflexivity.
  - exists (lit "SELECT 1"), (lit " DELETE FROM t"). split; reflexivity.
  - reflexivity.
  - repeat split; try discriminate; vm_compute; reflexivity.
Qed.

(** ** The pattern translator *)

Section Translator.

Variable c : client.

(** The cascade of the source is the first-match rule over the seven
    shapes in priority order. *)
Lemma translate_refines (query : str) :
  parseAndExecuteQuery query c = translateByPriority priority query c.
Proof.
  unfold parseAndExecuteQuery, translateByPriority, priority, fromGroupBy.
  cbv zeta. cbn [firstMatch recognize].
  destruct (js_match Patterns.simpleSelect _); [reflexivity|].
  destruct (js_match Patterns.countAll _); [reflexivity|].
  destruct (js_match Patterns.whereString _); [reflexivity|].
  destruct (js_match Patterns.whereNum _); [reflexivity|].
  destruct (js_match Patterns.selectColumns _); [reflexivity|].
  destruct (js_match Patterns.groupBy _) as [m|].
  - destruct (str_eqb (group1 m 1) (group1 m 4)); [reflexivity|].
    destruct (js_match Patterns.basicSelect _); reflexivity.
  - destruct (js_match Patterns.basicSelect _); reflexivity.
Qed.

Lemma rowsOf_eq (b : builder) :
  rowsOf c b = ([QueryCall b], answerOf (await c b)).
Proof.
  unfold rowsOf, run_query, bind, answerOf.
  destruct (error (await c b)); reflexivity.
Qed.

(** Every shape issues exactly one request to the builder. *)
Lemma issue_one_call (sh : shape) (m : match_result) :
  exists b, fst (issue sh c m) = [QueryCall b].
Proof.
  destruct sh; cbn [issue];
    unfold simpleSelectBranch, whereStringBranch, whereNumBranch,
           selectColumnsBranch, basicSelectBranch;
    try (rewrite rowsOf_eq; eexists; reflexivity).
  - unfold countBranch, run_query, bind.
    destruct (error (await c _)); eexists; reflexivity.
  - unfold groupByBranch, run_query, bind.
    destruct (error (await c _)); [eexists; reflexivity|].
    destruct (data (await c _)); eexists; reflexivity.
Qed.

Lemma translator_calls (query : str) :
  rpcCalls (fst (parseAndExecuteQuery query c)) = []
  /\ length (queryCalls (fst (parseAndExecuteQuery query c))) <= 1.
Proof.
  rewrite translate_refines. unfold translateByPriority.
  destruct (firstMatch priority _) as [[sh m]|].
  - destruct (issue_one_call sh m) as (b & ->). split; [reflexivity|].
    simpl. lia.
  - split; [reflexivity|]. simpl. lia.
Qed.


Lemma firstMatch_recognize (shapes : list shape) (sh : shape)
      (text : str) (m : match_result) :
  firstMatch shapes text = Some (sh, m) -> recognize sh text = Some m.
Proof.
  induction shapes as [|b shapes IH]; simpl; [discriminate|].
  destruct (recognize b text) eqn:E; [|exact IH].
  intros H. inversion H; subst. exact E.
Qed.

(** C10.  When the loose shape is the first to match, the text holds
    [select], later a star and later [from] and a word; the call issued
    is a select of every column of the table that word names, with
    neither filter nor limit, whatever else the text holds, and its rows
    are returned as they come. *)
Theorem C10_loose_select_drops_clauses (query : str) (m : match_result) :
  firstMatch priority (trim (toLowerCase query)) = Some (LooseSelect, m) ->
  let tableName := group1 m 1 in
  let request := Builder tableName (lit "*") false None None in
  looseSelectText (trim (toLowerCase query)) tableName
  /\ eq_filter request = None /\ row_limit request = None
  /\ parseAndExecuteQuery query c
     = ([QueryCall request], answerOf (await c request)).
Proof.
  intros H. cbv zeta. split; [|split; [reflexivity|split; [reflexivity|]]].
  - apply basicSelect_shape.
    change (recognize LooseSelect (trim (toLowerCase query)) = Some m).
    eapply firstMatch_recognize. exact H.
  - rewrite translate_refines. unfold translateByPriority.
    rewrite H. cbn [issue]. unfold basicSelectBranch. apply rowsOf_eq.
Qed.

Lemma shapes_warned (p : string) :
  In p shapeTexts ->
  In (Warn (lit "  - " ++ lit p)) unsupportedWarnings.
Proof.
  intros H. repeat (destruct H as [<-|H]; [simpl; tauto|]). destruct H.
Qed.

End Translator.

(** ** The dispatcher *)

Section Dispatcher.

Variable c : client.

Lemma dispatch_unfold (query : str) :
  executeViaSupabaseRPC query c =
  try_catch
    (try_catch
       (resp <- call_rpc c (lit "execute_sql") (sentToRpc query) ;;
        match rpc_error resp with
        | Some message =>
            if capabilityAbsent message then throw RPC_NOT_AVAILABLE
            else if syntaxError message then throw RPC_SYNTAX_ERROR
            else throw message
        | None => ret (asArray (rpc_data resp))
        end)
       (fun rpcError =>
          if str_eqb rpcError RPC_NOT_AVAILABLE
             || str_eqb rpcError RPC_SYNTAX_ERROR
             || includes rpcError (lit "function")
             || includes rpcError (lit "does not exist")
             || includes rpcError (lit "syntax error")
          then parseAndExecuteQuery query c
          else throw rpcError))
    (fun message => throw (msgExecutionFailed message)).
Proof. reflexivity. Qed.

(** A failure of the generic path classified as missing capability or as
    a syntax error hands the text to the translator, once. *)
Lemma dispatch_fallback (query message : str) :
  rpc_error (rpc c (lit "execute_sql") (sentToRpc query)) = Some message ->
  capabilityAbsent message || syntaxError message = true ->
  executeViaSupabaseRPC query c
  = (genericCall query :: fst (parseAndExecuteQuery query c),
     surfaced (snd (parseAndExecuteQuery query c))).
Proof.
  intros Herr Hcls. rewrite dispatch_unfold.
  unfold call_rpc, bind. rewrite Herr.
  destruct (parseAndExecuteQuery query c) as [t r] eqn:P.
  destruct (capabilityAbsent message) eqn:Hcap.
  - unfold throw, try_catch. cbn [str_eqb orb].
    change (str_eqb RPC_NOT_AVAILABLE RPC_NOT_AVAILABLE) with true.
    cbn [orb]. destruct r; cbn [app]; rewrite ?app_nil_r; reflexivity.
  - cbn [orb] in Hcls. rewrite Hcls.
    unfold throw, try_catch.
    change (str_eqb RPC_SYNTAX_ERROR RPC_SYNTAX_ERROR) with true.
    rewrite orb_true_r. cbn [orb].
    destruct r; cbn [app]; rewrite ?app_nil_r; reflexivity.
Qed.

(** Any other failure is thrown on, prefixed by the outer handler. *)
Lemma dispatch_other (query message : str) :
  rpc_error (rpc c (lit "execute_sql") (sentToRpc query)) = Some message ->
  includes message (lit "function") = false ->
  includes message (lit "does not exist") = false ->
  includes message (lit "syntax error") = false ->
  message <> RPC_NOT_AVAILABLE ->
  message <> RPC_SYNTAX_ERROR ->
  executeViaSupabaseRPC query c
  = ([genericCall query], Throw (msgExecutionFailed message)).
Proof.
  intros Herr Hf Hd Hs Hn1 Hn2. rewrite dispatch_unfold.
  unfold call_rpc, bind. rewrite Herr.
  unfold capabilityAbsent, syntaxError. rewrite Hf, Hs. cbn [andb].
  unfold throw, try_catch.
  rewrite (str_eqb_neq Hn1), (str_eqb_neq Hn2), Hf, Hd, Hs.
  reflexivity.
Qed.

(** C2 (amended).  A failure of the generic path whose message holds
    none of the phrases [function], [does not exist] and [syntax error]
    (and is not one of the two internal markers) is not retried through
    the translator: the backend's message reaches the caller behind the
    prefix [Query execution failed: ].  A failure that reports the
    function as missing, or a syntax error, runs the translator exactly
    once after the single generic request, and the translator issues at
    most one structured request and no generic one. *)
Theorem C2_failure_dispatch (query message : str) :
  rpc_error (rpc c (lit "execute_sql") (sentToRpc query)) = Some message ->
  (includes message (lit "function") = false ->
   includes message (lit "does not exist") = false ->
   includes message (lit "syntax error") = false ->
   message <> RPC_NOT_AVAILABLE ->
   message <> RPC_SYNTAX_ERROR ->
   executeViaSupabaseRPC query c
   = ([genericCall query], Throw (lit "Query execution failed: " ++ message)))
  /\ (capabilityAbsent message || syntaxError message = true ->
      executeViaSupabaseRPC query c
      = (genericCall query :: fst (parseAndExecuteQuery query c),
         surfaced (snd (parseAndExecuteQuery query c)))
      /\ length (rpcCalls (fst (executeViaSupabaseRPC query c))) = 1
      /\ length (queryCalls (fst (executeViaSupabaseRPC query c))) <= 1).
Proof.
  intros Herr. split.
  - intros. apply dispatch_other; assumption.
  - intros Hcls. rewrite (dispatch_fallback _ Herr Hcls).
    destruct (translator_calls c query) as [Hrpc Hq].
    split; [reflexivity|]. cbn [fst]. unfold genericCall. split.
    + unfold rpcCalls in *. cbn [filter]. rewrite Hrpc. reflexivity.
    + unfold queryCalls in *. cbn [filter]. exact Hq.
Qed.

(** C4 (amended).  When no shape matches, the translator issues no
    backend request and throws an error whose message quotes the query
    and advises installing the RPC function; the supported shapes are
    enumerated on the warning log, one line each, not in the message.
    The caller receives that message behind the prefix of the outer
    handler. *)
Theorem C4_unsupported_pattern (query : str) :
  firstMatch priority (trim (toLowerCase query)) = None ->
  parseAndExecuteQuery query c
  = (unsupportedWarnings, Throw (msgUnsupported query))
  /\ backend_calls unsupportedWarnings = []
  /\ (forall p, In p shapeTexts ->
        In (Warn (lit "  - " ++ lit p)) unsupportedWarnings)
  /\ (forall message,
        rpc_error (rpc c (lit "execute_sql") (sentToRpc query)) = Some message ->
        capabilityAbsent message || syntaxError message = true ->
        executeViaSupabaseRPC query c
        = (genericCall query :: unsupportedWarnings,
           Throw (msgExecutionFailed (msgUnsupported query)))).
Proof.
  intros H.
  assert (P : parseAndExecuteQuery query c
              = (unsupportedWarnings, Throw (msgUnsupported query))).
  { rewrite translate_refines. unfold translateByPriority. rewrite H.
    reflexivity. }
  split; [exact P|]. split; [reflexivity|]. split; [exact shapes_warned|].
  intros message Herr Hcls.
  rewrite (dispatch_fallback _ Herr Hcls), P. reflexivity.
Qed.

End Dispatcher.

(** C2 as stated fails: a refusal of the backend reaches the caller with
    a prefix in front of the backend's message, not verbatim. *)
Lemma C2_counterexample :
  let message := lit "permission denied for table products" in
  rpc_error (rpc Samples.denying (lit "execute_sql") (lit "SELECT * FROM products"))
  = Some message
  /\ capabilityAbsent message = false /\ syntaxError message = false
  /\ executeDbQuery (lit "SELECT * FROM products") (Some Samples.denying)
     = ([RpcCall (lit "execute_sql") (lit "SELECT * FROM products")],
        Throw (lit "Query execution failed: permission denied for table products"))
  /\ lit "Query execution failed: permission denied for table products"
     <> message.
Proof.
  cbv zeta. repeat split; try reflexivity. discriminate.
Qed.

Lemma C2_witness :
  executeViaSupabaseRPC (lit "SELECT * FROM products") Samples.denying
  = ([RpcCall (lit "execute_sql") (lit "SELECT * FROM products")],
     Throw (lit "Query execution failed: permission denied for table products"))
  /\ length (rpcCalls (fst (executeViaSupabaseRPC
                              (lit "SELECT COUNT(*) FROM products")
                              Samples.withoutRpc))) = 1.
Proof.
  split.
  - apply (proj1 (@C2_failure_dispatch Samples.denying
                    (lit "SELECT * FROM products")
                    (lit "permission denied for table products")
                    eq_refl));
      try reflexivity; discriminate.
  - apply (proj2 (@C2_failure_dispatch Samples.withoutRpc
                    (lit "SELECT COUNT(*) FROM products")
                    (lit "function public.execute_sql(sql_query => text) does not exist")
                    eq_refl)).
    reflexivity.
Defined.

(** C4 as stated fails: the message thrown for [SELECT 1] names none of
    the supported shapes. *)
Lemma C4_counterexample :
  firstMatch priority (trim (toLowerCase (lit "SELECT 1"))) = None
  /\ snd (executeDbQuery (lit "SELECT 1") (Some Samples.withoutRpc))
     = Throw (msgExecutionFailed (msgUnsupported (lit "SELECT 1")))
  /\ mentionsAShape (msgExecutionFailed (msgUnsupported (lit "SELECT 1"))) = false
  /\ enumeratesShapes (msgExecutionFailed (msgUnsupported (lit "SELECT 1"))) = false.
Proof. repeat split; vm_compute; reflexivity. Qed.

Lemma C4_witness :
  parseAndExecuteQuery (lit "SELECT 1") Samples.withoutRpc
  = (unsupportedWarnings, Throw (msgUnsupported (lit "SELECT 1"))).
Proof.
  apply (@C4_unsupported_pattern Samples.withoutRpc (lit "SELECT 1")).
  vm_compute. reflexivity.
Defined.

Lemma C10_witness :
  parseAndExecuteQuery (lit "SELECT category, COUNT(*) FROM products GROUP BY price")
                       Samples.withoutRpc
  = ([QueryCall (Builder (lit "products") (lit "*") false None None)],
     Return (JArr (map JObj Samples.products)))
  /\ parseAndExecuteQuery (lit "SELECT * FROM products WHERE price > 100 LIMIT 1")
                          Samples.withoutRpc
     = ([QueryCall (Builder (lit "products") (lit "*") false None None)],
        Return (JArr (map JObj Samples.products))).
Proof.
  split.
  - eapply eq_trans;
      [eapply C10_loose_select_drops_clauses; vm_compute; reflexivity
      |reflexivity].
  - eapply eq_trans;
      [eapply C10_loose_select_drops_clauses; vm_compute; reflexivity
      |reflexivity].
Defined.

Section CountAll.

Variable c : client.

(** C8.  A text that the count-all expression matches has the count-all
    shape, with the table and the alias the match captures; it makes the
    translator issue the count request on that table, and nothing else
    (no select-all, no raw execute); unless the
    backend reports an error, which is thrown on, the answer is a single
    row whose only field is named by the alias, [count] when the text
    gives none, and holds the count the backend reported. *)
Theorem C8_count_all (query : str) (m : match_result) :
  js_match Patterns.countAll (trim (toLowerCase query)) = Some m ->
  let tableName := group1 m 2 in
  let countAlias := match group m 1 with
                    | Some (x :: a) => x :: a
                    | _ => lit "count"
                    end in
  let request := Builder tableName (lit "*") true None None in
  countAllText (trim (toLowerCase query)) (group m 1) tableName
  /\ parseAndExecuteQuery query c
     = ([QueryCall request],
        match error (await c request) with
        | Some e => Throw e
        | None =>
            Return (JArr [JObj [(countAlias,
                                 match count (await c request) with
                                 | Some n => JNum n
                                 | None => JNull
                                 end)]])
        end).
Proof.
  intros H. cbv zeta. split; [exact (countAll_shape _ H)|].
  unfold parseAndExecuteQuery. cbv zeta.
  rewrite (countAll_excludes _ H), H.
  unfold countBranch, run_query, bind, from_select_count, orCount.
  destruct (error (await c _)); [reflexivity|].
  unfold ret. rewrite define_first. reflexivity.
Qed.

End CountAll.

Lemma C8_witness :
  parseAndExecuteQuery (lit "SELECT COUNT(*) as total FROM products")
                       Samples.withoutRpc
  = ([QueryCall (Builder (lit "products") (lit "*") true None None)],
     Return (JArr [JObj [(lit "total", JNum 3)]]))
  /\ parseAndExecuteQuery (lit "SELECT COUNT(*) FROM products")
                          Samples.withoutRpc
     = ([QueryCall (Builder (lit "products") (lit "*") true None None)],
        Return (JArr [JObj [(lit "count", JNum 3)]])).
Proof.
  split.
  - eapply eq_trans;
      [eapply C8_count_all; vm_compute; reflexivity|reflexivity].
  - eapply eq_trans;
      [eapply C8_count_all; vm_compute; reflexivity|reflexivity].
Defined.

Section GroupCount.

Variable c : client.

Lemma parse_groupBy (query : str) (m : match_result) :
  js_match Patterns.groupBy (trim (toLowerCase query)) = Some m ->
  group1 m 1 = group1 m 4 ->
  parseAndExecuteQuery query c = groupByBranch c m.
Proof.
  intros H Hsame. unfold parseAndExecuteQuery. cbv zeta.
  destruct (groupBy_excludes _ H) as (-> & -> & -> & -> & ->).
  unfold fromGroupBy. rewrite H, Hsame, str_eqb_refl. reflexivity.
Qed.

End GroupCount.

(** C9.  The group-count branch answers with the property keys of its
    tally, not with the fetched values.  Grouping the cities of four
    users, of which one has no city ([null]), one lives in a place
    spelt [null] and two in Chicago, gives two rows: the first two are
    counted as one group of two under the text [null].  Grouping three
    products by a price that is a number gives the prices back as
    texts. *)
Theorem C9_distinct_values_are_merged :
  let cities := Builder (lit "users") (lit "city") false None None in
  let prices := Builder (lit "products") (lit "price") false None None in
  data (await Samples.grouping cities)
  = Some [[(lit "city", JNull)];
          [(lit "city", JStr (lit "chicago"))];
          [(lit "city", JStr (lit "null"))];
          [(lit "city", JStr (lit "chicago"))]]
  /\ parseAndExecuteQuery
       (lit "SELECT city, COUNT(*) AS n FROM users GROUP BY city")
       Samples.grouping
     = ([QueryCall cities],
        Return (JArr [JObj [(lit "city", JStr (lit "null")); (lit "n", JNum 2)];
                      JObj [(lit "city", JStr (lit "chicago"));
                            (lit "n", JNum 2)]]))
  /\ data (await Samples.grouping prices)
     = Some [[(lit "price", JNum (Samples.decimal 1999 100))];
             [(lit "price", JNum 250)];
             [(lit "price", JNum (Samples.decimal 1999 100))]]
  /\ parseAndExecuteQuery
       (lit "SELECT price, COUNT(*) FROM products GROUP BY price")
       Samples.grouping
     = ([QueryCall prices],
        Return (JArr [JObj [(lit "price", JStr (lit "250"));
                            (lit "count", JNum 1)];
                      JObj [(lit "price", JStr (lit "19.99"));
                            (lit "count", JNum 2)]])).
Proof.
  cbv zeta. repeat split; vm_compute; reflexivity.
Qed.

(** ** Behaviour outside the amended statements *)

Section Edges.

(** A failure that names a missing relation holds [does not exist] and
    is handed to the translator as well; the caller gets the error of
    the structured request, not that of the generic one. *)
Lemma missing_relation_falls_back :
  capabilityAbsent (lit "relation public.orders does not exist") = false
  /\ syntaxError (lit "relation public.orders does not exist") = false
  /\ executeDbQuery (lit "SELECT * FROM orders") (Some Samples.missingRelation)
     = ([RpcCall (lit "execute_sql") (lit "SELECT * FROM orders");
         QueryCall (Builder (lit "orders") (lit "*") false None None)],
        Throw (lit "Query execution failed: Could not find the table public.orders")).
Proof. repeat split; vm_compute; reflexivity. Qed.

(** An alias equal to the column leaves a single field in each row. *)
Lemma alias_equal_to_column :
  parseAndExecuteQuery
    (lit "SELECT category, COUNT(*) AS category FROM products GROUP BY category")
    Samples.withoutRpc
  = ([QueryCall (Builder (lit "products") (lit "category") false None None)],
     Return (JArr [JObj [(lit "category", JNum 2)];
                   JObj [(lit "category", JNum 1)]])).
Proof. vm_compute. reflexivity. Qed.

(** A value named like an inherited property is not counted: the tally
    starts from the inherited function, and [__proto__] leaves no trace. *)
Lemma inherited_keys_miscounted :
  groupRows (lit "tag")
    [[(lit "tag", JStr (lit "constructor"))];
     [(lit "tag", JStr (lit "__proto__"))];
     [(lit "tag", JStr (lit "constructor"))]]
  = [(lit "constructor", JStr (lit "function Object() { [native code] }11"))].
Proof. vm_compute. reflexivity. Qed.

(** A limit of zero is no limit, and the literal of a string predicate
    is compared in lower case. *)
Lemma zero_limit_and_lowered_literal :
  fst (parseAndExecuteQuery (lit "SELECT * FROM users WHERE city = 'Chicago' LIMIT 0")
                            Samples.withoutRpc)
  = [QueryCall (Builder (lit "users") (lit "*") false
                        (Some (lit "city", JStr (lit "chicago"))) None)].
Proof. vm_compute. reflexivity. Qed.

End Edges.

Section TrailingSemicolons.

Unset Implicit Arguments.

(** The matcher reports the leftmost start: it has failed at every index
    before the one it returns. *)
Lemma search_first (r : regex) (s : str) :
  forall idx i st, search r idx s = Some (i, st) ->
    forall pre1 rest1, s = pre1 ++ rest1 -> idx + length pre1 < i ->
      exec_at r (idx + length pre1) rest1 = None.
Proof.
  induction s as [|x s IH]; intros idx i st H pre1 rest1 E Hlt.
  - destruct pre1; [|discriminate]. simpl in *. subst rest1.
    destruct (exec_at r idx []); [|discriminate].
    inversion H; subst. lia.
  - cbn [search] in H. destruct (exec_at r idx (x :: s)) eqn:Ex.
    + inversion H; subst. lia.
    + destruct pre1 as [|y pre1].
      * simpl in *. subst rest1. rewrite Nat.add_0_r. exact Ex.
      * simpl in E. inversion E; subst.
        cbn [length]. rewrite Nat.add_succ_r.
        apply (IH (S idx) i st H pre1 rest1 eq_refl).
        simpl in Hlt. lia.
Qed.

Lemma semicolons_match (semis : str) (ix : nat) :
  semis <> [] -> forallb (char_eqb ";") semis = true ->
  matches Patterns.trailingSemicolons ix semis [] [] [].
Proof.
  intros Hne Hs. unfold Patterns.trailingSemicolons.
  rewrite <- (app_nil_r semis). eapply build_cons.
  - apply build_plus; assumption.
  - exists [], [], []. repeat split.
Qed.

Lemma semicolons_matched ix s post cin cout :
  matches Patterns.trailingSemicolons ix s post cin cout ->
  s <> [] /\ forallb (char_eqb ";") s = true /\ post = [].
Proof.
  intros H. unfold Patterns.trailingSemicolons in H.
  apply peel_plus in H. destruct H as (w & s2 & p & -> & Hne & Hw & H).
  apply peel_eol in H. destruct H as (-> & -> & _).
  rewrite app_nil_r. auto.
Qed.

(** [s.replace(/;+$/, '')] cuts off the whole run of semicolons at the
    end of the text, and nothing else. *)
Lemma remove_trailing_semicolons (s : str) :
  exists semis,
    s = remove_first Patterns.trailingSemicolons s ++ semis
    /\ forallb (char_eqb ";") semis = true
    /\ forall t, remove_first Patterns.trailingSemicolons s <> t ++ lit ";".
Proof.
  unfold remove_first, js_match.
  destruct (search Patterns.trailingSemicolons 0 s) as [[i st]|] eqn:E.
  - pose proof (search_first _ _ _ _ _ E) as Hfirst.
    apply search_sound in E.
    destruct E as (pre & mid & post & -> & -> & Hm & Hp).
    apply semicolons_matched in Hm. destruct Hm as (Hne & Hsemi & ->).
    cbn [Nat.add] in *. cbn [index matched]. rewrite Hp, app_nil_r.
    assert (Hmid : firstn (length pre + length mid - length pre)
                          (skipn (length pre) (pre ++ mid)) = mid).
    { rewrite skipn_app, skipn_all, Nat.sub_diag. cbn [skipn app].
      rewrite Nat.add_comm, Nat.add_sub. apply firstn_all. }
    rewrite Hmid.
    rewrite firstn_app, Nat.sub_diag, firstn_all. cbn [firstn].
    rewrite app_nil_r.
    rewrite skipn_all2 by (rewrite length_app; lia).
    rewrite app_nil_r.
    exists mid. split; [reflexivity|]. split; [exact Hsemi|].
    intros t Et. subst pre.
    assert (Hx : exec_at Patterns.trailingSemicolons (length t)
                         (lit ";" ++ mid) <> None).
    { unfold exec_at.
      pose proof (@run_complete Patterns.trailingSemicolons (length t)
                    (lit ";" ++ mid) [] [] []) as Hc.
      rewrite app_nil_r in Hc. apply Hc.
      - apply semicolons_match; [discriminate|]. simpl. exact Hsemi.
      - intros cs. discriminate. }
    apply Hx. apply Hfirst.
    + rewrite app_nil_r, <- app_assoc. reflexivity.
    + rewrite length_app. simpl. lia.
  - exists []. rewrite app_nil_r. split; [reflexivity|].
    split; [reflexivity|].
    intros t Et.
    assert (Hs : search Patterns.trailingSemicolons 0 s <> None).
    { rewrite Et.
      apply search_complete. unfold exec_at. cbn [Nat.add].
      pose proof (@run_complete Patterns.trailingSemicolons (length t)
                    (lit ";") [] [] []) as Hc.
      rewrite app_nil_r in Hc. apply Hc.
      - apply semicolons_match; [discriminate|reflexivity].
      - intros cs. discriminate. }
    contradiction.
Qed.

Set Implicit Arguments.

End TrailingSemicolons.


Section Gateway.

Variable c : client.

Lemma dispatch_cases (query : str) :
  executeViaSupabaseRPC query c
  = match rpc_error (rpc c (lit "execute_sql") (sentToRpc query)) with
    | None =>
        ([genericCall query],
         Return (asArray (rpc_data (rpc c (lit "execute_sql") (sentToRpc query)))))
    | Some message =>
        if fallsBack message
        then (genericCall query :: fst (parseAndExecuteQuery query c),
              surfaced (snd (parseAndExecuteQuery query c)))
        else ([genericCall query], Throw (msgExecutionFailed message))
    end.
Proof.
  rewrite dispatch_unfold. unfold call_rpc, bind, fallsBack.
  destruct (rpc_error _) as [message|]; [|reflexivity].
  destruct (parseAndExecuteQuery query c) as [t r] eqn:P.
  unfold capabilityAbsent, syntaxError.
  destruct (includes message (lit "function")) eqn:Hf;
    destruct (includes message (lit "does not exist")) eqn:Hd;
    destruct (includes message (lit "syntax error")) eqn:Hs;
    cbn [andb orb]; unfold throw, try_catch;
    rewrite ?Hf, ?Hd, ?Hs, ?orb_true_r; cbn [orb fst snd];
    try change (str_eqb RPC_NOT_AVAILABLE RPC_NOT_AVAILABLE) with true;
    try change (str_eqb RPC_SYNTAX_ERROR RPC_SYNTAX_ERROR) with true;
    rewrite ?orb_true_r; cbn [orb];
    try (destruct r; cbn [app surfaced]; rewrite ?app_nil_r; reflexivity).
  rewrite !orb_false_r.
  destruct (str_eqb message RPC_NOT_AVAILABLE || str_eqb message RPC_SYNTAX_ERROR);
    [destruct r; cbn [app surfaced]; rewrite ?app_nil_r; reflexivity|reflexivity].
Qed.

End Gateway.

Section Envelope.

Variable c : client.

Lemma issue_returns_array (sh : shape) (m : match_result) (v : json) :
  snd (issue sh c m) = Return v -> isArray v = true.
Proof.
  destruct sh; cbn [issue];
    unfold simpleSelectBranch, whereStringBranch, whereNumBranch,
           selectColumnsBranch, basicSelectBranch;
    try (rewrite rowsOf_eq; cbn [snd]; unfold answerOf;
         destruct (error (await c _)); [discriminate|];
         destruct (data (await c _)); intros H; inversion H; reflexivity).
  - unfold countBranch, run_query, bind.
    destruct (error (await c _)); cbn [snd throw ret]; [discriminate|].
    intros H. inversion H. reflexivity.
  - unfold groupByBranch, run_query, bind.
    destruct (error (await c _)); cbn [snd throw ret]; [discriminate|].
    destruct (data (await c _)); cbn [snd throw ret]; [|discriminate].
    intros H. inversion H. reflexivity.
Qed.

Lemma translator_returns_array (query : str) (v : json) :
  snd (parseAndExecuteQuery query c) = Return v -> isArray v = true.
Proof.
  rewrite translate_refines. unfold translateByPriority.
  destruct (firstMatch priority _) as [[sh m]|].
  - apply issue_returns_array.
  - discriminate.
Qed.

Lemma asArray_isArray (d : json) : isArray (asArray d) = true.
Proof.
  destruct d; cbn [asArray]; try reflexivity;
    match goal with |- context [if ?b then _ else _] => destruct b end;
    reflexivity.
Qed.

Lemma dispatcher_returns_array (query : str) (v : json) :
  snd (executeViaSupabaseRPC query c) = Return v -> isArray v = true.
Proof.
  rewrite dispatch_cases.
  destruct (rpc_error _) as [message|].
  - destruct (fallsBack message); cbn [snd]; [|discriminate].
    destruct (snd (parseAndExecuteQuery query c)) eqn:E; cbn [surfaced];
      [|discriminate].
    intros H. inversion H; subst. exact (translator_returns_array _ E).
  - cbn [snd]. intros H. inversion H. apply asArray_isArray.
Qed.

Lemma dispatcher_throws_prefixed (query e : str) :
  snd (executeViaSupabaseRPC query c) = Throw e ->
  exists message, e = lit "Query execution failed: " ++ message.
Proof.
  rewrite dispatch_cases.
  destruct (rpc_error _) as [message|].
  - destruct (fallsBack message); cbn [snd].
    + destruct (snd (parseAndExecuteQuery query c)); cbn [surfaced];
        [discriminate|].
      intros H. inversion H. eexists. reflexivity.
    + intros H. inversion H. eexists. reflexivity.
  - discriminate.
Qed.

Lemma dispatcher_trace (query : str) :
  exists rest,
    fst (executeViaSupabaseRPC query c) = genericCall query :: rest
    /\ rpcCalls rest = [] /\ length (queryCalls rest) <= 1.
Proof.
  rewrite dispatch_cases.
  destruct (rpc_error _) as [message|].
  - destruct (fallsBack message); cbn [fst].
    + eexists. split; [reflexivity|]. apply translator_calls.
    + exists []. simpl. auto.
  - exists []. simpl. auto.
Qed.

End Envelope.

Section Validated.

(** What [executeDbQuery] does, by the outcome of its three tests. *)
Lemma executeDbQuery_cases (generatedQuery : str) (oc : option client) :
  (executeDbQuery generatedQuery oc = ([], Throw msgNotSelect)
   \/ executeDbQuery generatedQuery oc = ([], Throw msgForbidden)
   \/ executeDbQuery generatedQuery oc = ([], Throw msgMultiple)
   \/ executeDbQuery generatedQuery oc = ([], Throw msgNoClient))
  \/ (startsWith (toLowerCase (cleaned generatedQuery)) (lit "select") = true
      /\ existsb (fun w => includes (toLowerCase (cleaned generatedQuery)) (lit w))
                 forbidden = false
      /\ ~ secondStatement (cleaned generatedQuery)
      /\ exists c, oc = Some c
           /\ executeDbQuery generatedQuery oc
              = executeViaSupabaseRPC (cleaned generatedQuery) c).
Proof.
  rewrite executeDbQuery_unfold. cbv zeta.
  destruct (startsWith _ (lit "select")) eqn:Hsel; cbn [negb]; [|auto].
  destruct (existsb _ forbidden) eqn:Hforb; [auto|].
  match goal with
  | |- context [if ?b then _ else _] => destruct b eqn:Hmulti
  end; [auto|].
  destruct oc as [c|]; [|auto 6].
  right. repeat split; try reflexivity.
  - intros Hsec. destruct (two_statements Hsel Hsec) as [Hinc Hlen].
    unfold nonBlank in Hlen. rewrite Hinc, Hlen in Hmulti. discriminate.
  - exists c. auto.
Qed.

End Validated.

Section GatewayProperties.

(** X1.  Whatever the query, the first thing [executeViaSupabaseRPC]
    does is one call of the RPC function [execute_sql]; the text it
    sends is the trimmed query without the run of semicolons at its end,
    so it never ends with a semicolon. *)
Theorem X1_rpc_text_has_no_trailing_semicolon (query : str) (c : client) :
  exists t semis rest,
    fst (executeViaSupabaseRPC query c) = RpcCall (lit "execute_sql") t :: rest
    /\ trim query = t ++ semis
    /\ forallb (char_eqb ";") semis = true
    /\ (forall u, t <> u ++ lit ";").
Proof.
  destruct (dispatcher_trace c query) as (rest & Ht & _).
  destruct (remove_trailing_semicolons (trim query)) as (semis & E & Hs & Hn).
  exists (sentToRpc query), semis, rest. auto.
Qed.

(** X2.  [executeDbQuery] contacts the backend only with a text that has
    passed its three tests: once cleaned it starts with [select], holds
    none of the forbidden words and has nothing but whitespace and
    semicolons after a semicolon; and the first request is then the RPC
    call [execute_sql] with that text. *)
Theorem X2_backend_only_after_validation
        (generatedQuery : str) (supabaseClient : option client) :
  fst (executeDbQuery generatedQuery supabaseClient) <> [] ->
  startsWith (toLowerCase (cleaned generatedQuery)) (lit "select") = true
  /\ existsb (fun w => includes (toLowerCase (cleaned generatedQuery)) (lit w))
             forbidden = false
  /\ ~ secondStatement (cleaned generatedQuery)
  /\ exists c rest,
       supabaseClient = Some c
       /\ fst (executeDbQuery generatedQuery supabaseClient)
          = RpcCall (lit "execute_sql") (sentToRpc (cleaned generatedQuery))
            :: rest.
Proof.
  intros Hne.
  destruct (executeDbQuery_cases generatedQuery supabaseClient)
    as [[H|[H|[H|H]]]|(Hsel & Hforb & Hsec & c & -> & H)];
    try (rewrite H in Hne; elim Hne; reflexivity).
  repeat split; try assumption.
  destruct (dispatcher_trace c (cleaned generatedQuery)) as (rest & Ht & _).
  exists c, rest. rewrite H. auto.
Qed.

(** X3.  One call of [executeDbQuery] issues at most one RPC call, to
    [execute_sql], and at most one request through the query builder;
    the builder is used only after the RPC call has been made. *)
Theorem X3_at_most_two_requests
        (generatedQuery : str) (supabaseClient : option client) :
  let t := fst (executeDbQuery generatedQuery supabaseClient) in
  length (rpcCalls t) <= 1
  /\ length (queryCalls t) <= 1
  /\ (forall fn text, In (RpcCall fn text) t -> fn = lit "execute_sql")
  /\ (forall b, In (QueryCall b) t ->
        exists text rest, t = RpcCall (lit "execute_sql") text :: rest
                          /\ In (QueryCall b) rest).
Proof.
  cbv zeta.
  destruct (executeDbQuery_cases generatedQuery supabaseClient)
    as [[H|[H|[H|H]]]|(_ & _ & _ & c & -> & H)];
    try (rewrite H; cbn [fst]; repeat split; simpl; try lia;
         intros; contradiction).
  rewrite H.
  destruct (dispatcher_trace c (cleaned generatedQuery)) as (rest & -> & Hr & Hq).
  unfold genericCall. repeat split.
  - unfold rpcCalls in *. cbn [filter]. rewrite Hr. simpl. lia.
  - unfold queryCalls in *. cbn [filter]. exact Hq.
  - intros fn text [E|Hin]; [inversion E; reflexivity|].
    assert (Hf : In (RpcCall fn text) (rpcCalls rest)).
    { unfold rpcCalls. apply filter_In. auto. }
    rewrite Hr in Hf. contradiction.
  - intros b [E|Hin]; [discriminate|]. eauto.
Qed.

(** X4.  Whatever [executeDbQuery] returns is an array. *)
Theorem X4_result_is_an_array
        (generatedQuery : str) (supabaseClient : option client) (v : json) :
  snd (executeDbQuery generatedQuery supabaseClient) = Return v ->
  exists items, v = JArr items.
Proof.
  intros Hv.
  assert (Ha : isArray v = true).
  { destruct (executeDbQuery_cases generatedQuery supabaseClient)
      as [[H|[H|[H|H]]]|(_ & _ & _ & c & -> & H)];
      try (rewrite H in Hv; discriminate).
    rewrite H in Hv. exact (dispatcher_returns_array _ _ Hv). }
  destruct v; try discriminate. eexists. reflexivity.
Qed.

(** X5.  An error thrown by [executeDbQuery] carries one of the four
    messages of its own tests, or a message that starts with
    [Query execution failed: ]. *)
Theorem X5_error_messages
        (generatedQuery : str) (supabaseClient : option client) (e : str) :
  snd (executeDbQuery generatedQuery supabaseClient) = Throw e ->
  In e [msgNotSelect; msgForbidden; msgMultiple; msgNoClient]
  \/ exists message, e = lit "Query execution failed: " ++ message.
Proof.
  intros He.
  destruct (executeDbQuery_cases generatedQuery supabaseClient)
    as [[H|[H|[H|H]]]|(_ & _ & _ & c & -> & H)];
    rewrite H in He; cbn [snd] in He.
  - inversion He. simpl. auto.
  - inversion He. simpl. auto.
  - inversion He. simpl. auto.
  - inversion He. simpl. auto 6.
  - right. exact (dispatcher_throws_prefixed _ _ He).
Qed.

End GatewayProperties.

Lemma X2_witness :
  startsWith (toLowerCase (cleaned (lit "SELECT * FROM products;"))) (lit "select")
  = true
  /\ existsb (fun w => includes (toLowerCase (cleaned (lit "SELECT * FROM products;")))
                                (lit w)) forbidden = false
  /\ ~ secondStatement (cleaned (lit "SELECT * FROM products;"))
  /\ exists c rest,
       Some Samples.withRpc = Some c
       /\ fst (executeDbQuery (lit "SELECT * FROM products;") (Some Samples.withRpc))
          = RpcCall (lit "execute_sql")
                    (sentToRpc (cleaned (lit "SELECT * FROM products;")))
            :: rest.
Proof.
  apply (@X2_backend_only_after_validation
           (lit "SELECT * FROM products;") (Some Samples.withRpc)).
  vm_compute. discriminate.
Defined.

Lemma X4_witness :
  exists items,
    JArr [JObj [(lit "count", JNum 3)]] = JArr items.
Proof.
  apply (@X4_result_is_an_array (lit "SELECT COUNT(*) FROM products")
           (Some Samples.withoutRpc)).
  vm_compute. reflexivity.
Defined.

Lemma X5_witness :
  In (lit "Query execution failed: permission denied for table products")
     [msgNotSelect; msgForbidden; msgMultiple; msgNoClient]
  \/ exists message,
       lit "Query execution failed: permission denied for table products"
       = lit "Query execution failed: " ++ message.
Proof.
  apply (@X5_error_messages (lit "SELECT * FROM products")
           (Some Samples.denying)).
  vm_compute. reflexivity.
Defined.


Section MoreShapes.

Ltac assoc_eq :=
  cbn [app lit list_ascii_of_string];
  rewrite ?app_nil_r;
  repeat (progress (rewrite <- ?app_assoc; cbn [app]));
  reflexivity.

Ltac conjuncts := repeat match goal with |- _ /\ _ => split end.

Ltac settle :=
  first [assumption | split; assumption | assoc_eq].

Lemma limit_closing_of (i : nat) pos s post cin cout :
  matches (cat [Patterns.optLimit i; Patterns.optSemicolon; Eol])
          pos s post cin cout ->
  exists digits lim semi,
    s = lim ++ semi /\ post = []
    /\ limitClause digits lim /\ closing semi
    /\ cout = match digits with Some d => (i, d) :: cin | None => cin end.
Proof.
  intros H. apply peel_opt in H.
  destruct H as [(lim & s2 & cm & pos' & -> & Hl & H)|H].
  - apply closing_of in H. destruct H as (Hc & -> & ->).
    apply peel_plus in Hl. destruct Hl as (w1 & l1 & q1 & -> & Hn1 & Hw1 & Hl).
    apply peel_text in Hl. destruct Hl as (l2 & q2 & -> & Hl).
    apply peel_plus in Hl. destruct Hl as (w2 & l3 & q3 & -> & Hn2 & Hw2 & Hl).
    apply peel_group in Hl. destruct Hl as (d & l4 & q4 & -> & Hnd & Hd & Hl).
    destruct Hl as [-> ->].
    exists (Some d), (w1 ++ lit "limit" ++ w2 ++ d), s2.
    conjuncts; try settle.
    exists w1, w2. conjuncts; settle.
  - apply closing_of in H. destruct H as (Hc & -> & ->).
    exists None, [], s. conjuncts; settle.
Qed.

Lemma group_newest (m : match_result) (i : nat) (v : str) cs :
  groups m = (i, v) :: cs -> group m i = Some v.
Proof.
  intros H. unfold group. rewrite H. cbn [assoc]. rewrite Nat.eqb_refl.
  reflexivity.
Qed.

(** What a match of the select-all expression says about the text and
    about its groups. *)
Lemma simpleSelect_shape (s : str) (m : match_result) :
  js_match Patterns.simpleSelect s = Some m ->
  selectAllText s (group1 m 1) (group m 2).
Proof.
  intros H. apply keyword_prefix in H.
  destruct H as (w1 & tl & p0 & post & -> & Hw1 & H).
  apply peel_chr in H. destruct H as (s1 & p1 & -> & H).
  apply peel_plus in H. destruct H as (w2 & s2 & p2 & -> & Hn2 & Hw2 & H).
  apply peel_text in H. destruct H as (s3 & p3 & -> & H).
  apply peel_plus in H. destruct H as (w3 & s4 & p4 & -> & Hn3 & Hw3 & H).
  apply peel_group in H. destruct H as (t & s5 & p5 & -> & Hnt & Ht & H).
  apply limit_closing_of in H.
  destruct H as (digits & lim & semi & -> & -> & Hl & Hc & Hm).
  assert (G1 : group1 m 1 = t /\ group m 2 = digits).
  { unfold group1, group. rewrite Hm. destruct digits; auto. }
  destruct G1 as [-> ->].
  exists w1, w2, w3, lim, semi. conjuncts; settle.
Qed.


Lemma none_of_notin (cs : string) (w : str) :
  forallb (fun c => negb (existsb (char_eqb c) (lit cs))) w = true ->
  forall x, In x w -> ~ In x (lit cs).
Proof.
  intros H x Hx Hin. rewrite forallb_forall in H.
  specialize (H x Hx). apply negb_true_iff in H.
  assert (E : existsb (char_eqb x) (lit cs) = true).
  { apply existsb_exists. exists x. split; [exact Hin|].
    unfold char_eqb. apply Ascii.eqb_refl. }
  congruence.
Qed.

(** The same for the two expressions with an equality test. *)
Lemma whereString_shape (s : str) (m : match_result) :
  js_match Patterns.whereString s = Some m ->
  whereText s (group1 m 1) (group1 m 2) (quoted (group1 m 3)) (group m 4)
  /\ noQuote (group1 m 3).
Proof.
  intros H. apply keyword_prefix in H.
  destruct H as (w1 & tl & p0 & post & -> & Hw1 & H).
  apply peel_chr in H. destruct H as (s1 & p1 & -> & H).
  apply peel_plus in H. destruct H as (w2 & s2 & p2 & -> & Hn2 & Hw2 & H).
  apply peel_text in H. destruct H as (s3 & p3 & -> & H).
  apply peel_plus in H. destruct H as (w3 & s4 & p4 & -> & Hn3 & Hw3 & H).
  apply peel_group in H. destruct H as (t & s5 & p5 & -> & Hnt & Ht & H).
  apply peel_plus in H. destruct H as (w4 & s6 & p6 & -> & Hn4 & Hw4 & H).
  apply peel_text in H. destruct H as (s7 & p7 & -> & H).
  apply peel_plus in H. destruct H as (w5 & s8 & p8 & -> & Hn5 & Hw5 & H).
  apply peel_group in H. destruct H as (col & s9 & p9 & -> & Hnc & Hcol & H).
  apply peel_star in H. destruct H as (w6 & s10 & p10 & -> & Hw6 & H).
  apply peel_chr in H. destruct H as (s11 & p11 & -> & H).
  apply peel_star in H. destruct H as (w7 & s12 & p12 & -> & Hw7 & H).
  apply peel_chr in H. destruct H as (s13 & p13 & -> & H).
  apply peel_group in H. destruct H as (v & s14 & p14 & -> & Hnv & Hv & H).
  apply peel_chr in H. destruct H as (s15 & p15 & -> & H).
  apply limit_closing_of in H.
  destruct H as (digits & lim & semi & -> & -> & Hl & Hc & Hm).
  assert (G : group1 m 1 = t /\ group1 m 2 = col /\ group1 m 3 = v
              /\ group m 4 = digits).
  { unfold group1, group. rewrite Hm. destruct digits; auto. }
  destruct G as (-> & -> & -> & ->).
  split.
  - exists w1, w2, w3, w4, w5, w6, w7, lim, semi. unfold quoted.
    conjuncts; settle.
  - split; [exact Hnv|].
    intros Hin. apply (none_of_notin "'" v Hv _ Hin). left. reflexivity.
Qed.

Lemma whereNum_shape (s : str) (m : match_result) :
  js_match Patterns.whereNum s = Some m ->
  whereText s (group1 m 1) (group1 m 2) (group1 m 3) (group m 4)
  /\ digitsText (group1 m 3).
Proof.
  intros H. apply keyword_prefix in H.
  destruct H as (w1 & tl & p0 & post & -> & Hw1 & H).
  apply peel_chr in H. destruct H as (s1 & p1 & -> & H).
  apply peel_plus in H. destruct H as (w2 & s2 & p2 & -> & Hn2 & Hw2 & H).
  apply peel_text in H. destruct H as (s3 & p3 & -> & H).
  apply peel_plus in H. destruct H as (w3 & s4 & p4 & -> & Hn3 & Hw3 & H).
  apply peel_group in H. destruct H as (t & s5 & p5 & -> & Hnt & Ht & H).
  apply peel_plus in H. destruct H as (w4 & s6 & p6 & -> & Hn4 & Hw4 & H).
  apply peel_text in H. destruct H as (s7 & p7 & -> & H).
  apply peel_plus in H. destruct H as (w5 & s8 & p8 & -> & Hn5 & Hw5 & H).
  apply peel_group in H. destruct H as (col & s9 & p9 & -> & Hnc & Hcol & H).
  apply peel_star in H. destruct H as (w6 & s10 & p10 & -> & Hw6 & H).
  apply peel_chr in H. destruct H as (s11 & p11 & -> & H).
  apply peel_star in H. destruct H as (w7 & s12 & p12 & -> & Hw7 & H).
  apply peel_group in H. destruct H as (v & s14 & p14 & -> & Hnv & Hv & H).
  apply limit_closing_of in H.
  destruct H as (digits & lim & semi & -> & -> & Hl & Hc & Hm).
  assert (G : group1 m 1 = t /\ group1 m 2 = col /\ group1 m 3 = v
              /\ group m 4 = digits).
  { unfold group1, group. rewrite Hm. destruct digits; auto. }
  destruct G as (-> & -> & -> & ->).
  split.
  - exists w1, w2, w3, w4, w5, w6, w7, lim, semi.
    conjuncts; settle.
  - split; assumption.
Qed.

(** The same for the column-list expression. *)
Lemma selectColumns_shape (s : str) (m : match_result) :
  js_match Patterns.selectColumns s = Some m ->
  columnListText s (group1 m 1) (group1 m 2) (group m 3).
Proof.
  intros H. apply keyword_prefix in H.
  destruct H as (w1 & tl & p0 & post & -> & Hw1 & H).
  destruct H as (cols & s1 & cm & -> & (c1 & Hcols & ->) & H).
  apply peel_cls in Hcols. destruct Hcols as (x & more & q1 & -> & Hx & Hcols).
  apply peel_plus in Hcols.
  destruct Hcols as (w & e & q2 & -> & Hnm & Hmore & [-> ->]).
  rewrite app_nil_r in *.
  apply peel_plus in H. destruct H as (w2 & s2 & p2 & -> & Hn2 & Hw2 & H).
  apply peel_text in H. destruct H as (s3 & p3 & -> & H).
  apply peel_plus in H. destruct H as (w3 & s4 & p4 & -> & Hn3 & Hw3 & H).
  apply peel_group in H. destruct H as (t & s5 & p5 & -> & Hnt & Ht & H).
  apply limit_closing_of in H.
  destruct H as (digits & lim & semi & -> & -> & Hl & Hc & Hm).
  assert (G : group1 m 1 = x :: w /\ group1 m 2 = t /\ group m 3 = digits).
  { unfold group1, group. rewrite Hm. destruct digits; auto. }
  destruct G as (-> & -> & ->).
  exists w1, x, w, w2, w3, lim, semi.
  conjuncts; try settle.
  intros ->. discriminate.
Qed.

End MoreShapes.


Section Branches.

Variable c : client.

Lemma withLimit_requested (b : builder) (m : match_result) (i : nat) :
  row_limit b = None ->
  withLimit b (limitOf m i)
  = Builder (table b) (columns b) (head_count b) (eq_filter b)
            (requestedLimit (group m i)).
Proof.
  intros Hb. unfold withLimit, limitOf, requestedLimit, limit.
  destruct (group m i) as [[|x d]|].
  - destruct b; simpl in *; subst; reflexivity.
  - destruct (toBoolean (parseInt (x :: d))); [reflexivity|].
    destruct b; simpl in *; subst; reflexivity.
  - destruct b; simpl in *; subst; reflexivity.
Qed.

Lemma firstMatch_issue (query : str) (sh : shape) (m : match_result) :
  firstMatch priority (trim (toLowerCase query)) = Some (sh, m) ->
  parseAndExecuteQuery query c = issue sh c m.
Proof.
  intros H. rewrite translate_refines. unfold translateByPriority.
  rewrite H. reflexivity.
Qed.

(** X6.  When the select-all shape is the first to match, the text is
    [select * from] and a table, with an optional limit clause and an
    optional semicolon; the translator asks for every column of that
    table, with the limit that [parseInt] makes of the digits of the
    clause (the double nearest to the number they denote) unless that is
    zero, and returns the rows as they come. *)
Theorem X6_select_all (query : str) (m : match_result) :
  firstMatch priority (trim (toLowerCase query)) = Some (SelectAll, m) ->
  let request := Builder (group1 m 1) (lit "*") false None
                         (requestedLimit (group m 2)) in
  selectAllText (trim (toLowerCase query)) (group1 m 1) (group m 2)
  /\ parseAndExecuteQuery query c
     = ([QueryCall request], answerOf (await c request)).
Proof.
  intros H. cbv zeta. split.
  - apply simpleSelect_shape.
    exact (firstMatch_recognize _ _ H).
  - rewrite (firstMatch_issue _ H). cbn [issue]. unfold simpleSelectBranch.
    rewrite rowsOf_eq, withLimit_requested by reflexivity. reflexivity.
Qed.

(** X7.  When the shape with a string test is the first to match, the
    text is [select * from] a table, [where] a column, [=] and a
    non-empty literal between single quotes that holds no single quote;
    the translator asks for the rows of the table whose column equals
    that literal as a string, with the limit that [parseInt] makes of
    the digits of a limit clause unless that is zero. *)
Theorem X7_where_string (query : str) (m : match_result) :
  firstMatch priority (trim (toLowerCase query)) = Some (WhereString, m) ->
  let request := Builder (group1 m 1) (lit "*") false
                         (Some (group1 m 2, JStr (group1 m 3)))
                         (requestedLimit (group m 4)) in
  whereText (trim (toLowerCase query)) (group1 m 1) (group1 m 2)
            (quoted (group1 m 3)) (group m 4)
  /\ noQuote (group1 m 3)
  /\ parseAndExecuteQuery query c
     = ([QueryCall request], answerOf (await c request)).
Proof.
  intros H. cbv zeta.
  pose proof (firstMatch_recognize _ _ H) as Hr. cbn [recognize] in Hr.
  apply whereString_shape in Hr. destruct Hr as [Hs Hq].
  split; [exact Hs|]. split; [exact Hq|].
  rewrite (firstMatch_issue _ H). cbn [issue]. unfold whereStringBranch.
  rewrite rowsOf_eq, withLimit_requested by reflexivity. reflexivity.
Qed.

(** X8.  When the shape with a numeric test is the first to match, the
    text is [select * from] a table, [where] a column, [=] and digits;
    the translator asks for the rows of the table whose column equals
    the number that [parseInt] makes of the digits, which is the double
    nearest to the number they denote (the number itself up to
    [2^53]), with the limit of a limit clause read in the same way
    unless that is zero. *)
Theorem X8_where_number (query : str) (m : match_result) :
  firstMatch priority (trim (toLowerCase query)) = Some (WhereNum, m) ->
  let request := Builder (group1 m 1) (lit "*") false
                         (Some (group1 m 2, JNum (parseInt (group1 m 3))))
                         (requestedLimit (group m 4)) in
  whereText (trim (toLowerCase query)) (group1 m 1) (group1 m 2)
            (group1 m 3) (group m 4)
  /\ digitsText (group1 m 3)
  /\ parseAndExecuteQuery query c
     = ([QueryCall request], answerOf (await c request)).
Proof.
  intros H. cbv zeta.
  pose proof (firstMatch_recognize _ _ H) as Hr. cbn [recognize] in Hr.
  apply whereNum_shape in Hr. destruct Hr as [Hs Hq].
  split; [exact Hs|]. split; [exact Hq|].
  rewrite (firstMatch_issue _ H). cbn [issue]. unfold whereNumBranch.
  rewrite rowsOf_eq, withLimit_requested by reflexivity. reflexivity.
Qed.

(** X9.  When the column-list shape is the first to match, the column
    text between [select] and [from] starts with a character other than
    the star and continues with at least one character, none of which is
    one of the letters f, r, o, m; the translator asks for that column
    text, trimmed, of the table, with the limit that [parseInt] makes of
    the digits of a limit clause unless that is zero. *)
Theorem X9_column_list (query : str) (m : match_result) :
  firstMatch priority (trim (toLowerCase query)) = Some (ColumnList, m) ->
  let request := Builder (group1 m 2) (trim (group1 m 1)) false None
                         (requestedLimit (group m 3)) in
  columnListText (trim (toLowerCase query)) (group1 m 1) (group1 m 2)
                 (group m 3)
  /\ parseAndExecuteQuery query c
     = ([QueryCall request], answerOf (await c request)).
Proof.
  intros H. cbv zeta. split.
  - apply selectColumns_shape. exact (firstMatch_recognize _ _ H).
  - rewrite (firstMatch_issue _ H). cbn [issue]. unfold selectColumnsBranch.
    rewrite rowsOf_eq, withLimit_requested by reflexivity. reflexivity.
Qed.

End Branches.

Lemma X6_witness :
  parseAndExecuteQuery (lit "SELECT * FROM products LIMIT 0;") Samples.withoutRpc
  = ([QueryCall (Builder (lit "products") (lit "*") false None None)],
     Return (JArr (map JObj Samples.products)))
  /\ parseAndExecuteQuery (lit "SELECT * FROM products LIMIT 2") Samples.withoutRpc
     = ([QueryCall (Builder (lit "products") (lit "*") false None
                            (Some (ofZ 2)))],
        Return (JArr (map JObj (firstn 2 Samples.products))))
  /\ fst (parseAndExecuteQuery
            (lit "SELECT * FROM products LIMIT 9007199254740993")
            Samples.withoutRpc)
     = [QueryCall (Builder (lit "products") (lit "*") false None
                           (Some (ofZ 9007199254740992)))].
Proof.
  split; [|split].
  - eapply eq_trans;
      [eapply X6_select_all; vm_compute; reflexivity|vm_compute; reflexivity].
  - eapply eq_trans;
      [eapply X6_select_all; vm_compute; reflexivity|vm_compute; reflexivity].
  - eapply eq_trans;
      [eapply f_equal; eapply X6_select_all; vm_compute; reflexivity
      |vm_compute; reflexivity].
Defined.

Lemma X7_witness :
  fst (parseAndExecuteQuery (lit "SELECT * FROM users WHERE city = 'Chicago' LIMIT 5")
                            Samples.withoutRpc)
  = [QueryCall (Builder (lit "users") (lit "*") false
                        (Some (lit "city", JStr (lit "chicago")))
                        (Some (ofZ 5)))].
Proof.
  eapply eq_trans;
    [eapply f_equal; eapply X7_where_string; vm_compute; reflexivity
    |vm_compute; reflexivity].
Defined.

Lemma X8_witness :
  fst (parseAndExecuteQuery (lit "SELECT * FROM products WHERE price = 0100;")
                            Samples.withoutRpc)
  = [QueryCall (Builder (lit "products") (lit "*") false
                        (Some (lit "price", JNum 100)) None)]
  /\ fst (parseAndExecuteQuery
            (lit "SELECT * FROM orders WHERE id = 9007199254740993")
            Samples.withoutRpc)
     = [QueryCall (Builder (lit "orders") (lit "*") false
                           (Some (lit "id", JNum 9007199254740992)) None)].
Proof.
  split.
  - eapply eq_trans;
      [eapply f_equal; eapply X8_where_number; vm_compute; reflexivity
      |vm_compute; reflexivity].
  - eapply eq_trans;
      [eapply f_equal; eapply X8_where_number; vm_compute; reflexivity
      |vm_compute; reflexivity].
Defined.

Lemma X9_witness :
  fst (parseAndExecuteQuery (lit "SELECT id, sku FROM products")
                            Samples.withoutRpc)
  = [QueryCall (Builder (lit "products") (lit "id, sku") false None None)].
Proof.
  eapply eq_trans;
    [eapply f_equal;
     eapply X9_column_list; vm_compute; reflexivity
    |vm_compute; reflexivity].
Defined.

Section Substrings.

Lemma trimStart_suffix (s : str) : exists a, s = a ++ trimStart s.
Proof.
  induction s as [|x s (a & IH)]; simpl.
  - exists []. reflexivity.
  - destruct (is_space x).
    + exists (x :: a). simpl. rewrite <- IH. reflexivity.
    + exists []. reflexivity.
Qed.

Lemma trimEnd_prefix (s : str) : exists b, s = trimEnd s ++ b.
Proof.
  unfold trimEnd. destruct (trimStart_suffix (rev s)) as (a & E).
  exists (rev a). rewrite <- rev_app_distr, <- E, rev_involutive. reflexivity.
Qed.

(** A trimmed text is a part of the text. *)
Lemma trim_part (s : str) : exists a b, s = a ++ trim s ++ b.
Proof.
  unfold trim. destruct (trimStart_suffix s) as (a & Ea).
  destruct (trimEnd_prefix (trimStart s)) as (b & Eb).
  exists a, b. rewrite <- Eb. exact Ea.
Qed.

Lemma in_trim (x : ascii) (s : str) : In x (trim s) -> In x s.
Proof.
  intros H. destruct (trim_part s) as (a & b & E). rewrite E.
  apply in_or_app. right. apply in_or_app. left. exact H.
Qed.

Lemma in_skipn {A} (x : A) (n : nat) (l : list A) : In x (skipn n l) -> In x l.
Proof.
  intros H. rewrite <- (firstn_skipn n l). apply in_or_app. right. exact H.
Qed.

Lemma in_afterKeyword (x : ascii) (s : str) : In x (afterKeyword s) -> In x s.
Proof.
  unfold afterKeyword. intros H.
  apply (@in_skipn _ x 6). destruct (trimStart_suffix (skipn 6 s)) as (a & E).
  rewrite E. apply in_or_app. right. exact H.
Qed.

Lemma lower_star (x : ascii) : lower_char x = "*"%char -> x = "*"%char.
Proof.
  destruct x as [[] [] [] [] [] [] [] []]; vm_compute; congruence.
Qed.

Lemma in_lower_star (s : str) :
  In "*"%char (toLowerCase s) -> In "*"%char s.
Proof.
  unfold toLowerCase. intros H. apply in_map_iff in H.
  destruct H as (x & Hx & Hin). apply lower_star in Hx. subst. exact Hin.
Qed.

End Substrings.

Section NoStar.

Variable c : client.

(** Every expression of the translator but the column-list one needs a
    star in the text. *)
Lemma star_needed (sh : shape) (s : str) (m : match_result) :
  recognize sh s = Some m -> sh <> ColumnList -> In "*"%char s.
Proof.
  intros H Hsh. destruct sh; cbn [recognize] in H; try contradiction.
  - apply starts_with_star in H. destruct H as (r & E).
    apply in_afterKeyword. rewrite E. left. reflexivity.
  - apply starts_with_count in H. destruct H as (r & E).
    apply in_afterKeyword. rewrite E. simpl. tauto.
  - apply starts_with_star in H. destruct H as (r & E).
    apply in_afterKeyword. rewrite E. left. reflexivity.
  - apply starts_with_star in H. destruct H as (r & E).
    apply in_afterKeyword. rewrite E. left. reflexivity.
  - destruct (js_match Patterns.groupBy s) as [m'|] eqn:E; [|discriminate].
    apply groupBy_shape in E.
    destruct E as (w1 & w2 & w3 & mid & w4 & w5 & w6 & w7 & w8 & -> & _).
    apply in_or_app. right. apply in_or_app. right.
    apply in_or_app. right. apply in_or_app. right.
    apply in_or_app. right. apply in_or_app. left. simpl. tauto.
  - apply basicSelect_shape in H.
    destruct H as (pre & d1 & d2 & w & post & -> & _).
    apply in_or_app. right. apply in_or_app. right.
    apply in_or_app. right. apply in_or_app. left. simpl. tauto.
Qed.

Lemma firstMatch_without_star (s : str) :
  ~ In "*"%char s ->
  firstMatch priority s
  = match js_match Patterns.selectColumns s with
    | Some m => Some (ColumnList, m)
    | None => None
    end.
Proof.
  intros Hno.
  assert (Hn : forall sh, sh <> ColumnList -> recognize sh s = None).
  { intros sh Hsh. destruct (recognize sh s) eqn:E; [|reflexivity].
    elim Hno. eapply star_needed; eassumption. }
  unfold priority. cbn [firstMatch].
  rewrite (Hn SelectAll), (Hn CountAll), (Hn WhereString), (Hn WhereNum)
    by discriminate.
  change (recognize ColumnList s) with (js_match Patterns.selectColumns s).
  destruct (js_match Patterns.selectColumns s); [reflexivity|].
  rewrite (Hn GroupCount), (Hn LooseSelect) by discriminate. reflexivity.
Qed.

(** X10.  A query that holds no star is answered through the column-list
    shape or not at all: every other shape of the translator needs a
    star in the text. *)
Theorem X10_without_star (query : str) :
  ~ In "*"%char query ->
  parseAndExecuteQuery query c
  = match js_match Patterns.selectColumns (trim (toLowerCase query)) with
    | Some m => selectColumnsBranch c m
    | None => (unsupportedWarnings, Throw (msgUnsupported query))
    end.
Proof.
  intros Hno. rewrite translate_refines. unfold translateByPriority.
  rewrite firstMatch_without_star.
  - destruct (js_match Patterns.selectColumns _); reflexivity.
  - intros H. apply Hno. apply in_lower_star. eapply in_trim. exact H.
Qed.

End NoStar.

Lemma X10_witness :
  parseAndExecuteQuery (lit "SELECT name FROM users") Samples.withoutRpc
  = (unsupportedWarnings, Throw (msgUnsupported (lit "SELECT name FROM users"))).
Proof.
  eapply eq_trans.
  - apply (@X10_without_star Samples.withoutRpc (lit "SELECT name FROM users")).
    vm_compute. intuition discriminate.
  - vm_compute. reflexivity.
Defined.

Section LowerCase.

Unset Implicit Arguments.

Lemma lower_char_idem (x : ascii) : lower_char (lower_char x) = lower_char x.
Proof. destruct x as [[] [] [] [] [] [] [] []]; vm_compute; reflexivity. Qed.

Lemma toLowerCase_lowered (s : str) : lowered (toLowerCase s).
Proof.
  unfold lowered, toLowerCase. rewrite map_map.
  apply map_ext. exact lower_char_idem.
Qed.

Lemma app_same_length {A} (a a' b b' : list A) :
  length a = length a' -> a ++ b = a' ++ b' -> a = a' /\ b = b'.
Proof.
  revert a'. induction a as [|x a IH]; intros [|y a'] Hl E;
    simpl in *; try discriminate; [auto|].
  inversion E; subst. destruct (IH a') as [-> ->]; auto.
Qed.

Lemma lowered_part (a v b : str) : lowered (a ++ v ++ b) -> lowered v.
Proof.
  unfold lowered, toLowerCase. rewrite !map_app. intros E.
  apply app_same_length in E; [|apply length_map].
  destruct E as [_ E].
  apply app_same_length in E; [|apply length_map].
  exact (proj1 E).
Qed.

Lemma part_left (v s1 s2 : str) : part v s1 -> part v (s1 ++ s2).
Proof.
  intros (a & b & ->). exists a, (b ++ s2). rewrite <- !app_assoc. reflexivity.
Qed.

Lemma part_right (v s1 s2 : str) : part v s2 -> part v (s1 ++ s2).
Proof.
  intros (a & b & ->). exists (s1 ++ a), b. rewrite <- !app_assoc. reflexivity.
Qed.

Lemma star_caps_part (a : regex) :
  (forall pos s post cin cout, matches a pos s post cin cout ->
     forall i v, In (i, v) cout -> In (i, v) cin \/ part v s) ->
  forall pos s post cin cout, star_of (matches a) pos s post cin cout ->
    forall i v, In (i, v) cout -> In (i, v) cin \/ part v s.
Proof.
  intros Ha pos s post cin cout H.
  induction H as [|pos s1 s2 post c0 c1 c2 H1 _ IH]; intros i v Hin.
  - auto.
  - destruct (IH i v Hin) as [Hc|Hp].
    + destruct (Ha _ _ _ _ _ H1 i v Hc) as [Hc'|Hp]; [auto|].
      right. apply part_left. exact Hp.
    + right. apply part_right. exact Hp.
Qed.

(** A group captured by a match is a part of the matched text. *)
Lemma matches_caps_part (r : regex) :
  forall pos s post cin cout, matches r pos s post cin cout ->
    forall i v, In (i, v) cout -> In (i, v) cin \/ part v s.
Proof.
  induction r as [|p|a IHa b IHb|a IHa b IHb|a IHa|j a IHa| |];
    intros pos s post cin cout H i v Hin; cbn [matches] in H.
  - destruct H as [_ ->]. auto.
  - destruct H as [_ ->]. auto.
  - destruct H as (s1 & s2 & cm & -> & H1 & H2).
    destruct (IHb _ _ _ _ _ H2 i v Hin) as [Hc|Hp].
    + destruct (IHa _ _ _ _ _ H1 i v Hc) as [Hc'|Hp]; [auto|].
      right. apply part_left. exact Hp.
    + right. apply part_right. exact Hp.
  - destruct H as [H|H]; [eapply IHa|eapply IHb]; eassumption.
  - eapply (star_caps_part a IHa); eassumption.
  - destruct H as (cm & H & ->). destruct Hin as [E|Hin].
    + inversion E; subst. right. exists [], []. rewrite app_nil_r. reflexivity.
    + eapply IHa; eassumption.
  - destruct H as (_ & _ & ->). auto.
  - destruct H as (_ & _ & ->). auto.
Qed.

Lemma assoc_in (i : nat) (l : list (nat * str)) (v : str) :
  assoc i l = Some v -> In (i, v) l.
Proof.
  induction l as [|[j w] l IH]; simpl; [discriminate|].
  destruct (j =? i) eqn:E.
  - intros H. inversion H; subst. apply Nat.eqb_eq in E. subst. auto.
  - auto.
Qed.

Lemma group_part (r : regex) (s : str) (m : match_result) (i : nat) (v : str) :
  js_match r s = Some m -> group m i = Some v -> part v s.
Proof.
  intros H Hg. apply js_match_sound in H.
  destruct H as (pre & post & E & _ & H).
  apply assoc_in in Hg.
  destruct (matches_caps_part _ _ _ _ _ _ H i v Hg) as [[]|Hp].
  rewrite E. apply part_right, part_left. exact Hp.
Qed.

Lemma group1_lowered (r : regex) (s : str) (m : match_result) (i : nat) :
  js_match r s = Some m -> lowered s -> lowered (group1 m i).
Proof.
  intros H Hs. unfold group1. destruct (group m i) as [v|] eqn:Hg.
  - destruct (group_part _ _ _ _ _ H Hg) as (a & b & E).
    rewrite E in Hs. exact (lowered_part _ _ _ Hs).
  - reflexivity.
Qed.

Lemma lowered_trim (s : str) : lowered s -> lowered (trim s).
Proof.
  intros H. destruct (trim_part s) as (a & b & E). rewrite E in H.
  exact (lowered_part _ _ _ H).
Qed.

Lemma withLimit_same (b : builder) (l : option number) :
  table (withLimit b l) = table b
  /\ columns (withLimit b l) = columns b
  /\ eq_filter (withLimit b l) = eq_filter b.
Proof.
  unfold withLimit. destruct l as [n|]; [destruct (toBoolean n)|]; auto.
Qed.

Lemma recognize_match (sh : shape) (s : str) (m : match_result) :
  recognize sh s = Some m -> exists r, js_match r s = Some m.
Proof.
  destruct sh; cbn [recognize]; try (intros H; eexists; exact H).
  destruct (js_match Patterns.groupBy s) as [m'|] eqn:E; [|discriminate].
  destruct (str_eqb _ _); [|discriminate].
  intros H. inversion H; subst. eexists. exact E.
Qed.

Set Implicit Arguments.

Variable c : client.

(** X11.  The translator works on the lower-cased query: the table, the
    column text and the column and string literal of an equality test
    that it hands to the query builder hold no upper-case letter,
    whatever the letter case of the query. *)
Theorem X11_requests_are_lower_case (query : str) (b : builder) :
  In (QueryCall b) (fst (parseAndExecuteQuery query c)) ->
  lowered (table b) /\ lowered (columns b)
  /\ forall column value,
       eq_filter b = Some (column, JStr value) ->
       lowered column /\ lowered value.
Proof.
  rewrite translate_refines. unfold translateByPriority.
  destruct (firstMatch priority _) as [[sh m]|] eqn:F.
  - apply firstMatch_recognize in F.
    destruct (recognize_match _ _ _ F) as (r & Hr).
    assert (Hg : forall i, lowered (group1 m i)).
    { intros i. apply (group1_lowered _ _ _ _ Hr).
      apply lowered_trim, toLowerCase_lowered. }
    assert (Hstar : lowered (lit "*")) by reflexivity.
    assert (Hone : forall b', fst (issue sh c m) = [QueryCall b'] ->
              lowered (table b') /\ lowered (columns b')
              /\ forall column value,
                   eq_filter b' = Some (column, JStr value) ->
                   lowered column /\ lowered value).
    { clear F Hr. intros b'.
      destruct sh; cbn [issue];
        unfold simpleSelectBranch, whereStringBranch, whereNumBranch,
               selectColumnsBranch, basicSelectBranch;
        cbv zeta; rewrite ?rowsOf_eq; cbn [fst].
      - intros E. injection E as <-.
        match goal with
        | |- context [withLimit ?bb ?l] =>
            destruct (withLimit_same bb l) as (-> & -> & ->)
        end.
        cbn. repeat split; try apply Hg; try exact Hstar; discriminate.
      - unfold countBranch, run_query, bind.
        destruct (error (await c _)); cbn [fst app];
          intros E; injection E as <-; cbn;
          repeat split; try apply Hg; try exact Hstar; discriminate.
      - intros E. injection E as <-.
        match goal with
        | |- context [withLimit ?bb ?l] =>
            destruct (withLimit_same bb l) as (-> & -> & ->)
        end.
        cbn. repeat split; try apply Hg; try exact Hstar;
          injection H as <- <-; apply Hg.
      - intros E. injection E as <-.
        match goal with
        | |- context [withLimit ?bb ?l] =>
            destruct (withLimit_same bb l) as (-> & -> & ->)
        end.
        cbn. repeat split; try apply Hg; try exact Hstar; discriminate.
      - intros E. injection E as <-.
        match goal with
        | |- context [withLimit ?bb ?l] =>
            destruct (withLimit_same bb l) as (-> & -> & ->)
        end.
        cbn. repeat split; try apply Hg; try (apply lowered_trim, Hg);
          discriminate.
      - unfold groupByBranch, run_query, bind.
        destruct (error (await c _));
          [|destruct (data (await c _))]; cbn [fst app];
          intros E; injection E as <-; cbn;
          repeat split; try apply Hg; discriminate.
      - intros E. injection E as <-.
        cbn. repeat split; try apply Hg; try exact Hstar; discriminate. }
    intros Hin.
    destruct (issue_one_call c sh m) as (b' & Hb'). rewrite Hb' in Hin.
    destruct Hin as [E|[]]. inversion E; subst b'. exact (Hone b Hb').
  - simpl. intros H.
    repeat (destruct H as [H|H]; [discriminate|]). destruct H.
Qed.

End LowerCase.

Lemma X11_witness :
  lowered (lit "users") /\ lowered (lit "*")
  /\ forall column value,
       Some (lit "city", JStr (lit "chicago")) = Some (column, JStr value) ->
       lowered column /\ lowered value.
Proof.
  apply (@X11_requests_are_lower_case Samples.withoutRpc
           (lit "SELECT * FROM Users WHERE City = 'Chicago'")
           (Builder (lit "users") (lit "*") false
                    (Some (lit "city", JStr (lit "chicago"))) None)).
  vm_compute. left. reflexivity.
Defined.

Section FromLetters.

Unset Implicit Arguments.

Lemma first_such {A} (f : A -> bool) (l : list A) :
  existsb f l = true ->
  exists pre z post,
    l = pre ++ z :: post
    /\ forallb (fun y => negb (f y)) pre = true /\ f z = true.
Proof.
  induction l as [|x l IH]; simpl; [discriminate|].
  destruct (f x) eqn:E.
  - intros _. exists [], x, l. auto.
  - intros H. destruct (IH H) as (pre & z & post & -> & Hp & Hz).
    exists (x :: pre), z, post. simpl. rewrite E. auto.
Qed.

(** Two runs of whitespace at the start of a text: the one that is
    followed by something else is the longer. *)
Lemma space_prefixes (w1 w1' : str) (x : ascii) (A B : str) :
  forallb is_space w1 = true -> forallb is_space w1' = true ->
  is_space x = false ->
  w1 ++ x :: A = w1' ++ B -> exists u, w1 = w1' ++ u.
Proof.
  revert w1'. induction w1 as [|a w1 IH]; intros [|b w1'] H1 H2 Hx E;
    simpl in *.
  - exists []. reflexivity.
  - inversion E; subst. apply andb_prop in H2. destruct H2. congruence.
  - exists (a :: w1). reflexivity.
  - inversion E; subst. apply andb_prop in H1. apply andb_prop in H2.
    destruct H1, H2. destruct (IH w1') as (u & ->); auto.
    exists u. reflexivity.
Qed.

Lemma space_not_from (x : ascii) : is_space x = true -> fromLetter x = false.
Proof. destruct x as [[] [] [] [] [] [] [] []]; vm_compute; congruence. Qed.

Lemma from_is_word (x : ascii) : fromLetter x = true -> is_word x = true.
Proof. destruct x as [[] [] [] [] [] [] [] []]; vm_compute; congruence. Qed.

Lemma spaces_not_from (w : str) :
  forallb is_space w = true -> forallb (fun y => negb (fromLetter y)) w = true.
Proof.
  induction w as [|x w IH]; simpl; [reflexivity|].
  intros H. apply andb_prop in H. destruct H as [Hx Hw].
  rewrite (space_not_from _ Hx), (IH Hw). reflexivity.
Qed.

Lemma last_char (l : str) : l <> [] -> exists l' z, l = l' ++ [z].
Proof.
  intros H. destruct (exists_last H) as (l' & z & ->). eauto.
Qed.

Lemma app_last_eq (l1 l2 : str) (a b : ascii) :
  l1 ++ [a] = l2 ++ [b] -> a = b.
Proof. intros E. apply app_inj_tail in E. tauto. Qed.

(** A word that ends where the whitespace after the letters [rom]
    begins is those three letters. *)
Lemma word_before_gap (a : str) (y : ascii) (rest w r : str) :
  forallb is_word a = true -> is_word y = false ->
  w <> [] -> forallb is_space w = true ->
  a ++ y :: rest = lit "rom" ++ w ++ r -> a = lit "rom".
Proof.
  intros Ha Hy Hn Hw E. cbn [lit list_ascii_of_string app] in E.
  destruct w as [|sp w]; [contradiction|].
  cbn [forallb] in Hw. apply andb_prop in Hw. destruct Hw as [Hsp _].
  destruct a as [|c1 a]; simpl in E.
  { inversion E; subst. discriminate. }
  injection E as -> E. destruct a as [|c2 a]; simpl in E.
  { inversion E; subst. discriminate. }
  injection E as -> E. destruct a as [|c3 a]; simpl in E.
  { inversion E; subst. discriminate. }
  injection E as -> E. destruct a as [|c4 a]; simpl in E.
  { reflexivity. }
  injection E as -> E. simpl in Ha.
  rewrite (space_not_word _ Hsp) in Ha. discriminate.
Qed.


Lemma space_word_clash (l1 l2 : str) (a b : ascii) :
  l1 ++ [a] = l2 ++ [b] -> is_word a = true -> is_space b = true -> False.
Proof.
  intros E Ha Hb. apply app_last_eq in E. subst.
  rewrite (space_not_word _ Hb) in Ha. discriminate.
Qed.

(** The column-list expression does not match a text whose first column
    is a word with one of the letters f, r, o, m after its first
    character, unless that word is [from]. *)
Lemma column_list_refuses (s w1 col : str) (y : ascii) (rest : str)
      (cols table : str) (digits : option str) :
  s = lit "select" ++ w1 ++ col ++ y :: rest ->
  gap w1 -> wordText col -> is_word y = false ->
  existsb fromLetter (tl col) = true ->
  col <> lit "from" ->
  columnListText s cols table digits -> False.
Proof.
  intros -> [Hn1 Hw1] [Hnc Hc] Hy Hex Hsw
         (w1' & x' & more' & w2' & w3' & lim & semi & E & -> & Hx' & Hnm
          & Hm' & [Hn1' Hw1'] & [Hn2' Hw2'] & [Hn3' Hw3'] & _).
  unfold blank in *.
  apply app_inv_head in E.
  destruct col as [|x more]; [contradiction|]. clear Hnc.
  cbn [tl] in Hex. cbn [forallb] in Hc. apply andb_prop in Hc.
  destruct Hc as [Hx Hmore].
  assert (Hxs : is_space x = false).
  { destruct (is_space x) eqn:Es; [|reflexivity].
    rewrite (space_not_word _ Es) in Hx. discriminate. }
  cbn [app] in E.
  destruct (space_prefixes w1 w1' x _ _ Hw1 Hw1' Hxs E) as (u & ->).
  rewrite <- app_assoc in E. apply app_inv_head in E.
  rewrite forallb_app in Hw1. apply andb_prop in Hw1. destruct Hw1 as [_ Hu].
  destruct (first_such _ _ Hex) as (pre & z & post & -> & Hpre & Hz).
  rewrite forallb_app in Hmore. apply andb_prop in Hmore.
  destruct Hmore as [Hprew Hzw].
  assert (HP : forallb (fun y => negb (fromLetter y)) (more' ++ w2') = true).
  { rewrite forallb_app, Hm', (spaces_not_from _ Hw2'). reflexivity. }
  destruct (last_char w2' Hn2') as (w2'' & sp & ->).
  assert (Hsp : is_space sp = true).
  { rewrite forallb_app in Hw2'. apply andb_prop in Hw2'.
    destruct Hw2' as [_ H]. simpl in H. rewrite andb_true_r in H. exact H. }
  cbn [lit list_ascii_of_string app] in E.
  destruct u as [|a u'].
  - cbn [app] in E. injection E as <- E.
    rewrite <- app_assoc in E. cbn [app] in E.
    rewrite (app_assoc more') in E.
    edestruct (@span_unique (fun y => negb (fromLetter y)) pre
                 (more' ++ w2'' ++ [sp]) z "f"%char) as (Ep & _ & _);
      [exact Hpre|exact HP|rewrite Hz; reflexivity|reflexivity|exact E|].
    assert (Hnp : pre <> []).
    { intros ->. destruct more'; [contradiction|discriminate Ep]. }
    destruct (last_char pre Hnp) as (pre' & l & ->).
    rewrite (app_assoc more') in Ep.
    apply (space_word_clash _ _ _ _ Ep); [|exact Hsp].
    rewrite forallb_app in Hprew. apply andb_prop in Hprew.
    destruct Hprew as [_ H]. simpl in H. rewrite andb_true_r in H. exact H.
  - cbn [app] in E. injection E as <- E.
    rewrite (app_assoc more') in E.
    cbn [forallb] in Hu. apply andb_prop in Hu. destruct Hu as [_ Hu].
    destruct (fromLetter x) eqn:Fx.
    + edestruct (@span_unique (fun y => negb (fromLetter y)) u'
                   (more' ++ w2'' ++ [sp]) x "f"%char) as (_ & Ex & Er);
        [exact (spaces_not_from _ Hu)|exact HP|rewrite Fx; reflexivity
        |reflexivity|exact E|].
      subst x. apply Hsw.
      cbn [lit list_ascii_of_string]. f_equal.
      apply (word_before_gap _ y rest w3' (table ++ lim ++ semi)).
      * rewrite forallb_app, Hprew, Hzw. reflexivity.
      * exact Hy.
      * exact Hn3'.
      * exact Hw3'.
      * exact Er.
    + assert (HL : forallb (fun y => negb (fromLetter y)) (u' ++ x :: pre) = true).
      { rewrite forallb_app, (spaces_not_from _ Hu). cbn [forallb].
        rewrite Fx, Hpre. reflexivity. }
      assert (E2 : (u' ++ x :: pre) ++ z :: post ++ y :: rest
                   = (more' ++ w2'' ++ [sp])
                     ++ "f"%char :: "r"%char :: "o"%char :: "m"%char
                        :: w3' ++ table ++ lim ++ semi).
      { rewrite <- E. repeat (rewrite <- ?app_assoc; cbn [app]).
        reflexivity. }
      edestruct (@span_unique (fun y => negb (fromLetter y)) (u' ++ x :: pre)
                   (more' ++ w2'' ++ [sp]) z "f"%char) as (Ep & _ & _);
        [exact HL|exact HP|rewrite Hz; reflexivity|reflexivity|exact E2|].
      rewrite (app_assoc more') in Ep.
      destruct pre as [|p0 pre0].
      * apply (space_word_clash _ _ _ _ Ep); [exact Hx|exact Hsp].
      * assert (Hnp : p0 :: pre0 <> []) by discriminate.
        destruct (last_char (p0 :: pre0) Hnp) as (pre' & l & El).
        rewrite El in Ep, Hprew.
        change (u' ++ x :: pre' ++ [l]) with (u' ++ (x :: pre') ++ [l]) in Ep.
        rewrite app_assoc in Ep.
        apply (space_word_clash _ _ _ _ Ep); [|exact Hsp].
        rewrite forallb_app in Hprew. apply andb_prop in Hprew.
        destruct Hprew as [_ H]. simpl in H. rewrite andb_true_r in H. exact H.
Qed.

Set Implicit Arguments.

End FromLetters.

Section FromLettersTheorem.

Variable c : client.

(** X12.  A query without a star whose first selected column is a word
    other than [from] with one of the letters f, r, o, m after its
    first character is not translated: the class [[^from]] of the
    column-list expression excludes those four letters, so the call
    fails as an unsupported pattern without a request to the backend. *)
Theorem X12_column_with_from_letter_unsupported
        (query w1 col : str) (y : ascii) (rest : str) :
  trim (toLowerCase query) = lit "select" ++ w1 ++ col ++ y :: rest ->
  gap w1 -> wordText col -> is_word y = false ->
  existsb fromLetter (tl col) = true ->
  col <> lit "from" ->
  ~ In "*"%char query ->
  parseAndExecuteQuery query c
  = (unsupportedWarnings, Throw (msgUnsupported query))
  /\ backend_calls unsupportedWarnings = [].
Proof.
  intros E Hw1 Hcol Hy Hex Hsw Hno. split; [|reflexivity].
  rewrite translate_refines. unfold translateByPriority.
  rewrite firstMatch_without_star.
  - destruct (js_match Patterns.selectColumns _) as [m|] eqn:Hm;
      [|reflexivity].
    exfalso. apply selectColumns_shape in Hm.
    exact (column_list_refuses _ _ _ _ _ _ _ _ E Hw1 Hcol Hy Hex Hsw Hm).
  - intros H. apply Hno. apply in_lower_star. eapply in_trim. exact H.
Qed.

End FromLettersTheorem.

Lemma X12_witness :
  (parseAndExecuteQuery (lit "SELECT name, email FROM users") Samples.withoutRpc
   = (unsupportedWarnings,
      Throw (msgUnsupported (lit "SELECT name, email FROM users")))
   /\ backend_calls unsupportedWarnings = [])
  /\ (parseAndExecuteQuery (lit "SELECT from_date FROM orders")
                           Samples.withoutRpc
      = (unsupportedWarnings,
         Throw (msgUnsupported (lit "SELECT from_date FROM orders")))
      /\ backend_calls unsupportedWarnings = []).
Proof.
  split.
  - apply (@X12_column_with_from_letter_unsupported Samples.withoutRpc
             (lit "SELECT name, email FROM users") (lit " ") (lit "name")
             ","%char (lit " email from users")).
    + vm_compute. reflexivity.
    + split; [discriminate|reflexivity].
    + split; [discriminate|reflexivity].
    + reflexivity.
    + reflexivity.
    + discriminate.
    + vm_compute. intuition discriminate.
  - apply (@X12_column_with_from_letter_unsupported Samples.withoutRpc
             (lit "SELECT from_date FROM orders") (lit " ") (lit "from_date")
             " "%char (lit "from orders")).
    + vm_compute. reflexivity.
    + split; [discriminate|reflexivity].
    + split; [discriminate|reflexivity].
    + reflexivity.
    + reflexivity.
    + discriminate.
    + vm_compute. intuition discriminate.
Defined.

(** ** The shapes determine their parts *)

Section Unique.

Unset Implicit Arguments.

(** Two ways of cutting a text after a run of one class agree, also
    when the text ends with the run. *)
Lemma span_stop (p : ascii -> bool) (l1 l2 r1 r2 : str) :
  forallb p l1 = true -> forallb p l2 = true ->
  stops p r1 -> stops p r2 ->
  l1 ++ r1 = l2 ++ r2 -> l1 = l2 /\ r1 = r2.
Proof.
  revert l2. induction l1 as [|a l1 IH]; intros [|b l2] H1 H2 S1 S2 E;
    simpl in *.
  - auto.
  - subst r1. simpl in S1. apply andb_prop in H2. destruct H2. congruence.
  - subst r2. simpl in S2. apply andb_prop in H1. destruct H1. congruence.
  - inversion E; subst. apply andb_prop in H1. apply andb_prop in H2.
    destruct H1, H2. destruct (IH l2) as [-> ->]; auto.
Qed.

Lemma stops_space_word (t r : str) : wordText t -> stops is_space (t ++ r).
Proof.
  intros [Hne Ht]. destruct t as [|x t]; [contradiction|]. simpl in *.
  apply andb_prop in Ht. destruct Ht as [Hx _].
  destruct (is_space x) eqn:E; [|reflexivity].
  rewrite (space_not_word _ E) in Hx. discriminate.
Qed.

Lemma stops_word_gap (w r : str) : gap w -> stops is_word (w ++ r).
Proof.
  intros [Hne Hw]. destruct w as [|x w]; [contradiction|].
  unfold blank in Hw. simpl in *.
  apply andb_prop in Hw. destruct Hw as [Hx _].
  apply space_not_word. exact Hx.
Qed.

Lemma stops_word_closing (semi : str) : closing semi -> stops is_word semi.
Proof.
  intros [->|(w & Hw & ->)]; [exact I|].
  destruct w as [|x w]; [reflexivity|]. unfold blank in Hw. simpl in *.
  apply andb_prop in Hw. destruct Hw as [Hx _].
  apply space_not_word. exact Hx.
Qed.

Lemma blank_app (a b : str) : blank a -> gap b -> gap (a ++ b).
Proof.
  unfold gap, blank. intros Ha [Hne Hb]. split.
  - destruct a; [exact Hne|discriminate].
  - rewrite forallb_app, Ha, Hb. reflexivity.
Qed.

(** The tail of both shapes: whitespace, a word, and what follows. *)
Lemma gap_word_unique (w w' t t' r r' : str) :
  gap w -> gap w' -> wordText t -> wordText t' ->
  stops is_word r -> stops is_word r' ->
  w ++ t ++ r = w' ++ t' ++ r' -> t = t' /\ r = r'.
Proof.
  intros [_ Hw] [_ Hw'] Ht Ht' Hr Hr' E.
  destruct (span_stop is_space w w' (t ++ r) (t' ++ r') Hw Hw'
              (stops_space_word t r Ht) (stops_space_word t' r' Ht') E)
    as [_ E1].
  exact (span_stop is_word t t' r r' (proj2 Ht) (proj2 Ht') Hr Hr' E1).
Qed.

Ltac flat E :=
  cbn [lit list_ascii_of_string app] in E;
  repeat (rewrite <- app_assoc in E; cbn [app] in E).

(** A text has the count-all shape in one way only. *)
Lemma countAllText_unique (s : str) (a a' : option str) (t t' : str) :
  countAllText s a t -> countAllText s a' t' -> a = a' /\ t = t'.
Proof.
  intros (w1 & w2 & mid & w3 & semi & -> & [_ H1] & H2 & G3 & Ht & Hc & Hmid)
         (v1 & v2 & mid' & v3 & semi' & E & [_ K1] & K2 & J3 & Ht' & Hc' & Hmid').
  unfold blank in *.
  apply app_inv_head in E.
  apply (span_stop is_space) in E; try assumption; try reflexivity.
  destruct E as [_ E]. apply app_inv_head in E.
  assert (S : forall (al : option str) (m rest : str),
            match al with
            | None => m = []
            | Some x => exists w4 w5, m = lit "as" ++ w4 ++ x ++ w5
                                      /\ gap w4 /\ gap w5 /\ wordText x
            end -> stops is_space (m ++ lit "from" ++ rest)).
  { intros [x|] m rest Hm.
    - destruct Hm as (w4 & w5 & -> & _). reflexivity.
    - subst m. reflexivity. }
  apply (span_stop is_space) in E; try assumption;
    try (eapply S; eassumption).
  destruct E as [_ E].
  destruct a as [x|], a' as [x'|].
  - destruct Hmid as (w4 & w5 & -> & G4 & G5 & Hx).
    destruct Hmid' as (v4 & v5 & -> & J4 & J5 & Hx').
    flat E. injection E as E.
    apply gap_word_unique in E; try assumption;
      try (apply stops_word_gap; assumption).
    destruct E as [-> E].
    apply (span_stop is_space) in E; try reflexivity;
      try apply G5; try apply J5.
    destruct E as [_ E]. injection E as E.
    apply gap_word_unique in E; try assumption;
      try (apply stops_word_closing; assumption).
    destruct E as [-> _]. auto.
  - destruct Hmid as (w4 & w5 & -> & _). subst mid'. discriminate E.
  - destruct Hmid' as (v4 & v5 & -> & _). subst mid. discriminate E.
  - subst mid mid'. flat E. injection E as E.
    apply gap_word_unique in E; try assumption;
      try (apply stops_word_closing; assumption).
    destruct E as [-> _]. auto.
Qed.

(** A text has the group-count shape in one way only. *)
Lemma groupCountText_unique (s col col1 : str) (a a' : option str)
      (t t' col2 col3 : str) :
  groupCountText s col a t col2 -> groupCountText s col1 a' t' col3 ->
  col = col1 /\ a = a' /\ t = t' /\ col2 = col3.
Proof.
  intros (w1 & w2 & w3 & mid & w4 & w5 & w6 & w7 & w8 & -> & G1 & H2 & H3
          & G4 & G5 & G6 & G7 & G8 & Hc & Ht & Hc2 & Hmid)
         (v1 & v2 & v3 & mid' & v4 & v5 & v6 & v7 & v8 & E & J1 & K2 & K3
          & J4 & J5 & J6 & J7 & J8 & Hc1 & Ht' & Hc3 & Hmid').
  apply app_inv_head in E.
  apply gap_word_unique in E; try assumption; try reflexivity.
  destruct E as [<- E]. flat E. injection E as E.
  unfold blank in H2, K2.
  apply (span_stop is_space) in E; try assumption; try reflexivity.
  destruct E as [_ E]. flat E.
  injection E as E.
  (* the tail from [from] on *)
  assert (Tail : forall x5 y5 x6 y6 x7 y7 x8 y8 : str,
            gap x5 -> gap y5 -> gap x6 -> gap y6 -> gap x7 -> gap y7 ->
            gap x8 -> gap y8 ->
            x5 ++ t ++ x6 ++ lit "group" ++ x7 ++ lit "by" ++ x8 ++ col2
            = y5 ++ t' ++ y6 ++ lit "group" ++ y7 ++ lit "by" ++ y8 ++ col3 ->
            t = t' /\ col2 = col3).
  { intros x5 y5 x6 y6 x7 y7 x8 y8 A5 B5 A6 B6 A7 B7 A8 B8 E0.
    apply gap_word_unique in E0; try assumption;
      try (apply stops_word_gap; assumption).
    destruct E0 as [-> E0]. split; [reflexivity|].
    apply (span_stop is_space) in E0; try reflexivity;
      try apply A6; try apply B6.
    destruct E0 as [_ E0]. flat E0. injection E0 as E0.
    apply (span_stop is_space) in E0; try reflexivity;
      try apply A7; try apply B7.
    destruct E0 as [_ E0]. flat E0. injection E0 as E0.
    rewrite <- (app_nil_r col2), <- (app_nil_r col3) in E0.
    apply gap_word_unique in E0; try assumption; try exact I.
    tauto. }
  destruct a as [x|], a' as [x'|].
  - destruct Hmid as (w9 & -> & G9 & Hx).
    destruct Hmid' as (v9 & -> & J9 & Hx').
    unfold blank in H3, K3.
    apply (span_stop is_space) in E; try assumption; try reflexivity.
    destruct E as [_ E]. flat E. injection E as E.
    apply gap_word_unique in E; try assumption;
      try (apply stops_word_gap; assumption).
    destruct E as [-> E].
    apply (span_stop is_space) in E; try reflexivity;
      try apply G4; try apply J4.
    destruct E as [_ E]. flat E. injection E as E.
    destruct (Tail _ _ _ _ _ _ _ _ G5 J5 G6 J6 G7 J7 G8 J8 E) as [-> ->].
    auto.
  - destruct Hmid as (w9 & -> & G9 & Hx). subst mid'. exfalso.
    cbn [app] in E. rewrite (app_assoc v3 v4) in E.
    unfold blank in H3, K3.
    apply (span_stop is_space) in E; try assumption; try reflexivity.
    + destruct E as [_ E]. discriminate E.
    + rewrite forallb_app, K3. apply J4.
  - destruct Hmid' as (v9 & -> & J9 & Hx'). subst mid. exfalso.
    cbn [app] in E. rewrite (app_assoc w3 w4) in E.
    unfold blank in H3, K3.
    apply (span_stop is_space) in E; try assumption; try reflexivity.
    + destruct E as [_ E]. discriminate E.
    + rewrite forallb_app, H3. apply G4.
  - subst mid mid'. cbn [app] in E.
    rewrite (app_assoc w3 w4), (app_assoc v3 v4) in E.
    apply (span_stop is_space) in E; try reflexivity;
      try (apply blank_app; assumption).
    destruct E as [_ E]. flat E. injection E as E.
    destruct (Tail _ _ _ _ _ _ _ _ G5 J5 G6 J6 G7 J7 G8 J8 E) as [-> ->].
    auto.
Qed.

Set Implicit Arguments.

End Unique.

Section ShapesRecognised.

Variable c : client.

(** X25.  A query whose cleaned, lower-cased text has the count-all
    shape is always answered by the count request on its table, and by
    nothing else; the answer is one row whose only field is named by the
    alias of the text, [count] when it has none, or the error the
    backend reports. *)
Theorem X25_count_all_shape_is_recognised
        (query : str) (alias : option str) (table : str) :
  countAllText (trim (toLowerCase query)) alias table ->
  let request := Builder table (lit "*") true None None in
  parseAndExecuteQuery query c
  = ([QueryCall request],
     match error (await c request) with
     | Some e => Throw e
     | None =>
         Return (JArr [JObj [(countName alias,
                              match count (await c request) with
                              | Some n => JNum n
                              | None => JNull
                              end)]])
     end).
Proof.
  intros Hs. cbv zeta.
  destruct (js_match Patterns.countAll (trim (toLowerCase query)))
    as [m|] eqn:Hm; [|elim (countAll_complete _ _ _ Hs Hm)].
  destruct (countAllText_unique _ _ _ _ _ (countAll_shape _ Hm) Hs)
    as [Ha Ht].
  unfold parseAndExecuteQuery. cbv zeta.
  rewrite (countAll_excludes _ Hm), Hm.
  unfold countBranch, run_query, bind, from_select_count, orCount.
  rewrite Ha, Ht.
  assert (En : match alias with
               | Some (x :: a) => x :: a
               | _ => lit "count"
               end = countName alias).
  { destruct alias as [[|x a]|]; try reflexivity.
    destruct Hs as (w1 & w2 & mid & w3 & semi & _ & _ & _ & _ & _ & _ & Hmid).
    destruct Hmid as (w4 & w5 & _ & _ & _ & [Hne _]). elim Hne. reflexivity. }
  rewrite En.
  destruct (error (await c _)); [reflexivity|].
  unfold ret. rewrite define_first. reflexivity.
Qed.

(** X26.  A query whose cleaned, lower-cased text has the group-count
    shape with the same column in both places is always answered by one
    request for that column of its table; an error of the backend is
    thrown on, rows are tallied by the translator, and an answer without
    rows ([null]) makes the call fail with a type error, where the other
    branches return an empty array. *)
Theorem X26_group_count_shape_is_recognised
        (query col : str) (alias : option str) (table : str) :
  groupCountText (trim (toLowerCase query)) col alias table col ->
  let request := Builder table col false None None in
  parseAndExecuteQuery query c
  = ([QueryCall request],
     match error (await c request) with
     | Some e => Throw e
     | None =>
         match data (await c request) with
         | Some rows =>
             Return (JArr (groupedToRows col (countName alias)
                                         (groupRows col rows)))
         | None => Throw msgForEachOfNull
         end
     end).
Proof.
  intros Hs. cbv zeta.
  destruct (js_match Patterns.groupBy (trim (toLowerCase query)))
    as [m|] eqn:Hm; [|elim (groupBy_complete _ _ _ _ _ Hs Hm)].
  destruct (groupCountText_unique _ _ _ _ _ _ _ _ _ (groupBy_shape _ Hm) Hs)
    as (H1 & Ha & Ht & H4).
  rewrite (parse_groupBy c _ Hm) by congruence.
  unfold groupByBranch, run_query, bind, from_select, orCount.
  rewrite H1, Ha, Ht.
  assert (En : match alias with
               | Some (x :: a) => x :: a
               | _ => lit "count"
               end = countName alias).
  { destruct alias as [[|x a]|]; try reflexivity.
    destruct Hs as (w1 & w2 & w3 & mid & w4 & w5 & w6 & w7 & w8 & _ & _ & _
                    & _ & _ & _ & _ & _ & _ & _ & _ & _ & Hmid).
    destruct Hmid as (w9 & _ & _ & [Hne _]). elim Hne. reflexivity. }
  rewrite En.
  destruct (error (await c _)); [reflexivity|].
  destruct (data (await c _)); reflexivity.
Qed.

End ShapesRecognised.

Lemma X25_witness :
  parseAndExecuteQuery (lit "SELECT  COUNT(*)  AS total FROM products ;")
                       Samples.withoutRpc
  = ([QueryCall (Builder (lit "products") (lit "*") true None None)],
     Return (JArr [JObj [(lit "total", JNum 3)]])).
Proof.
  eapply eq_trans.
  - apply (@X25_count_all_shape_is_recognised Samples.withoutRpc
             (lit "SELECT  COUNT(*)  AS total FROM products ;")
             (Some (lit "total")) (lit "products")).
    exists (lit "  "), (lit "  "), (lit "as total "), (lit " "), (lit " ;").
    repeat split; try discriminate.
    + right. exists (lit " "). split; reflexivity.
    + exists (lit " "), (lit " "). repeat split; discriminate.
  - vm_compute. reflexivity.
Defined.

Lemma X26_witness :
  parseAndExecuteQuery
    (lit "SELECT category, COUNT(*) FROM products GROUP BY category")
    (Client (fun _ _ => RpcResponse JNull None)
            (fun _ => QueryResponse None None None))
  = ([QueryCall (Builder (lit "products") (lit "category") false None None)],
     Throw msgForEachOfNull).
Proof.
  eapply eq_trans.
  - apply (@X26_group_count_shape_is_recognised
             (Client (fun _ _ => RpcResponse JNull None)
                     (fun _ => QueryResponse None None None))
             (lit "SELECT category, COUNT(*) FROM products GROUP BY category")
             (lit "category") None (lit "products")).
    exists (lit " "), (lit " "), [], [], (lit " "), (lit " "), (lit " "),
           (lit " "), (lit " ").
    repeat split; try discriminate.
  - vm_compute. reflexivity.
Defined.

(** ** The priority order, against the shapes in words *)

Section ShapeBuildMore.

Unset Implicit Arguments.

Ltac link := eapply build_cons.
Ltac piece :=
  first [ apply build_text | apply build_chr
        | apply build_star; assumption
        | apply build_plus; assumption
        | apply build_group; assumption ].

Ltac found_at_start :=
  match goal with
  | |- js_match _ ?t <> None =>
      eapply js_match_complete
        with (pre := []) (mid := t) (post := []) (cin := []);
      [rewrite app_nil_r; reflexivity|]
  end.









End ShapeBuildMore.

Section PriorityOrder.

Variable c : client.




End PriorityOrder.


(** ** Masking *)

Section Masking.

Unset Implicit Arguments.

Lemma own_none_iff (o : obj) (k : str) :
  own o k = None <-> ~ In k (map fst o).
Proof.
  split; [apply own_notin|].
  intros H. destruct (own o k) eqn:E; [|reflexivity].
  elim H. eapply own_in. exact E.
Qed.

Lemma own_same_keys (o o' : obj) (k : str) :
  map fst o' = map fst o -> own o k = None -> own o' k = None.
Proof.
  intros Hk H. apply own_none_iff. rewrite Hk. apply own_none_iff. exact H.
Qed.

Lemma maskStep_keys (o : obj) (f : str) :
  map fst (maskStep o f) = map fst o.
Proof.
  unfold maskStep. destruct (own o f); [apply keys_replace|reflexivity].
Qed.

Lemma maskSteps_keys (fs : list str) (o : obj) :
  map fst (fold_left maskStep fs o) = map fst o.
Proof.
  revert o. induction fs as [|f fs IH]; intros o; simpl; [reflexivity|].
  rewrite IH. apply maskStep_keys.
Qed.

Lemma maskFields_plain (fs : list str) (o : obj) :
  own o (lit "hasOwnProperty") = None ->
  maskFields fs o = Return (fold_left maskStep fs o).
Proof.
  revert o. induction fs as [|f fs IH]; intros o H; simpl; [reflexivity|].
  unfold maskField. rewrite H.
  assert (E : match own o f with
              | Some _ => Return (replace_own f maskValue o)
              | None => Return o
              end = Return (maskStep o f)).
  { unfold maskStep. destruct (own o f); reflexivity. }
  rewrite E. apply IH.
  eapply own_same_keys; [apply maskStep_keys|exact H].
Qed.

Lemma maskFields_throws (f : str) (fs : list str) (o : obj) (v : json) :
  own o (lit "hasOwnProperty") = Some v ->
  maskFields (f :: fs) o = Throw msgNotAFunction.
Proof. intros H. simpl. unfold maskField. rewrite H. reflexivity. Qed.

Lemma maskFields_cases (fs : list str) (o : obj) :
  (fs <> [] /\ own o (lit "hasOwnProperty") <> None
   /\ maskFields fs o = Throw msgNotAFunction)
  \/ ((fs = [] \/ own o (lit "hasOwnProperty") = None)
      /\ maskFields fs o = Return (fold_left maskStep fs o)).
Proof.
  destruct fs as [|f fs]; [right; auto|].
  destruct (own o (lit "hasOwnProperty")) as [v|] eqn:E.
  - left. repeat split; try discriminate.
    eapply maskFields_throws. exact E.
  - right. split; [auto|]. apply maskFields_plain. exact E.
Qed.

(** *** The rounds commute and repeat without effect *)

Lemma replace_own_comm (f g : str) (v : json) (o : obj) :
  replace_own f v (replace_own g v o) = replace_own g v (replace_own f v o).
Proof.
  induction o as [|[k x] o IH]; simpl; [reflexivity|].
  destruct (str_eqb k g) eqn:Eg, (str_eqb k f) eqn:Ef; simpl;
    rewrite ?Eg, ?Ef; try reflexivity.
  rewrite IH. reflexivity.
Qed.

Lemma replace_own_idem (f : str) (v : json) (o : obj) :
  replace_own f v (replace_own f v o) = replace_own f v o.
Proof.
  induction o as [|[k x] o IH]; simpl; [reflexivity|].
  destruct (str_eqb k f) eqn:Ef; simpl; rewrite Ef; [reflexivity|].
  rewrite IH. reflexivity.
Qed.

Lemma own_replace_some (f g : str) (v : json) (o : obj) :
  own (replace_own g v o) f = None <-> own o f = None.
Proof.
  rewrite !own_none_iff, keys_replace. tauto.
Qed.

Lemma maskStep_own (o : obj) (g f : str) :
  own (maskStep o g) f = None <-> own o f = None.
Proof.
  rewrite !own_none_iff, maskStep_keys. tauto.
Qed.

Lemma maskStep_unfold (o : obj) (f : str) :
  maskStep o f = match own o f with
                 | Some _ => replace_own f maskValue o
                 | None => o
                 end.
Proof. reflexivity. Qed.

Lemma maskStep_comm (o : obj) (f g : str) :
  maskStep (maskStep o g) f = maskStep (maskStep o f) g.
Proof.
  rewrite (maskStep_unfold (maskStep o g) f), (maskStep_unfold (maskStep o f) g).
  pose proof (maskStep_own o g f) as Hf. pose proof (maskStep_own o f g) as Hg.
  destruct (own o f) as [vf|] eqn:Ef, (own o g) as [vg|] eqn:Eg.
  - destruct (own (maskStep o g) f); [|destruct Hf as [Hf _]; discriminate (Hf eq_refl)].
    destruct (own (maskStep o f) g); [|destruct Hg as [Hg _]; discriminate (Hg eq_refl)].
    unfold maskStep. rewrite Ef, Eg. apply replace_own_comm.
  - destruct (own (maskStep o g) f); [|destruct Hf as [Hf _]; discriminate (Hf eq_refl)].
    rewrite (proj2 Hg eq_refl).
    unfold maskStep. rewrite Ef, Eg. reflexivity.
  - rewrite (proj2 Hf eq_refl).
    destruct (own (maskStep o f) g); [|destruct Hg as [Hg _]; discriminate (Hg eq_refl)].
    unfold maskStep. rewrite Ef, Eg. reflexivity.
  - rewrite (proj2 Hf eq_refl), (proj2 Hg eq_refl).
    unfold maskStep. rewrite Ef, Eg. reflexivity.
Qed.

Lemma maskStep_idem (o : obj) (f : str) :
  maskStep (maskStep o f) f = maskStep o f.
Proof.
  rewrite (maskStep_unfold (maskStep o f) f).
  pose proof (maskStep_own o f f) as Hf.
  destruct (own o f) as [vf|] eqn:Ef.
  - destruct (own (maskStep o f) f); [|destruct Hf as [Hf _]; discriminate (Hf eq_refl)].
    unfold maskStep. rewrite Ef. apply replace_own_idem.
  - rewrite (proj2 Hf eq_refl). reflexivity.
Qed.

Lemma maskSteps_comm (fs : list str) (o : obj) (f : str) :
  maskStep (fold_left maskStep fs o) f = fold_left maskStep fs (maskStep o f).
Proof.
  revert o. induction fs as [|g fs IH]; intros o; simpl; [reflexivity|].
  rewrite IH, maskStep_comm. reflexivity.
Qed.

Lemma maskSteps_idem (fs : list str) (o : obj) :
  fold_left maskStep fs (fold_left maskStep fs o) = fold_left maskStep fs o.
Proof.
  revert o. induction fs as [|f fs IH]; intros o; simpl; [reflexivity|].
  rewrite maskSteps_comm, maskStep_idem. apply IH.
Qed.

Set Implicit Arguments.

End Masking.

Section MaskingTheorems.

Unset Implicit Arguments.

Lemma replace_absent (f : str) (v : json) (o : obj) :
  own o f = None ->
  map (fun '(k, x) => (k, if str_eqb k f then v else x)) o = o.
Proof.
  induction o as [|[k x] o IH]; simpl; [reflexivity|].
  destruct (str_eqb k f) eqn:E; [discriminate|].
  intros H. rewrite (IH H). reflexivity.
Qed.

Lemma maskStep_map (o : obj) (f : str) :
  NoDup (map fst o) ->
  maskStep o f
  = map (fun '(k, x) => (k, if str_eqb k f then maskValue else x)) o.
Proof.
  unfold maskStep. intros Hnd.
  destruct (own o f) as [v0|] eqn:E; [|symmetry; apply replace_absent; exact E].
  clear v0 E. induction o as [|[k x] o IH]; simpl; [reflexivity|].
  simpl in Hnd. inversion Hnd as [|? ? Hk Hnd']; subst.
  destruct (str_eqb k f) eqn:E.
  - f_equal. symmetry. apply replace_absent.
    apply str_eqb_eq in E. subst. apply own_none_iff. exact Hk.
  - f_equal. apply IH. exact Hnd'.
Qed.

Lemma maskSteps_map (fs : list str) (o : obj) :
  NoDup (map fst o) -> fold_left maskStep fs o = maskedRow fs o.
Proof.
  revert o. induction fs as [|f fs IH]; intros o Hnd; simpl.
  - unfold maskedRow. rewrite <- (map_id o) at 1.
    apply map_ext. intros [k x]. reflexivity.
  - rewrite IH by (rewrite maskStep_keys; exact Hnd).
    rewrite maskStep_map by exact Hnd.
    unfold maskedRow. rewrite map_map. apply map_ext. intros [k x].
    unfold masks. simpl. destruct (str_eqb k f); simpl.
    + destruct (existsb _ fs); reflexivity.
    + reflexivity.
Qed.

Lemma maskObject_plain (fs : list str) (row : obj) :
  plainRow row -> maskObject fs (JObj row) = Return (maskedRow fs row).
Proof.
  intros [Hnd Hh]. unfold maskObject. cbn [spread].
  rewrite maskFields_plain by exact Hh.
  rewrite maskSteps_map by exact Hnd. reflexivity.
Qed.

(** X13.  On an array of rows with distinct keys, none of them named
    [hasOwnProperty], [maskSensitiveFields] returns an array of as many
    rows; each has the keys of its row in the same order, the value
    [***] under every key that the list of fields names, and the value
    of the row under every other key. *)
Theorem X13_masking_replaces_named_fields (rows : list obj) (fields : list str) :
  Forall plainRow rows ->
  maskSensitiveFields (JArr (map JObj rows)) fields
  = Return (JArr (map (fun row => JObj (maskedRow fields row)) rows)).
Proof.
  intros H. unfold maskSensitiveFields.
  assert (E : maskRows fields (map JObj rows)
              = Return (map (fun row => JObj (maskedRow fields row)) rows)).
  { induction H as [|row rows Hrow _ IH]; simpl; [reflexivity|].
    rewrite (maskObject_plain _ _ Hrow), IH. reflexivity. }
  rewrite E. reflexivity.
Qed.

Lemma maskFields_idem (fs : list str) (o o' : obj) :
  maskFields fs o = Return o' -> maskFields fs o' = Return o'.
Proof.
  intros H.
  destruct (maskFields_cases fs o) as [(_ & _ & E)|(Hc & E)];
    rewrite E in H; [discriminate|].
  injection H as <-.
  destruct Hc as [->|Hh]; [reflexivity|].
  rewrite maskFields_plain.
  - rewrite maskSteps_idem. reflexivity.
  - eapply own_same_keys; [apply maskSteps_keys|exact Hh].
Qed.

Lemma maskRows_idem (fs : list str) (rows done : list json) :
  maskRows fs rows = Return done -> maskRows fs done = Return done.
Proof.
  revert done. induction rows as [|row rows IH]; intros done H; simpl in H.
  - injection H as <-. reflexivity.
  - destruct (maskObject fs row) as [o|] eqn:Eo; [|discriminate].
    destruct (maskRows fs rows) as [d|] eqn:Ed; [|discriminate].
    injection H as <-. simpl.
    unfold maskObject in *. cbn [spread].
    rewrite (maskFields_idem _ _ _ Eo), (IH _ eq_refl). reflexivity.
Qed.

(** X14.  Masking twice is masking once: what [maskSensitiveFields]
    returns is returned unchanged when it is masked again with the same
    fields. *)
Theorem X14_masking_is_idempotent (data masked : json) (fields : list str) :
  maskSensitiveFields data fields = Return masked ->
  maskSensitiveFields masked fields = Return masked.
Proof.
  destruct data as [|b|z|s|rows|o]; simpl;
    try (intros H; injection H as <-; reflexivity).
  - destruct (maskRows fields rows) as [d|] eqn:E; [|discriminate].
    intros H. injection H as <-. simpl.
    rewrite (maskRows_idem _ _ _ E). reflexivity.
  - destruct (maskObject fields (JObj o)) as [o'|] eqn:E; [|discriminate].
    intros H. injection H as <-. simpl.
    unfold maskObject in *. cbn [spread] in *.
    rewrite (maskFields_idem _ _ _ E). reflexivity.
Qed.

Lemma maskObject_cases (fs : list str) (row : json) :
  (fs <> [] /\ ownsHasOwnProperty row
   /\ maskObject fs row = Throw msgNotAFunction)
  \/ (~ (fs <> [] /\ ownsHasOwnProperty row)
      /\ exists o, maskObject fs row = Return o).
Proof.
  unfold maskObject, ownsHasOwnProperty.
  destruct (maskFields_cases fs (spread row)) as [(H1 & H2 & E)|(Hc & E)].
  - left. auto.
  - right. split; [|eauto]. intros [H1 H2]. destruct Hc; contradiction.
Qed.

(** X15.  [maskSensitiveFields] throws on an array exactly when at least
    one field is to be masked and one of the rows has a property of its
    own named [hasOwnProperty]; the error is then the type error of
    calling that property. *)
Theorem X15_masking_throws_on_hasOwnProperty
        (rows : list json) (fields : list str) :
  (maskSensitiveFields (JArr rows) fields = Throw msgNotAFunction
   <-> fields <> [] /\ Exists ownsHasOwnProperty rows)
  /\ (forall e, maskSensitiveFields (JArr rows) fields = Throw e ->
        e = msgNotAFunction).
Proof.
  assert (H : (fields <> [] /\ Exists ownsHasOwnProperty rows
               /\ maskRows fields rows = Throw msgNotAFunction)
              \/ (~ (fields <> [] /\ Exists ownsHasOwnProperty rows)
                  /\ exists done, maskRows fields rows = Return done)).
  { induction rows as [|row rows IH]; simpl.
    - right. split; [|eauto]. intros [_ H]. inversion H.
    - destruct (maskObject_cases fields row) as [(H1 & H2 & E)|(Hn & o & E)];
        rewrite E.
      + left. auto.
      + destruct IH as [(H1 & H2 & E')|(Hn' & done & E')]; rewrite E'.
        * left. auto.
        * right. split; [|eauto]. intros [H1 H2].
          inversion H2; subst; [apply Hn|apply Hn']; auto. }
  unfold maskSensitiveFields.
  destruct H as [(H1 & H2 & E)|(Hn & done & E)]; rewrite E.
  - split; [tauto|]. intros e He. injection He as <-. reflexivity.
  - split; [|discriminate]. split; [discriminate|]. intros H. contradiction.
Qed.

Set Implicit Arguments.

End MaskingTheorems.

Lemma X13_witness :
  maskSensitiveFields
    (JArr (map JObj [[(lit "id", JNum 7); (lit "email", JStr (lit "a@b.c"))]]))
    [lit "email"; lit "phone"]
  = Return (JArr [JObj [(lit "id", JNum 7); (lit "email", JStr (lit "***"))]]).
Proof.
  apply (X13_masking_replaces_named_fields
           [[(lit "id", JNum 7); (lit "email", JStr (lit "a@b.c"))]]
           [lit "email"; lit "phone"]).
  repeat constructor; simpl; intuition discriminate.
Defined.

Lemma X14_witness :
  maskSensitiveFields
    (JArr [JObj [(lit "id", JNum 7); (lit "email", JStr (lit "***"))]])
    [lit "email"]
  = Return (JArr [JObj [(lit "id", JNum 7); (lit "email", JStr (lit "***"))]]).
Proof.
  apply (X14_masking_is_idempotent
           (JArr [JObj [(lit "id", JNum 7); (lit "email", JStr (lit "a@b.c"))]])).
  reflexivity.
Defined.

(** ** The summary *)

Section Summary.

Unset Implicit Arguments.

Lemma truncated_length (summary : str) : length (truncated summary) <= 2016.
Proof.
  unfold truncated, MAX_LENGTH. destruct (2000 <? length summary) eqn:E.
  - apply Nat.ltb_lt in E. rewrite !length_app, length_firstn.
    change (length nl) with 1. change (length (lit "... (truncated)")) with 15.
    lia.
  - apply Nat.ltb_ge in E. lia.
Qed.

(** X16.  The summary of an array of records is never longer than 2016
    code units: a longer text is cut after 2000 and the marker of 16 is
    appended. *)
Theorem X16_summary_is_bounded
        (records : list json) (fields : list str) (summary : str) :
  formatResultsSummary (JArr records) fields = Return summary ->
  length summary <= 2016.
Proof.
  cbn [formatResultsSummary]. unfold summarize.
  destruct (maskRows fields _) as [[|r rs]|]; [| |discriminate];
    intros H; injection H as <-.
  - change (length msgNoData) with 29. lia.
  - apply truncated_length.
Qed.

Lemma sameOutside_keys (fs : list str) (r1 r2 : obj) :
  sameOutside fs r1 r2 -> map fst r1 = map fst r2.
Proof.
  induction 1 as [|[k1 v1] [k2 v2] r1 r2 [Hk _] _ IH]; simpl; [reflexivity|].
  simpl in Hk. rewrite Hk, IH. reflexivity.
Qed.

Lemma sameOutside_masked (fs : list str) (r1 r2 : obj) :
  sameOutside fs r1 r2 -> maskedRow fs r1 = maskedRow fs r2.
Proof.
  induction 1 as [|[k1 v1] [k2 v2] r1 r2 [Hk Hv] _ IH]; simpl; [reflexivity|].
  simpl in Hk, Hv. subst k2. rewrite IH.
  destruct (masks fs k1); [reflexivity|]. rewrite Hv; reflexivity.
Qed.

Lemma sameOutside_nil (r1 r2 : obj) : sameOutside [] r1 r2 -> r1 = r2.
Proof.
  induction 1 as [|[k1 v1] [k2 v2] r1 r2 [Hk Hv] _ IH]; [reflexivity|].
  simpl in Hk, Hv. rewrite Hk, (Hv eq_refl), IH. reflexivity.
Qed.

Lemma own_keys_eq (o o' : obj) (k : str) :
  map fst o = map fst o' -> (own o k = None <-> own o' k = None).
Proof. intros E. rewrite !own_none_iff, E. tauto. Qed.

(** Two rows that differ only under masked keys are masked alike. *)
Lemma maskFields_sameOutside (fs : list str) (r1 r2 : obj) :
  sameOutside fs r1 r2 -> NoDup (map fst r1) ->
  maskFields fs r1 = maskFields fs r2.
Proof.
  intros Hs Hnd.
  pose proof (sameOutside_keys _ _ _ Hs) as Hk.
  destruct fs as [|f fs].
  { rewrite (sameOutside_nil _ _ Hs). reflexivity. }
  pose proof (own_keys_eq r1 r2 (lit "hasOwnProperty") Hk) as Hh.
  destruct (own r1 (lit "hasOwnProperty")) as [v1|] eqn:E1.
  - destruct (own r2 (lit "hasOwnProperty")) as [v2|] eqn:E2.
    + rewrite (maskFields_throws _ _ _ _ E1), (maskFields_throws _ _ _ _ E2).
      reflexivity.
    + destruct Hh as [_ Hh]. discriminate (Hh eq_refl).
  - rewrite (maskFields_plain _ _ E1),
            (maskFields_plain _ _ (proj1 Hh eq_refl)).
    rewrite !maskSteps_map; [|rewrite <- Hk; exact Hnd|exact Hnd].
    rewrite (sameOutside_masked _ _ _ Hs). reflexivity.
Qed.

Lemma docOf_plain (row : obj) :
  own row (lit "_doc") = None -> docOf (JObj row) = JObj row.
Proof. intros H. unfold docOf. rewrite H. reflexivity. Qed.

(** X17.  The summary does not depend on the values of masked fields:
    two arrays of rows with distinct keys and no [_doc] property that
    differ only in the values under keys named by the list of fields get
    the same summary, or fail alike. *)
Theorem X17_summary_hides_masked_values
        (rows1 rows2 : list obj) (fields : list str) :
  Forall2 (sameOutside fields) rows1 rows2 ->
  Forall plainRecord rows1 ->
  formatResultsSummary (JArr (map JObj rows1)) fields
  = formatResultsSummary (JArr (map JObj rows2)) fields.
Proof.
  intros Hs Hp. cbn [formatResultsSummary]. unfold summarize.
  assert (E : maskRows fields
                (map (fun r => JObj (spread (docOf r))) (map JObj rows1))
              = maskRows fields
                  (map (fun r => JObj (spread (docOf r))) (map JObj rows2))).
  { induction Hs as [|r1 r2 rows1 rows2 Hr _ IH]; [reflexivity|].
    inversion Hp as [|? ? [Hnd Hdoc] Hp']; subst.
    cbn [map maskRows]. unfold maskObject. 
    pose proof (sameOutside_keys _ _ _ Hr) as Hk.
    rewrite (docOf_plain _ Hdoc),
            (docOf_plain _ (proj1 (own_keys_eq r1 r2 (lit "_doc") Hk) Hdoc)).
    cbn [spread].
    rewrite (maskFields_sameOutside _ _ _ Hr Hnd), (IH Hp'). reflexivity. }
  rewrite E. reflexivity.
Qed.

Set Implicit Arguments.

End Summary.

Lemma X16_witness :
  exists summary,
    formatResultsSummary (JArr (map JObj Samples.products)) [lit "price"]
    = Return summary
    /\ length summary <= 2016.
Proof.
  eexists. split; [reflexivity|].
  apply (X16_summary_is_bounded (map JObj Samples.products) [lit "price"]).
  reflexivity.
Defined.

Lemma X17_witness :
  formatResultsSummary
    (JArr (map JObj [[(lit "id", JNum 7); (lit "email", JStr (lit "a@b.c"))]]))
    [lit "email"]
  = formatResultsSummary
      (JArr (map JObj [[(lit "id", JNum 7); (lit "email", JStr (lit "x@y.z"))]]))
      [lit "email"].
Proof.
  apply X17_summary_hides_masked_values.
  - repeat constructor; simpl; intros H; discriminate H.
  - repeat constructor; simpl; intuition discriminate.
Defined.

(** ** Cleaning the reply of the model *)

Section CodeBlock.

Unset Implicit Arguments.

Lemma run_chars (l : str) (p : nat) (r : str) (cs : captures) (k : cont) :
  run (cat (map chr l)) (MState p (l ++ r) cs) k
  = k (MState (p + length l) r cs).
Proof.
  revert p. induction l as [|x l IH]; intros p.
  - simpl. rewrite Nat.add_0_r. reflexivity.
  - change (cat (map chr (x :: l))) with (Seq (Cls (char_eqb x)) (cat (map chr l))).
    cbn [run rest app pos caps]. unfold char_eqb at 1.
    rewrite Ascii.eqb_refl, IH. cbn [length]. rewrite Nat.add_succ_r.
    reflexivity.
Qed.

Lemma run_text (t : string) (p : nat) (r : str) (cs : captures) (k : cont) :
  run (text t) (MState p (lit t ++ r) cs) k
  = k (MState (p + length (lit t)) r cs).
Proof. apply run_chars. Qed.

(** An expression that opens with a literal character fails on a text
    that does not start with it. *)
Lemma run_chars_fail (x : ascii) (l : str) (p : nat) (s : str)
      (cs : captures) (k : cont) :
  match s with y :: _ => y <> x | [] => True end ->
  run (cat (map chr (x :: l))) (MState p s cs) k = None.
Proof.
  intros H.
  change (cat (map chr (x :: l))) with (Seq (Cls (char_eqb x)) (cat (map chr l))).
  cbn [run rest].
  destruct s as [|y s]; [reflexivity|]. unfold char_eqb at 1.
  destruct (Ascii.eqb x y) eqn:E; [|reflexivity].
  apply Ascii.eqb_eq in E. subst. contradiction.
Qed.

Lemma codeBlockExec_needs_fence (idx : nat) (s : str) :
  match s with y :: _ => y <> "`"%char | [] => True end ->
  codeBlockExec idx s = None.
Proof.
  intros H. unfold codeBlockExec, codeBlockHead.
  change (cat [text "```"; opt (cat (map letter_ci (lit "json")));
               plus (Cls is_crlf)])
    with (Seq (cat (map chr ("`"%char :: lit "``")))
              (cat [opt (cat (map letter_ci (lit "json"))); plus (Cls is_crlf)])).
  cbn [run]. apply run_chars_fail. exact H.
Qed.

Lemma searchWith_no_fence (s : str) :
  forall idx, ~ In "`"%char s -> searchWith codeBlockExec idx s = None.
Proof.
  induction s as [|x s IH]; intros idx H; cbn [searchWith].
  - rewrite codeBlockExec_needs_fence; [reflexivity|exact I].
  - rewrite codeBlockExec_needs_fence.
    + apply IH. intros Hin. apply H. right. exact Hin.
    + intros ->. apply H. left. reflexivity.
Qed.

Lemma indexOf_none (x : ascii) (s : str) : ~ In x s -> indexOf x s = None.
Proof.
  induction s as [|y s IH]; intros H; simpl; [reflexivity|].
  unfold char_eqb. destruct (Ascii.eqb y x) eqn:E.
  - apply Ascii.eqb_eq in E. subst. elim H. left. reflexivity.
  - rewrite IH; [reflexivity|]. intros Hin. apply H. right. exact Hin.
Qed.

(** X18.  A reply that holds neither a backtick nor an opening brace
    comes back trimmed and otherwise unchanged. *)
Theorem X18_plain_reply_is_trimmed (text : str) :
  ~ In "`"%char text -> ~ In "{"%char text ->
  cleanMarkdownResponse text = trim text.
Proof.
  intros Hf Hb. unfold cleanMarkdownResponse, codeBlockMatch.
  rewrite (searchWith_no_fence _ 0 Hf). cbv zeta.
  unfold firstObject. rewrite indexOf_none; [reflexivity|].
  intros H. apply Hb. eapply in_trim. exact H.
Qed.

Set Implicit Arguments.

End CodeBlock.

Lemma X18_witness :
  cleanMarkdownResponse (lit "  SELECT id FROM users LIMIT 5;  ")
  = lit "SELECT id FROM users LIMIT 5;".
Proof.
  eapply eq_trans.
  - apply X18_plain_reply_is_trimmed;
      vm_compute; intuition discriminate.
  - vm_compute. reflexivity.
Defined.

Section CodeBlockSound.

Unset Implicit Arguments.

Lemma part_refl (s : str) : part s s.
Proof. exists [], []. rewrite app_nil_r. reflexivity. Qed.

Lemma part_trans (a b c : str) : part a b -> part b c -> part a c.
Proof.
  intros (x & y & ->) (u & v & ->).
  exists (u ++ x), (y ++ v). rewrite <- !app_assoc. reflexivity.
Qed.

Lemma part_trim (s : str) : part (trim s) s.
Proof. destruct (trim_part s) as (a & b & E). exists a, b. exact E. Qed.

Lemma part_slice (n m : nat) (s : str) : part (firstn n (skipn m s)) s.
Proof.
  exists (firstn m s), (skipn n (skipn m s)).
  rewrite firstn_skipn, firstn_skipn. reflexivity.
Qed.

Lemma firstObject_part (candidate : str) : part (firstObject candidate) candidate.
Proof.
  unfold firstObject. destruct (indexOf _ _) as [i|]; [|apply part_refl].
  destruct (scanObject _ _ _ _ _); [apply part_slice|apply part_refl].
Qed.

Lemma lazy_loop_sound (fuel : nat) :
  forall st k res,
    lazy_loop (run any) fuel st k = Some res ->
    exists g post,
      rest st = g ++ post
      /\ k (MState (pos st + length g) post (caps st)) = Some res.
Proof.
  induction fuel as [|fuel IH]; intros st k res H; cbn [lazy_loop] in H.
  - destruct (k st) eqn:E; [|discriminate].
    exists [], (rest st). simpl. rewrite Nat.add_0_r. destruct st.
    split; [reflexivity|]. simpl. congruence.
  - destruct (k st) eqn:E.
    + exists [], (rest st). simpl. rewrite Nat.add_0_r. destruct st.
      split; [reflexivity|]. simpl. congruence.
    + unfold any in H. cbn [run] in H.
      destruct (rest st) as [|x r] eqn:Er; [discriminate|].
      cbn [rest length] in H.
      destruct (length r <? S (length r)); [|discriminate].
      apply IH in H. destruct H as (g & post & Hr & Hk).
      cbn [rest pos caps] in Hr, Hk. subst r.
      exists (x :: g), post. split; [reflexivity|].
      cbn [length]. rewrite Nat.add_succ_r. exact Hk.
Qed.

Lemma searchWith_found (exec : nat -> str -> option mstate) (s : str) :
  forall idx i st, searchWith exec idx s = Some (i, st) ->
    exists pre s', s = pre ++ s' /\ exec i s' = Some st.
Proof.
  induction s as [|x s IH]; intros idx i st H; cbn [searchWith] in H.
  - destruct (exec idx []) eqn:E; [|discriminate].
    inversion H; subst. exists [], []. auto.
  - destruct (exec idx (x :: s)) eqn:E.
    + inversion H; subst. exists [], (x :: s). auto.
    + apply IH in H. destruct H as (pre & s' & -> & H).
      exists (x :: pre), s'. auto.
Qed.

(** Group 1 of a match of the code-block expression is a part of the
    text. *)
Lemma codeBlockExec_group (idx : nat) (s : str) (st : mstate) :
  codeBlockExec idx s = Some st ->
  exists g cs, caps st = (1, g) :: cs /\ part g s.
Proof.
  unfold codeBlockExec. intros H.
  apply run_sound in H. destruct H as (s1 & post1 & cs1 & Hr & _ & H).
  cbn [rest pos caps] in Hr, H.
  apply lazy_loop_sound in H. destruct H as (g & post2 & Hr2 & H).
  cbn [rest pos caps] in Hr2, H.
  apply run_sound in H. destruct H as (s3 & post3 & cs3 & Hr3 & Hm & H).
  cbn [rest pos caps] in Hr3, Hm, H.
  apply matches_chars in Hm. destruct Hm as [_ ->].
  injection H as <-. cbn [caps].
  exists g, cs1. split.
  - rewrite Hr2. f_equal. f_equal.
    replace (idx + length s1 + length g - (idx + length s1)) with (length g)
      by lia.
    rewrite firstn_app, Nat.sub_diag, firstn_all. simpl. apply app_nil_r.
  - rewrite Hr, Hr2. exists s1, post2. reflexivity.
Qed.

(** X19.  What [cleanMarkdownResponse] returns is a part of the reply
    it was given: the function cuts, it never adds or changes a
    character. *)
Theorem X19_cleaned_reply_is_part_of_reply (text : str) :
  part (cleanMarkdownResponse text) text.
Proof.
  unfold cleanMarkdownResponse. cbv zeta.
  eapply part_trans; [apply firstObject_part|].
  unfold codeBlockMatch.
  destruct (searchWith codeBlockExec 0 text) as [[i st]|] eqn:E;
    [|apply part_trim].
  unfold group. cbn [groups].
  apply searchWith_found in E. destruct E as (pre & s' & -> & E).
  apply codeBlockExec_group in E. destruct E as (g & cs & -> & Hp).
  cbn [assoc Nat.eqb]. destruct g as [|x g]; [apply part_trim|].
  eapply part_trans; [apply part_trim|].
  eapply part_trans; [exact Hp|].
  exists pre, []. rewrite app_nil_r. reflexivity.
Qed.

Set Implicit Arguments.

End CodeBlockSound.

Section Fence.

Unset Implicit Arguments.

Lemma run_star_all (P : ascii -> bool) (w : str) :
  forall (r : str) (p : nat) (cs : captures) (k : cont),
    forallb P w = true ->
    match r with y :: _ => P y = false | [] => True end ->
    k (MState (p + length w) r cs) <> None ->
    run (Star (Cls P)) (MState p (w ++ r) cs) k
    = k (MState (p + length w) r cs).
Proof.
  induction w as [|x w IH]; intros r p cs k Hw Hr Hk; rewrite run_star;
    set (loop := run (Star (Cls P))).
  - cbn [run rest app pos caps length]. rewrite Nat.add_0_r.
    destruct r as [|y r]; [reflexivity|]. rewrite Hr. reflexivity.
  - simpl in Hw. apply andb_prop in Hw. destruct Hw as [Hx Hw].
    cbn [run rest app pos caps]. rewrite Hx.
    replace (length (w ++ r) <? length (x :: w ++ r)) with true
      by (symmetry; apply Nat.ltb_lt; simpl; lia).
    assert (E : p + length (x :: w) = S p + length w) by (simpl; lia).
    rewrite E in *. subst loop.
    rewrite (IH r (S p) cs k Hw Hr Hk).
    destruct (k (MState (S p + length w) r cs)); [reflexivity|contradiction].
Qed.

Lemma run_plus_all (P : ascii -> bool) (w r : str) (p : nat)
      (cs : captures) (k : cont) :
  w <> [] -> forallb P w = true ->
  match r with y :: _ => P y = false | [] => True end ->
  k (MState (p + length w) r cs) <> None ->
  run (plus (Cls P)) (MState p (w ++ r) cs) k
  = k (MState (p + length w) r cs).
Proof.
  intros Hne Hw Hr Hk. destruct w as [|x w]; [contradiction|].
  simpl in Hw. apply andb_prop in Hw. destruct Hw as [Hx Hw].
  assert (E : p + length (x :: w) = S p + length w) by (simpl; lia).
  rewrite E in *.
  rewrite <- (run_star_all P w r (S p) cs k Hw Hr Hk).
  unfold plus. set (loop := run (Star (Cls P))).
  cbn [run]. fold loop. cbn [run rest app pos caps]. rewrite Hx. reflexivity.
Qed.

Lemma lower_j (x : ascii) : is_crlf x = true -> char_eqb (lower_char x) "j" = false.
Proof. destruct x as [[] [] [] [] [] [] [] []]; vm_compute; congruence. Qed.

(** The optional label. *)
Lemma run_label (tag w r : str) (p : nat) (cs : captures) (k : cont) :
  jsonLabel tag -> lineBreaks w ->
  k (MState (p + length tag) (w ++ r) cs) <> None ->
  run (opt (cat (map letter_ci (lit "json")))) (MState p (tag ++ w ++ r) cs) k
  = k (MState (p + length tag) (w ++ r) cs).
Proof.
  intros [->|Ht] [Hne Hw] Hk.
  - cbn [app length] in *. rewrite Nat.add_0_r in *.
    unfold opt. cbn [run].
    destruct w as [|x w]; [contradiction|].
    simpl in Hw. apply andb_prop in Hw. destruct Hw as [Hx _].
    cbn [lit list_ascii_of_string map cat fold_right letter_ci run rest app].
    rewrite (lower_j _ Hx). reflexivity.
  - destruct tag as [|t1 [|t2 [|t3 [|t4 [|t5 tag]]]]]; try discriminate.
    cbn [toLowerCase map lit list_ascii_of_string] in Ht.
    injection Ht as H1 H2 H3 H4.
    change (length [t1; t2; t3; t4]) with 4 in *.
    unfold opt.
    cbn [run lit list_ascii_of_string map cat fold_right letter_ci rest app
         pos caps].
    unfold char_eqb at 1 2 3 4.
    rewrite H1, H2, H3, H4, !Ascii.eqb_refl.
    replace (S (S (S (S p)))) with (p + 4) by lia.
    destruct (k (MState (p + 4) (w ++ r) cs)); [reflexivity|contradiction].
Qed.

Lemma lazy_to_fence (body : str) :
  forall (tail : str) (p fuel : nat) (cs : captures) (k : cont) (res : mstate),
    ~ In "`"%char body ->
    (forall st, match rest st with y :: _ => y <> "`"%char | [] => True end ->
                k st = None) ->
    k (MState (p + length body) tail cs) = Some res ->
    length body <= fuel ->
    lazy_loop (run any) fuel (MState p (body ++ tail) cs) k = Some res.
Proof.
  induction body as [|x body IH]; intros tail p fuel cs k res Hb Hk Hres Hf.
  - simpl in *. rewrite Nat.add_0_r in Hres.
    destruct fuel; cbn [lazy_loop]; rewrite Hres; reflexivity.
  - destruct fuel as [|fuel]; [simpl in Hf; lia|]. cbn [lazy_loop].
    rewrite Hk.
    + unfold any. cbn [run rest app pos caps length].
      replace (length (body ++ tail) <? S (length (body ++ tail))) with true
        by (symmetry; apply Nat.ltb_lt; lia).
      apply IH.
      * intros Hin. apply Hb. right. exact Hin.
      * exact Hk.
      * cbn [length] in Hres. rewrite Nat.add_succ_r in Hres. exact Hres.
      * simpl in Hf. lia.
    + cbn [rest app]. intros ->. apply Hb. left. reflexivity.
Qed.

(** The expression at the start of a fenced block. *)
Lemma codeBlockExec_fence (idx : nat) (tag w body post : str) :
  jsonLabel tag -> lineBreaks w ->
  match body with y :: _ => is_crlf y = false | [] => True end ->
  ~ In "`"%char body ->
  exists st,
    codeBlockExec idx (lit "```" ++ tag ++ w ++ body ++ lit "```" ++ post)
    = Some st
    /\ caps st = [(1, body)].
Proof.
  intros Ht Hw Hb Hnf.
  set (p1 := idx + 3 + length tag + length w).
  set (rest1 := body ++ lit "```" ++ post).
  set (k2 := fun st2 : mstate =>
               run (text "```")
                   (MState (pos st2) (rest st2)
                           ((1, firstn (pos st2 - p1) rest1) :: caps st2))
                   Some).
  assert (Hk2 : forall st, match rest st with
                           | y :: _ => y <> "`"%char | [] => True end ->
                           k2 st = None).
  { intros st H. unfold k2. apply (run_chars_fail "`"%char (lit "``")).
    exact H. }
  assert (Hend : k2 (MState (p1 + length body) (lit "```" ++ post) [])
                 = Some (MState (p1 + length body + 3) post [(1, body)])).
  { unfold k2. cbn [pos rest caps]. rewrite run_text.
    replace (p1 + length body - p1) with (length body) by lia.
    unfold rest1. rewrite firstn_app, Nat.sub_diag, firstn_all.
    simpl. rewrite app_nil_r. reflexivity. }
  assert (Hlazy : lazy_loop (run any) (S (length rest1)) (MState p1 rest1 []) k2
                  = Some (MState (p1 + length body + 3) post [(1, body)])).
  { unfold rest1 at 2. apply lazy_to_fence; try assumption.
    unfold rest1. rewrite length_app. lia. }
  exists (MState (p1 + length body + 3) post [(1, body)]).
  split; [|reflexivity].
  unfold codeBlockExec, codeBlockHead.
  change (cat [text "```"; opt (cat (map letter_ci (lit "json")));
               plus (Cls is_crlf)])
    with (Seq (text "```")
              (Seq (opt (cat (map letter_ci (lit "json"))))
                   (Seq (plus (Cls is_crlf)) Eps))).
  cbn [run]. rewrite run_text.
  change (length (lit "```")) with 3.
  assert (Hplus : run (plus (Cls is_crlf))
                      (MState (idx + 3 + length tag) (w ++ rest1) [])
                      (fun st' =>
                         lazy_loop (run any) (S (length (rest st'))) st'
                           (fun st2 =>
                              run (text "```")
                                  (MState (pos st2) (rest st2)
                                          ((1, firstn (pos st2 - pos st')
                                                      (rest st'))
                                             :: caps st2))
                                  Some))
                  = Some (MState (p1 + length body + 3) post [(1, body)])).
  { destruct Hw as [Hne Hw].
    rewrite run_plus_all; [exact Hlazy|exact Hne|exact Hw| |].
    - unfold rest1. destruct body; [reflexivity|exact Hb].
    - intros Hn. pose proof (eq_trans (eq_sym Hlazy) Hn) as C.
      discriminate C. }
  rewrite run_label; [exact Hplus|exact Ht|exact Hw|].
  intros Hn. pose proof (eq_trans (eq_sym Hplus) Hn) as C. discriminate C.
Qed.

Lemma searchWith_skip (pre s : str) :
  forall idx, ~ In "`"%char pre ->
    searchWith codeBlockExec idx (pre ++ lit "`" ++ s)
    = searchWith codeBlockExec (idx + length pre) (lit "`" ++ s).
Proof.
  induction pre as [|x pre IH]; intros idx H.
  - simpl. rewrite Nat.add_0_r. reflexivity.
  - cbn [app searchWith]. rewrite codeBlockExec_needs_fence.
    + rewrite IH by (intros Hin; apply H; right; exact Hin).
      cbn [length]. rewrite Nat.add_succ_r. reflexivity.
    + intros ->. apply H. left. reflexivity.
Qed.

(** X20.  A reply whose first backticks open a fenced block, labelled
    [json] in any letter case or not at all, followed by line breaks, a
    body without backticks and the closing fence, is reduced to that
    body: the result is what the second half of the function makes of
    the trimmed body. *)
Theorem X20_fenced_block_is_unwrapped (text pre tag w body post : str) :
  text = pre ++ lit "```" ++ tag ++ w ++ body ++ lit "```" ++ post ->
  ~ In "`"%char pre ->
  jsonLabel tag -> lineBreaks w ->
  (exists y body', body = y :: body' /\ is_crlf y = false) ->
  ~ In "`"%char body ->
  cleanMarkdownResponse text = firstObject (trim body).
Proof.
  intros -> Hpre Ht Hw (y & body' & Eb & Hy) Hnf.
  unfold cleanMarkdownResponse, codeBlockMatch. cbv zeta.
  change (pre ++ lit "```" ++ tag ++ w ++ body ++ lit "```" ++ post)
    with (pre ++ lit "`" ++ (lit "``" ++ tag ++ w ++ body ++ lit "```" ++ post)).
  rewrite searchWith_skip by exact Hpre.
  change (lit "`" ++ (lit "``" ++ tag ++ w ++ body ++ lit "```" ++ post))
    with (lit "```" ++ tag ++ w ++ body ++ lit "```" ++ post).
  destruct (codeBlockExec_fence (0 + length pre) tag w body post Ht Hw)
    as (st & E & Hc); [subst body; exact Hy|exact Hnf|].
  assert (Es : searchWith codeBlockExec (0 + length pre)
                 (lit "```" ++ tag ++ w ++ body ++ lit "```" ++ post)
               = Some (0 + length pre, st)).
  { cbn [lit list_ascii_of_string app searchWith] in *. rewrite E.
    reflexivity. }
  rewrite Es. unfold group. cbn [groups]. rewrite Hc. cbn [assoc Nat.eqb].
  subst body. reflexivity.
Qed.

Set Implicit Arguments.

End Fence.

Lemma X20_witness :
  cleanMarkdownResponse
    (lit "Here is the query:" ++ nl ++ lit "```JSON" ++ nl
     ++ lit "SELECT * FROM users" ++ nl ++ lit "```" ++ nl ++ lit "Enjoy!")
  = lit "SELECT * FROM users".
Proof.
  eapply eq_trans.
  - apply (X20_fenced_block_is_unwrapped _
             (lit "Here is the query:" ++ nl) (lit "JSON") nl
             (lit "SELECT * FROM users" ++ nl) (nl ++ lit "Enjoy!")).
    + reflexivity.
    + vm_compute. intuition discriminate.
    + right. reflexivity.
    + split; [discriminate|reflexivity].
    + eexists. eexists. split; reflexivity.
    + vm_compute. intuition discriminate.
  - vm_compute. reflexivity.
Defined.

(** ** The two tests in a row *)

Section TwoTests.

Unset Implicit Arguments.

Lemma trimStart_head (s : str) :
  trimStart s = [] \/ exists x r, trimStart s = x :: r /\ is_space x = false.
Proof.
  induction s as [|x s IH]; simpl; [auto|].
  destruct (is_space x) eqn:E; [exact IH|]. right. eauto.
Qed.

Lemma trimStart_fixed (x : ascii) (r : str) :
  is_space x = false -> trimStart (x :: r) = x :: r.
Proof. intros H. simpl. rewrite H. reflexivity. Qed.

Lemma trimStart_snoc (a : str) (x : ascii) :
  is_space x = false -> exists a', trimStart (a ++ [x]) = a' ++ [x].
Proof.
  intros Hx. induction a as [|y a (a' & IH)]; simpl.
  - rewrite Hx. exists []. reflexivity.
  - destruct (is_space y); [eauto|]. exists (y :: a). reflexivity.
Qed.

Lemma trimEnd_head (x : ascii) (r : str) :
  is_space x = false -> exists r', trimEnd (x :: r) = x :: r'.
Proof.
  intros Hx. unfold trimEnd. cbn [rev].
  destruct (trimStart_snoc (rev r) x Hx) as (a' & ->).
  rewrite rev_app_distr. simpl. eauto.
Qed.

(** A trimmed text is empty or starts with something else than
    whitespace. *)
Lemma trim_head (s : str) :
  trim s = [] \/ exists x r, trim s = x :: r /\ is_space x = false.
Proof.
  unfold trim. destruct (trimStart_head s) as [->|(x & r & -> & Hx)].
  - left. reflexivity.
  - right. destruct (trimEnd_head x r Hx) as (r' & ->). eauto.
Qed.

Lemma trimStart_spaces_all (s : str) :
  forallb is_space s = true -> trimStart s = [].
Proof.
  induction s as [|x s IH]; simpl; [reflexivity|].
  intros H. apply andb_prop in H. destruct H as [Hx Hs]. rewrite Hx. auto.
Qed.

Lemma trimStart_cut (s : str) :
  exists a, s = a ++ trimStart s /\ forallb is_space a = true.
Proof.
  induction s as [|x s (a & IH & Ha)]; simpl.
  - exists []. auto.
  - destruct (is_space x) eqn:E.
    + exists (x :: a). simpl. rewrite E, Ha, <- IH. auto.
    + exists []. auto.
Qed.

Lemma trimEnd_cut (s : str) :
  exists b, s = trimEnd s ++ b /\ forallb is_space b = true.
Proof.
  unfold trimEnd. destruct (trimStart_cut (rev s)) as (a & E & Ha).
  exists (rev a). split.
  - rewrite <- rev_app_distr, <- E, rev_involutive. reflexivity.
  - rewrite forallb_rev. exact Ha.
Qed.

Lemma trimStart_idem (s : str) : trimStart (trimStart s) = trimStart s.
Proof.
  destruct (trimStart_head s) as [->|(x & r & -> & Hx)]; [reflexivity|].
  apply trimStart_fixed. exact Hx.
Qed.

Lemma trim_idem (s : str) : trim (trim s) = trim s.
Proof.
  destruct (trim_head s) as [->|(x & r & E & Hx)]; [reflexivity|].
  unfold trim at 1. rewrite E, (trimStart_fixed _ _ Hx), <- E.
  unfold trim, trimEnd. rewrite rev_involutive, trimStart_idem. reflexivity.
Qed.

(** The cleaned form of a trimmed text is what is left of it in front
    of a tail of whitespace and semicolons. *)
Lemma cleaned_of_trimmed (s : str) :
  exists tail,
    trim s = cleaned (trim s) ++ tail /\ forallb separator tail = true.
Proof.
  unfold cleaned. rewrite trim_idem.
  destruct (remove_trailing_semicolons (trim s)) as (semis & E & Hs & _).
  set (t := remove_first Patterns.trailingSemicolons (trim s)) in *.
  assert (Hsemis : forallb separator semis = true).
  { clear -Hs. induction semis as [|x semis IH]; [reflexivity|].
    cbn [forallb] in *. apply andb_prop in Hs. destruct Hs as [Hx Hs].
    apply Ascii.eqb_eq in Hx. subst x. rewrite (IH Hs). reflexivity. }
  destruct t as [|x t'] eqn:Et.
  - exists semis. auto.
  - assert (Hx : is_space x = false).
    { destruct (trim_head s) as [H|(y & r & H & Hy)]; rewrite H in E.
      - discriminate.
      - simpl in E. injection E as -> _. exact Hy. }
    unfold trim at 2. rewrite (trimStart_fixed _ _ Hx).
    destruct (trimEnd_cut (x :: t')) as (b & Eb & Hb).
    exists (b ++ semis). split.
    + rewrite E, Eb at 1. rewrite <- app_assoc. reflexivity.
    + rewrite forallb_app, Hsemis, andb_true_r.
      clear -Hb. induction b as [|y b IH]; simpl in *; [reflexivity|].
      apply andb_prop in Hb. destruct Hb as [Hy Hb].
      unfold separator. rewrite Hy. auto.
Qed.

Lemma startsWith_longer (a c p : str) :
  startsWith a p = true -> startsWith (a ++ c) p = true.
Proof.
  revert a. induction p as [|x p IH]; intros a H; [reflexivity|].
  destruct a as [|y a]; simpl in *; [discriminate|].
  apply andb_prop in H. destruct H as [Hx Hp]. rewrite Hx, (IH _ Hp).
  reflexivity.
Qed.

Lemma startsWith_before_separators (w : str) :
  forall m tail,
    forallb (fun x => negb (separator x)) w = true ->
    forallb separator tail = true ->
    startsWith (m ++ tail) w = true -> startsWith m w = true.
Proof.
  induction w as [|c w IH]; intros m tail Hw Ht H; [reflexivity|].
  simpl in Hw. apply andb_prop in Hw. destruct Hw as [Hc Hw].
  destruct m as [|y m].
  - destruct tail as [|x tail]; simpl in H; [discriminate|].
    simpl in Ht. apply andb_prop in Ht. destruct Ht as [Hx _].
    apply andb_prop in H. destruct H as [H _].
    apply Ascii.eqb_eq in H. subst x. rewrite Hx in Hc. discriminate.
  - simpl in *. apply andb_prop in H. destruct H as [Hy H].
    rewrite Hy. exact (IH _ _ Hw Ht H).
Qed.

Lemma includes_before_separators (w m tail : str) :
  w <> [] ->
  forallb (fun x => negb (separator x)) w = true ->
  forallb separator tail = true ->
  includes (m ++ tail) w = true -> includes m w = true.
Proof.
  intros Hne Hw Ht. induction m as [|y m IH]; intros H.
  - exfalso. cbn [app] in H. clear -Hne Hw Ht H.
    induction tail as [|x tail IH].
    + destruct w; [contradiction|]. simpl in H. discriminate.
    + simpl in Ht. apply andb_prop in Ht. destruct Ht as [Hx Ht].
      cbn [includes] in H. apply orb_prop in H. destruct H as [H|H].
      * destruct w as [|c w]; [contradiction|]. simpl in H, Hw.
        apply andb_prop in H. destruct H as [H _].
        apply andb_prop in Hw. destruct Hw as [Hc _].
        apply Ascii.eqb_eq in H. subst x. rewrite Hx in Hc. discriminate.
      * exact (IH Ht H).
  - cbn [app includes] in H |- *. apply orb_prop in H. destruct H as [H|H].
    + change (y :: m ++ tail) with ((y :: m) ++ tail) in H.
      rewrite (startsWith_before_separators _ _ _ Hw Ht H). reflexivity.
    + rewrite (IH H). apply orb_true_r.
Qed.

Lemma separator_lower (x : ascii) :
  separator x = true -> separator (lower_char x) = true.
Proof. destruct x as [[] [] [] [] [] [] [] []]; vm_compute; congruence. Qed.

Lemma separators_lower (tail : str) :
  forallb separator tail = true ->
  forallb separator (toLowerCase tail) = true.
Proof.
  induction tail as [|x tail IH]; simpl; [reflexivity|].
  intros H. apply andb_prop in H. destruct H as [Hx Ht].
  rewrite (separator_lower _ Hx), (IH Ht). reflexivity.
Qed.

Lemma blocked_is_forbidden (w : string) :
  In w Controller.blockedWords ->
  In w forbidden /\ lit w <> []
  /\ forallb (fun x => negb (separator x)) (lit w) = true.
Proof.
  intros H.
  repeat (destruct H as [<-|H];
          [repeat split; try discriminate; simpl; tauto|]).
  destruct H.
Qed.

Set Implicit Arguments.

End TwoTests.

Section ControllerAndValidator.

Variable supabaseClient : option client.

Lemma gate_is_implied (s : str) :
  let q := trim s in
  let lower := toLowerCase q in
  negb (startsWith lower (lit "select"))
  || existsb (fun w => includes lower (lit w)) Controller.blockedWords = true ->
  executeDbQuery q supabaseClient = ([], Throw msgNotSelect)
  \/ executeDbQuery q supabaseClient = ([], Throw msgForbidden).
Proof.
  cbv zeta. intros H.
  destruct (cleaned_of_trimmed s) as (tail & E & Ht).
  rewrite executeDbQuery_unfold. cbv zeta.
  destruct (startsWith (toLowerCase (cleaned (trim s))) (lit "select")) eqn:Hsel;
    cbn [negb]; [|left; reflexivity].
  right.
  assert (Hq : startsWith (toLowerCase (trim s)) (lit "select") = true).
  { rewrite E. unfold toLowerCase. rewrite map_app.
    apply startsWith_longer. exact Hsel. }
  rewrite Hq in H. cbn [negb orb] in H.
  apply existsb_exists in H. destruct H as (w & Hin & Hw).
  destruct (blocked_is_forbidden w Hin) as (Hf & Hne & Hsep).
  assert (Hc : includes (toLowerCase (cleaned (trim s))) (lit w) = true).
  { rewrite E in Hw. unfold toLowerCase in Hw. rewrite map_app in Hw.
    eapply includes_before_separators; [exact Hne|exact Hsep| |exact Hw].
    apply separators_lower. exact Ht. }
  replace (existsb _ forbidden) with true; [reflexivity|].
  symmetry. apply existsb_exists. exists w. auto.
Qed.

(** X21.  The test that the controller runs on the cleaned reply of the
    model is implied by the tests of [executeDbQuery]: a reply it turns
    down would have been turned down by [executeDbQuery] as well, as not
    a [select] or as holding a forbidden word, without a request to the
    backend; every other reply is handled by [executeDbQuery] alone. *)
Theorem X21_controller_test_is_implied (aiResponseRaw : str) :
  let q := cleanedQuery aiResponseRaw in
  executeReply aiResponseRaw supabaseClient = executeDbQuery q supabaseClient
  \/ (executeReply aiResponseRaw supabaseClient
      = ([], Throw Controller.msgDangerous)
      /\ (executeDbQuery q supabaseClient = ([], Throw msgNotSelect)
          \/ executeDbQuery q supabaseClient = ([], Throw msgForbidden))).
Proof.
  cbv zeta. unfold executeReply, Controller.executeGenerated. cbv zeta.
  match goal with
  | |- context [if ?b then _ else _] => destruct b eqn:Hgate
  end; [|left; reflexivity].
  right. split; [reflexivity|].
  unfold cleanedQuery in *. apply gate_is_implied. exact Hgate.
Qed.

End ControllerAndValidator.

(** ** The MCP tool *)

Section Tool.

Lemma bind_returns {A B} (m : M A) (f : A -> M B) (b : B) :
  snd (bind m f) = Return b ->
  exists a, snd m = Return a /\ snd (f a) = Return b.
Proof.
  destruct m as [t [a|e]]; simpl; [|discriminate].
  destruct (f a) as [t' r] eqn:E. simpl. intros ->.
  exists a. rewrite E. auto.
Qed.

Variable sv : services.
Variable supabaseClient : option client.

(** X22.  [executeNaturalLanguageQueryTool] never returns a response:
    when every step before it succeeds, the final
    [responseSchema.parse] is given two content items that have neither
    a [type] nor a [text], and rejects them with four issues. *)
Theorem X22_tool_response_is_rejected
        (nl_query : str) (language tone : option str) (maskFields : list str)
        (r : parseResult) :
  snd (executeNaturalLanguageQueryTool sv supabaseClient nl_query language
                                       tone maskFields) = Return r ->
  r = Rejected [[lit "content"; lit "0"; lit "type"];
                [lit "content"; lit "0"; lit "text"];
                [lit "content"; lit "1"; lit "type"];
                [lit "content"; lit "1"; lit "text"]].
Proof.
  unfold executeNaturalLanguageQueryTool. cbv zeta. intros H.
  apply bind_returns in H. destruct H as (schema & _ & H).
  apply bind_returns in H. destruct H as (generatedQuery & _ & H).
  apply bind_returns in H. destruct H as (results & _ & H).
  apply bind_returns in H. destruct H as (aiSummary & _ & H).
  apply bind_returns in H. destruct H as (summary & _ & H).
  cbn [ret snd] in H. injection H as <-. reflexivity.
Qed.

End Tool.

Lemma X22_witness :
  parse responseSchema
        (JObj [(lit "content",
                JArr [JObj [(lit "data", JStr (lit "No data found for your query."))];
                      JObj [(lit "summary", JStr (lit "Nothing."))]])])
  = Rejected [[lit "content"; lit "0"; lit "type"];
              [lit "content"; lit "0"; lit "text"];
              [lit "content"; lit "1"; lit "type"];
              [lit "content"; lit "1"; lit "text"]].
Proof.
  apply (@X22_tool_response_is_rejected
           (Services (Return (JObj [])) (fun prompt =>
              if includes prompt (lit "Summarize") then Return (lit "Nothing.")
              else Return (lit "SELECT * FROM users")))
           (Some (Client (fun _ _ => RpcResponse (JArr []) None) Samples.store))
           (lit "all users") None None []).
  vm_compute. reflexivity.
Defined.

(** ** The variables of the modules *)

Section Variables.

(** No call from outside the module assigns [dbInstance]. *)
Lemma dbInstance_unchanged (calls : list call) (s : variables) :
  dbInstance (fold_left after calls s) = dbInstance s.
Proof.
  revert s. induction calls as [|c calls IH]; intros s; simpl; [reflexivity|].
  rewrite IH.
  destruct c as [created|created|]; cbn [after];
    unfold initializeDatabase, initializeSupabaseClient; cbv zeta;
    cbn [ModuleState.supabaseClient].
  - destruct created; reflexivity.
  - destruct (ModuleState.supabaseClient s); [|destruct created]; reflexivity.
  - reflexivity.
Qed.

(** X23.  [isDatabaseInitialized] answers [true] whatever has been
    called since the modules were loaded, also when nothing has and no
    client exists: [dbInstance] is declared without a value and is
    assigned only in [initializeDirectConnection], which is not exported
    and which nothing calls, so it stays [undefined], which is not
    [null]; for the same reason [getDatabaseStatus] reports a direct
    connection. *)
Theorem X23_always_reported_initialized (calls : list call) :
  let s := fold_left after calls loaded in
  isDatabaseInitialized s = true
  /\ hasDirectConnection (getDatabaseStatus s) = true
  /\ isInitialized (getDatabaseStatus s) = true
  /\ isDatabaseInitialized loaded = true
  /\ ModuleState.supabaseClient loaded = None.
Proof.
  cbv zeta. unfold isDatabaseInitialized, getDatabaseStatus.
  cbn [hasDirectConnection isInitialized].
  rewrite dbInstance_unchanged. repeat split.
Qed.

End Variables.

(** ** The prompts *)

Section Prompts.

(** X24.  The prompt that asks for a summary holds at most ten rows of
    the result: it is the prompt of the first ten rows. *)
Theorem X24_summary_prompt_samples_ten_rows
        (userQuery : str) (rows : list json) (language tone : str) :
  generateResultSummaryPrompt userQuery (JArr rows) language tone
  = generateResultSummaryPrompt userQuery (JArr (firstn 10 rows)) language tone.
Proof.
  unfold generateResultSummaryPrompt. cbv zeta.
  destruct (10 <? length rows) eqn:E.
  - apply Nat.ltb_lt in E.
    replace (10 <? length (firstn 10 rows)) with false; [reflexivity|].
    symmetry. apply Nat.ltb_ge. rewrite length_firstn. lia.
  - apply Nat.ltb_ge in E. rewrite firstn_all2 by exact E.
    rewrite (proj2 (Nat.ltb_ge _ _) E). reflexivity.
Qed.

End Prompts.

Section PromptSize.

Lemma trim_shorter (s : str) : length (trim s) <= length s.
Proof.
  destruct (trim_part s) as (a & b & E). rewrite E at 2.
  rewrite !length_app. lia.
Qed.

(** X27.  The prompt that asks for a query grows with the question but
    not with the schema: of a schema text longer than 2000 code units
    only the first 2000 and a marker of 16 are used, so the prompt is
    never longer than 2545 code units plus the length of the
    question. *)
Theorem X27_query_prompt_is_bounded (schemaString userQuery : str) :
  length (generateQueryPrompt schemaString userQuery)
  <= 2545 + length userQuery.
Proof.
  unfold generateQueryPrompt. cbv zeta.
  eapply Nat.le_trans; [apply trim_shorter|].
  assert (Hs : length (if 2000 <? length schemaString
                       then firstn 2000 schemaString ++ nl ++ lit "... (truncated)"
                       else schemaString) <= 2016).
  { destruct (2000 <? length schemaString) eqn:E.
    - rewrite !length_app, length_firstn.
      change (length nl) with 1. change (length (lit "... (truncated)")) with 15.
      lia.
    - apply Nat.ltb_ge in E. lia. }
  revert Hs.
  generalize (if 2000 <? length schemaString
              then firstn 2000 schemaString ++ nl ++ lit "... (truncated)"
              else schemaString).
  intros schemaForPrompt Hs.
  rewrite !length_app. unfold nl, dq. simpl length. lia.
Qed.

End PromptSize.
